(** * sampletester/caserunner.py: the test-case execution engine

    A shallow embedding of [caserunner.py] and proofs about it.

    Conventions of the embedding.
    - Python values that travel through YAML argument blocks, the symbol
      table and embedded code are elements of [value]; mappings coming from
      YAML have string keys.
    - Python [str] is [string]: a character stands for a Unicode code point
      below 256 (the Latin-1 range), and [str.lower] and [repr] are those of
      Python on these code points. Text with other code points is outside
      the embedding.
    - A method of [TestCase] is a function in the monad [M]: it takes the
      instance and returns a [result] together with the mutated instance.
      A raised exception keeps the mutations made before it, as in Python.
    - [testenv.Base] (the environment provider) and the Python libraries
      the module calls ([subprocess], [re], [uuid], [os.environ],
      [traceback], the compiler behind [exec]) are interfaces, given as the
      classes [Environment] and [Platform].
    - Embedded code is arbitrary Python: a statement of a compiled program
      may be any function on the instance that has the functions of the
      symbol table at its disposal ([SPython]). What holds of every method
      holds of a run only under a hypothesis on the embedded code, which
      the theorems state.
    - [start_time] and [end_time] are not modelled. *)

From Stdlib Require Import String Ascii List ZArith Lia Bool DecimalString.
Import ListNotations.
Open Scope string_scope.

(** ** The Python runtime, as far as the module uses it *)

Module Py.

(** [any] and [all], the two aggregators handed to [contain_checker]. *)
Inductive aggregator := Any | All.

(** The bound methods of a [TestCase] that end up as values in the symbol
    table. [F_checker w c] is the closure returned by
    [contain_checker(self.assert_that, w, c)]. *)
Inductive function :=
| F_call_no_error | F_call_allow_error | F_shell
| F_get_uuid | F_get_env | F_print_out | F_extract_match | F_execute
| F_fail | F_expect | F_abort | F_assert_that
| F_checker (which : aggregator) (contains : bool)
| F_assert_success | F_assert_failure.

#[warnings="-register-all"]
Inductive value :=
| VNone
| VBool (b : bool)
| VInt (z : Z)
| VStr (s : string)
| VList (l : list value)
| VTuple (l : list value)
| VDict (d : list (string * value))
| VFun (f : function).

(** Exceptions. [KeyboardInterrupt] is the only one that is not a subclass
    of [Exception]. The text carried by interpreter-raised exceptions
    ([TypeError] and the like) is indicative. [Unmodelled] marks a corner
    of Python that the embedding does not follow (a format field with a
    conversion, a keyword call of a positional parameter, ...). *)
Inductive exn :=
| TestFailure
| ConfigError (msg : string)
| CallError (msg : string)
| KeyboardInterrupt
| KeyError (key : value)
| TypeError (msg : string)
| ValueError (msg : string)
| IndexError (msg : string)
| AttributeError (msg : string)
| NameError (msg : string)
| RecursionError
| OtherException (cls msg : string)
| Unmodelled (what : string).

Inductive result (A : Type) :=
| Ok (a : A)
| Raise (e : exn).
Arguments Ok {A} a.
Arguments Raise {A} e.

Definition is_Exception (e : exn) : bool :=
  match e with
  | KeyboardInterrupt => false
  | _ => true
  end.

(** *** Characters and strings *)

Definition nl : string := String (ascii_of_nat 10) EmptyString.
Definition dq : string := String (ascii_of_nat 34) EmptyString.
Definition sq : string := String (ascii_of_nat 39) EmptyString.
Definition bs : string := String (ascii_of_nat 92) EmptyString.

Definition lbrace : ascii := ascii_of_nat 123.
Definition rbrace : ascii := ascii_of_nat 125.

Definition str1 (c : ascii) : string := String c EmptyString.

(** [s * n] *)
Fixpoint str_mul (s : string) (n : nat) : string :=
  match n with
  | O => EmptyString
  | S k => s ++ str_mul s k
  end.

(** [c.lower()] for one character: the capital letters below 256 are A to
    Z (65 to 90) and the capital letters of Latin-1 (192 to 222 but for the
    multiplication sign 215); the small letter is 32 code points above. *)
Definition lower_char (c : ascii) : ascii :=
  let n := nat_of_ascii c in
  if ((65 <=? n)%nat && (n <=? 90)%nat) ||
     ((192 <=? n)%nat && (n <=? 222)%nat && negb (n =? 215)%nat)
  then ascii_of_nat (n + 32) else c.

(** [s.lower()] *)
Fixpoint lower (s : string) : string :=
  match s with
  | EmptyString => EmptyString
  | String c r => String (lower_char c) (lower r)
  end.

Fixpoint starts_with (p s : string) : bool :=
  match p with
  | EmptyString => true
  | String a p' =>
      match s with
      | EmptyString => false
      | String b s' => Ascii.eqb a b && starts_with p' s'
      end
  end.

(** [needle in hay] on two strings *)
Fixpoint str_in (needle hay : string) : bool :=
  starts_with needle hay ||
  match hay with
  | EmptyString => false
  | String _ r => str_in needle r
  end.

Fixpoint mem_char (c : ascii) (s : string) : bool :=
  match s with
  | EmptyString => false
  | String a r => Ascii.eqb a c || mem_char c r
  end.

(** [s.split(sep)] for a one-character separator; [cur] is the piece being
    collected. *)
Fixpoint split_go (sep : ascii) (s cur : string) : list string :=
  match s with
  | EmptyString => [cur]
  | String c r =>
      if Ascii.eqb c sep then cur :: split_go sep r EmptyString
      else split_go sep r (cur ++ str1 c)
  end.

Definition split (sep : ascii) (s : string) : list string :=
  split_go sep s EmptyString.

(** [sep.join(l)] *)
Definition join (sep : string) (l : list string) : string := String.concat sep l.

(** [msg.count("{}")]: occurrences do not overlap. *)
Fixpoint count_placeholders (s : string) : nat :=
  match s with
  | EmptyString => O
  | String c r =>
      match r with
      | EmptyString => O
      | String d r' =>
          if Ascii.eqb c lbrace && Ascii.eqb d rbrace
          then S (count_placeholders r')
          else count_placeholders r
      end
  end.

(** [str(z)] for an [int] *)
Definition str_of_Z (z : Z) : string := NilZero.string_of_int (Z.to_int z).

Definition hex_digit (n : nat) : string :=
  str1 (ascii_of_nat (if (n <? 10)%nat then 48 + n else 87 + n)).

(** *** [repr] and [str] *)

Definition repr_char (quote c : ascii) : string :=
  let n := nat_of_ascii c in
  if Ascii.eqb c quote || (n =? 92)%nat then bs ++ str1 c
  else if (n =? 9)%nat then bs ++ "t"
  else if (n =? 10)%nat then bs ++ "n"
  else if (n =? 13)%nat then bs ++ "r"
  else if (n <? 32)%nat || ((127 <=? n)%nat && (n <=? 160)%nat) || (n =? 173)%nat
       then bs ++ "x" ++ hex_digit (n / 16) ++ hex_digit (n mod 16)
  else str1 c.

Fixpoint repr_chars (quote : ascii) (s : string) : string :=
  match s with
  | EmptyString => EmptyString
  | String c r => repr_char quote c ++ repr_chars quote r
  end.

(** [repr(s)] of a string: single quotes, unless the string holds a single
    quote and no double quote. *)
Definition repr_str (s : string) : string :=
  let quote :=
    if mem_char (ascii_of_nat 39) s && negb (mem_char (ascii_of_nat 34) s)
    then ascii_of_nat 34 else ascii_of_nat 39 in
  str1 quote ++ repr_chars quote s ++ str1 quote.

Definition function_name (f : function) : string :=
  match f with
  | F_call_no_error => "call_no_error"
  | F_call_allow_error => "call_allow_error"
  | F_shell => "shell"
  | F_get_uuid => "get_uuid"
  | F_get_env => "get_env"
  | F_print_out => "print_out"
  | F_extract_match => "extract_match"
  | F_execute => "execute"
  | F_fail => "fail"
  | F_expect => "expect"
  | F_abort => "abort"
  | F_assert_that => "assert_that"
  | F_checker _ _ => "contain_checker.<locals>.checker"
  | F_assert_success => "assert_success"
  | F_assert_failure => "assert_failure"
  end.

(** [repr(v)]. The address that Python prints for a function object is left
    out. *)
Fixpoint repr (v : value) : string :=
  match v with
  | VNone => "None"
  | VBool true => "True"
  | VBool false => "False"
  | VInt z => str_of_Z z
  | VStr s => repr_str s
  | VList l => "[" ++ join ", " (map repr l) ++ "]"
  | VTuple l =>
      match l with
      | [x] => "(" ++ repr x ++ ",)"
      | _ => "(" ++ join ", " (map repr l) ++ ")"
      end
  | VDict d =>
      "{" ++ join ", " (map (fun kv => repr_str (fst kv) ++ ": " ++ repr (snd kv)) d) ++ "}"
  | VFun f => "<function TestCase." ++ function_name f ++ ">"
  end.

(** [str(v)] *)
Definition str (v : value) : string :=
  match v with
  | VStr s => s
  | _ => repr v
  end.

(** Truth value of [v], as tested by [if], [not], [and] and [or]. *)
Definition truthy (v : value) : bool :=
  match v with
  | VNone => false
  | VBool b => b
  | VInt z => negb (z =? 0)%Z
  | VStr s => negb (String.eqb s EmptyString)
  | VList l | VTuple l => match l with [] => false | _ => true end
  | VDict d => match d with [] => false | _ => true end
  | VFun _ => true
  end.

Definition type_name (v : value) : string :=
  match v with
  | VNone => "NoneType"
  | VBool _ => "bool"
  | VInt _ => "int"
  | VStr _ => "str"
  | VList _ => "list"
  | VTuple _ => "tuple"
  | VDict _ => "dict"
  | VFun _ => "method"
  end.

(** [str(e)] and [repr(e)] of an exception *)
Definition exn_str (e : exn) : string :=
  match e with
  | TestFailure | KeyboardInterrupt | RecursionError => EmptyString
  | ConfigError m | CallError m | TypeError m | ValueError m | IndexError m
  | AttributeError m | NameError m | OtherException _ m | Unmodelled m => m
  | KeyError k => repr k
  end.

Definition exn_class (e : exn) : string :=
  match e with
  | TestFailure => "TestFailure"
  | ConfigError _ => "ConfigError"
  | CallError _ => "CallError"
  | KeyboardInterrupt => "KeyboardInterrupt"
  | KeyError _ => "KeyError"
  | TypeError _ => "TypeError"
  | ValueError _ => "ValueError"
  | IndexError _ => "IndexError"
  | AttributeError _ => "AttributeError"
  | NameError _ => "NameError"
  | RecursionError => "RecursionError"
  | OtherException c _ => c
  | Unmodelled _ => "Unmodelled"
  end.

Definition exn_repr (e : exn) : string :=
  exn_class e ++ "(" ++
  match e with
  | TestFailure | KeyboardInterrupt | RecursionError => EmptyString
  | KeyError k => repr k
  | _ => repr_str (exn_str e)
  end ++ ")".

(** *** [str.format] with positional arguments

    The replacement fields that are followed are [{}] (automatic numbering)
    and [{N}] (an index), with the escapes [{{] and [}}]. A field whose name
    is neither empty nor a number is looked up among the keyword arguments,
    of which there are none here, and raises [KeyError]. A field with an
    attribute, an index, a conversion or a format specification is
    [Unmodelled]. *)

Inductive numbering := NumUnset | NumAuto (next : nat) | NumManual.

Definition is_digit (c : ascii) : bool :=
  let n := nat_of_ascii c in (48 <=? n)%nat && (n <=? 57)%nat.

Fixpoint all_digits (s : string) : bool :=
  match s with
  | EmptyString => true
  | String c r => is_digit c && all_digits r
  end.

Fixpoint nat_of_digits (s : string) (acc : nat) : nat :=
  match s with
  | EmptyString => acc
  | String c r => nat_of_digits r (10 * acc + (nat_of_ascii c - 48))
  end.

Definition field_special (c : ascii) : bool :=
  mem_char c ".[]!:{".

Fixpoint has_special (s : string) : bool :=
  match s with
  | EmptyString => false
  | String c r => field_special c || has_special r
  end.

Definition positional (args : list value) (n : nat) : result value :=
  match nth_error args n with
  | Some v => Ok v
  | None =>
      Raise (IndexError ("Replacement index " ++ str_of_Z (Z.of_nat n) ++
                         " out of range for positional args tuple"))
  end.

Definition format_field (args : list value) (f : string) (num : numbering)
  : result (string * numbering) :=
  if String.eqb f EmptyString then
    match num with
    | NumManual =>
        Raise (ValueError "cannot switch from manual field specification to automatic field numbering")
    | NumUnset =>
        match positional args 0 with
        | Ok v => Ok (str v, NumAuto 1)
        | Raise e => Raise e
        end
    | NumAuto n =>
        match positional args n with
        | Ok v => Ok (str v, NumAuto (S n))
        | Raise e => Raise e
        end
    end
  else if all_digits f then
    if (9 <? String.length f)%nat then Raise (Unmodelled "format field index")
    else
      match num with
      | NumAuto _ =>
          Raise (ValueError "cannot switch from automatic field numbering to manual field specification")
      | _ =>
          match positional args (nat_of_digits f 0) with
          | Ok v => Ok (str v, NumManual)
          | Raise e => Raise e
          end
      end
  else if has_special f then Raise (Unmodelled "format field")
  else Raise (KeyError (VStr f)).

(** The scan of the template: [field] is [Some f] inside a replacement
    field whose text so far is [f]; [acc] is the output so far. *)
Fixpoint format_go (args : list value) (s : string) (field : option string)
    (num : numbering) (acc : string) : result string :=
  match s with
  | EmptyString =>
      match field with
      | None => Ok acc
      | Some _ => Raise (ValueError "expected '}' before end of string")
      end
  | String c rest =>
      match field with
      | Some f =>
          if Ascii.eqb c rbrace then
            match format_field args f num with
            | Ok (text, num') => format_go args rest None num' (acc ++ text)
            | Raise e => Raise e
            end
          else format_go args rest (Some (f ++ str1 c)) num acc
      | None =>
          if Ascii.eqb c lbrace then
            match rest with
            | EmptyString => Raise (ValueError "Single '{' encountered in format string")
            | String d rest' =>
                if Ascii.eqb d lbrace
                then format_go args rest' None num (acc ++ str1 lbrace)
                else format_go args rest (Some EmptyString) num acc
            end
          else if Ascii.eqb c rbrace then
            match rest with
            | String d rest' =>
                if Ascii.eqb d rbrace
                then format_go args rest' None num (acc ++ str1 rbrace)
                else Raise (ValueError "Single '}' encountered in format string")
            | EmptyString => Raise (ValueError "Single '}' encountered in format string")
            end
          else format_go args rest None num (acc ++ str1 c)
      end
  end.

(** [template.format( *args )] *)
Definition format (template : string) (args : list value) : result string :=
  format_go args template None NumUnset EmptyString.

(** *** Dictionaries, lengths and iteration *)

(** A mapping with string keys, as YAML and keyword arguments give them. *)
Fixpoint assoc (k : string) (d : list (string * value)) : option value :=
  match d with
  | [] => None
  | (k', v) :: r => if String.eqb k k' then Some v else assoc k r
  end.

Fixpoint remove_key (k : string) (d : list (string * value)) : list (string * value) :=
  match d with
  | [] => []
  | (k', v) :: r => if String.eqb k k' then remove_key k r else (k', v) :: remove_key k r
  end.

(** [d[k] = v] on a string-keyed mapping: an existing key keeps its place. *)
Fixpoint assoc_set (k : string) (v : value) (d : list (string * value))
  : list (string * value) :=
  match d with
  | [] => [(k, v)]
  | (k', v') :: r => if String.eqb k k' then (k, v) :: r else (k', v') :: assoc_set k v r
  end.

Fixpoint hashable (v : value) : bool :=
  match v with
  | VNone | VBool _ | VInt _ | VStr _ | VFun _ => true
  | VTuple l => forallb hashable l
  | VList _ | VDict _ => false
  end.

Definition Z_of_bool (b : bool) : Z := if b then 1%Z else 0%Z.

Definition function_eqb (f g : function) : bool :=
  match f, g with
  | F_call_no_error, F_call_no_error | F_call_allow_error, F_call_allow_error
  | F_shell, F_shell | F_get_uuid, F_get_uuid | F_get_env, F_get_env
  | F_print_out, F_print_out | F_extract_match, F_extract_match
  | F_execute, F_execute | F_fail, F_fail | F_expect, F_expect
  | F_abort, F_abort | F_assert_that, F_assert_that
  | F_assert_success, F_assert_success | F_assert_failure, F_assert_failure => true
  | F_checker w c, F_checker w' c' =>
      Bool.eqb c c' && match w, w' with Any, Any | All, All => true | _, _ => false end
  | _, _ => false
  end.

(** [a == b] on hashable values, the comparison made by a [dict] on its
    keys: [True == 1] and [False == 0]. Two closures that
    [contain_checker] made from the same arguments are identified. *)
Fixpoint key_eqb (a b : value) {struct a} : bool :=
  match a, b with
  | VNone, VNone => true
  | VBool x, VBool y => Bool.eqb x y
  | VBool x, VInt z | VInt z, VBool x => (z =? Z_of_bool x)%Z
  | VInt x, VInt y => (x =? y)%Z
  | VStr x, VStr y => String.eqb x y
  | VFun f, VFun g => function_eqb f g
  | VTuple l1, VTuple l2 =>
      (fix go (l1 l2 : list value) {struct l1} : bool :=
         match l1, l2 with
         | [], [] => true
         | x :: r1, y :: r2 => key_eqb x y && go r1 r2
         | _, _ => false
         end) l1 l2
  | _, _ => false
  end.

(** The symbol table: a [dict] whose keys are hashable values. *)
Definition symbols := list (value * value).

Fixpoint sym_lookup (k : value) (t : symbols) : option value :=
  match t with
  | [] => None
  | (k', v) :: r => if key_eqb k' k then Some v else sym_lookup k r
  end.

Fixpoint sym_update (k v : value) (t : symbols) : symbols :=
  match t with
  | [] => [(k, v)]
  | (k', v') :: r => if key_eqb k' k then (k', v) :: r else (k', v') :: sym_update k v r
  end.

Definition unhashable (v : value) : exn :=
  TypeError ("unhashable type: '" ++ type_name v ++ "'").

(** [t[k]] *)
Definition sym_getitem (t : symbols) (k : value) : result value :=
  if hashable k then
    match sym_lookup k t with
    | Some v => Ok v
    | None => Raise (KeyError k)
    end
  else Raise (unhashable k).

(** [t.get(k, default)] *)
Definition sym_get (t : symbols) (k default : value) : result value :=
  if hashable k then
    match sym_lookup k t with
    | Some v => Ok v
    | None => Ok default
    end
  else Raise (unhashable k).

(** [t[k] = v] *)
Definition sym_setitem (t : symbols) (k v : value) : result symbols :=
  if hashable k then Ok (sym_update k v t) else Raise (unhashable k).

Definition chars (s : string) : list value :=
  map (fun c => VStr (str1 c)) (list_ascii_of_string s).

(** [len(v)] *)
Definition len (v : value) : result nat :=
  match v with
  | VStr s => Ok (String.length s)
  | VList l | VTuple l => Ok (List.length l)
  | VDict d => Ok (List.length d)
  | _ => Raise (TypeError ("object of type '" ++ type_name v ++ "' has no len()"))
  end.

(** The elements that [for x in v] goes through. *)
Definition iter (v : value) : result (list value) :=
  match v with
  | VStr s => Ok (chars s)
  | VList l | VTuple l => Ok l
  | VDict d => Ok (map (fun kv => VStr (fst kv)) d)
  | _ => Raise (TypeError ("'" ++ type_name v ++ "' object is not iterable"))
  end.

(** [v.items()] *)
Definition items (v : value) : result (list (string * value)) :=
  match v with
  | VDict d => Ok d
  | _ => Raise (AttributeError ("'" ++ type_name v ++ "' object has no attribute 'items'"))
  end.

End Py.

Import Py.

(** ** The collaborators of the module *)

(** What [subprocess.check_output] does: return the captured bytes, raise
    [CalledProcessError] with the exit status and the bytes, or raise
    something else (an interrupt, an [OSError]). *)
Inductive process :=
| Completed (out : string)
| CalledProcessError (returncode : Z) (out : string)
| ProcessRaised (e : exn).

(** [testenv.Base], as the module uses it. *)
Class Environment := {
  get_call : list value -> list (string * value) -> result (string * option string);
  get_symbol : string -> result string;
  get_testcase_settings : list (string * string)
}.

Inductive level := INFO | CRITICAL.

(** ** The instance *)

(** One recorded failure or error: [(status, message, args)]. *)
Definition entry : Type := string * value * list value.

(** One entry of a stage specification: a mapping from directive to
    argument block. *)
Definition segment : Type := list (string * value).

(** The attributes of a [TestCase]; [logging] is the sink of the [logging]
    module and [ticks] the number of draws made from the outside world. *)
Record TestCase := {
  failures : list entry;
  errors : list entry;
  output : string;
  idx : Z;
  label : string;
  setup : list segment;
  case : list segment;
  teardown : list segment;
  last_return_code : Z;
  last_call_output : string;
  local_symbols : symbols;
  logging : list (level * string);
  ticks : nat
}.

Definition with_failures (x : list entry) (tc : TestCase) : TestCase :=
  {| failures := x; errors := errors tc; output := output tc; idx := idx tc;
     label := label tc; setup := setup tc; case := case tc;
     teardown := teardown tc; last_return_code := last_return_code tc;
     last_call_output := last_call_output tc;
     local_symbols := local_symbols tc; logging := logging tc;
     ticks := ticks tc |}.

Definition with_errors (x : list entry) (tc : TestCase) : TestCase :=
  {| failures := failures tc; errors := x; output := output tc; idx := idx tc;
     label := label tc; setup := setup tc; case := case tc;
     teardown := teardown tc; last_return_code := last_return_code tc;
     last_call_output := last_call_output tc;
     local_symbols := local_symbols tc; logging := logging tc;
     ticks := ticks tc |}.

Definition with_output (x : string) (tc : TestCase) : TestCase :=
  {| failures := failures tc; errors := errors tc; output := x; idx := idx tc;
     label := label tc; setup := setup tc; case := case tc;
     teardown := teardown tc; last_return_code := last_return_code tc;
     last_call_output := last_call_output tc;
     local_symbols := local_symbols tc; logging := logging tc;
     ticks := ticks tc |}.

Definition with_last_return_code (x : Z) (tc : TestCase) : TestCase :=
  {| failures := failures tc; errors := errors tc; output := output tc;
     idx := idx tc; label := label tc; setup := setup tc; case := case tc;
     teardown := teardown tc; last_return_code := x;
     last_call_output := last_call_output tc;
     local_symbols := local_symbols tc; logging := logging tc;
     ticks := ticks tc |}.

Definition with_last_call_output (x : string) (tc : TestCase) : TestCase :=
  {| failures := failures tc; errors := errors tc; output := output tc;
     idx := idx tc; label := label tc; setup := setup tc; case := case tc;
     teardown := teardown tc; last_return_code := last_return_code tc;
     last_call_output := x;
     local_symbols := local_symbols tc; logging := logging tc;
     ticks := ticks tc |}.

Definition with_local_symbols (x : symbols) (tc : TestCase) : TestCase :=
  {| failures := failures tc; errors := errors tc; output := output tc;
     idx := idx tc; label := label tc; setup := setup tc; case := case tc;
     teardown := teardown tc; last_return_code := last_return_code tc;
     last_call_output := last_call_output tc;
     local_symbols := x; logging := logging tc;
     ticks := ticks tc |}.

Definition with_logging (x : list (level * string)) (tc : TestCase) : TestCase :=
  {| failures := failures tc; errors := errors tc; output := output tc;
     idx := idx tc; label := label tc; setup := setup tc; case := case tc;
     teardown := teardown tc; last_return_code := last_return_code tc;
     last_call_output := last_call_output tc;
     local_symbols := local_symbols tc; logging := x;
     ticks := ticks tc |}.

Definition with_ticks (x : nat) (tc : TestCase) : TestCase :=
  {| failures := failures tc; errors := errors tc; output := output tc;
     idx := idx tc; label := label tc; setup := setup tc; case := case tc;
     teardown := teardown tc; last_return_code := last_return_code tc;
     last_call_output := last_call_output tc;
     local_symbols := local_symbols tc; logging := logging tc;
     ticks := x |}.

(** ** The monad of methods *)

Definition M (A : Type) : Type := TestCase -> result A * TestCase.

Definition ret {A} (a : A) : M A := fun tc => (Ok a, tc).

Definition raise {A} (e : exn) : M A := fun tc => (Raise e, tc).

Definition bind {A B} (m : M A) (k : A -> M B) : M B :=
  fun tc =>
    match m tc with
    | (Ok a, tc') => k a tc'
    | (Raise e, tc') => (Raise e, tc')
    end.

Definition lift {A} (r : result A) : M A := fun tc => (r, tc).

Definition get : M TestCase := fun tc => (Ok tc, tc).

Definition modify (f : TestCase -> TestCase) : M unit := fun tc => (Ok tt, f tc).

Declare Scope method_scope.
Delimit Scope method_scope with method.
Notation "x <- m ;; k" := (bind m (fun x => k))
  (at level 61, m at next level, right associativity) : method_scope.
Notation "' pat <- m ;; k" := (bind m (fun x => match x with pat => k end))
  (at level 61, pat pattern, m at next level, right associativity) : method_scope.
Notation "m ;; k" := (bind m (fun _ => k))
  (at level 61, right associativity) : method_scope.
Open Scope method_scope.

(** [for x in l: body(x)] *)
Fixpoint for_each {A} (body : A -> M unit) (l : list A) : M unit :=
  match l with
  | [] => ret tt
  | x :: r => body x ;; for_each body r
  end.

(** [[f(x) for x in l]] *)
Fixpoint comprehension {A B} (f : A -> M B) (l : list A) : M (list B) :=
  match l with
  | [] => ret []
  | x :: r => y <- f x ;; ys <- comprehension f r ;; ret (y :: ys)
  end.

(** ** Module-level helpers of [caserunner.py] *)

(** [_interpolated_symbol_re.sub(lambda match: resolver(match.group(1)), msg)]
    for the expression [{([^}]+)}]: scanning from the left, an opening brace
    followed by at least one character other than a closing brace and then a
    closing brace is replaced by what [resolver] returns for the text in
    between. [pending] is [Some name] after an opening brace, [name] being
    the text read since; [acc] is the output so far. *)
Fixpoint interpolate_go (resolver : string -> result string) (s : string)
    (pending : option string) (acc : string) : result string :=
  match s with
  | EmptyString =>
      match pending with
      | None => Ok acc
      | Some name => Ok (acc ++ str1 lbrace ++ name)
      end
  | String c rest =>
      match pending with
      | None =>
          if Ascii.eqb c lbrace then interpolate_go resolver rest (Some EmptyString) acc
          else interpolate_go resolver rest None (acc ++ str1 c)
      | Some name =>
          if Ascii.eqb c rbrace then
            if String.eqb name EmptyString
            then interpolate_go resolver rest None (acc ++ str1 lbrace ++ str1 rbrace)
            else
              match resolver name with
              | Ok text => interpolate_go resolver rest None (acc ++ text)
              | Raise e => Raise e
              end
          else interpolate_go resolver rest (Some (name ++ str1 c)) acc
      end
  end.

Definition interpolate_symbols (msg : value) (resolver : string -> result string)
  : result string :=
  match msg with
  | VStr s => interpolate_go resolver s None EmptyString
  | _ => Raise (TypeError "expected string or bytes-like object")
  end.

(** [reindent(s, numSpaces, prompt)] *)
Definition reindent (s : string) (numSpaces : nat) (prompt : string) : string :=
  let s := split (ascii_of_nat 10) s in
  let s := map (fun line => str_mul " " numSpaces ++ prompt ++ line) s in
  join nl s.

(** The exception classes of the module. [ConfigError] and [CallError]
    define [__init__(self, msg)]: instantiating them takes exactly one
    argument. [TestFailure] inherits the constructor of [Exception]. *)
Definition new_TestFailure (args : list string) : result exn := Ok TestFailure.

Definition new_ConfigError (args : list string) : result exn :=
  match args with
  | [msg] => Ok (ConfigError msg)
  | [] => Raise (TypeError "__init__() missing 1 required positional argument: 'msg'")
  | _ => Raise (TypeError "__init__() takes 2 positional arguments but more were given")
  end.

Definition new_CallError (args : list string) : result exn :=
  match args with
  | [msg] => Ok (CallError msg)
  | [] => Raise (TypeError "__init__() missing 1 required positional argument: 'msg'")
  | _ => Raise (TypeError "__init__() takes 2 positional arguments but more were given")
  end.

(** [raise cls( *args )]; a bare [raise cls] instantiates [cls] with no
    argument. *)
Definition raise_new {A} (cls : list string -> result exn) (args : list string) : M A :=
  match cls args with
  | Ok e => raise e
  | Raise e => raise e
  end.

Definition logging_info (msg : string) : M unit :=
  modify (fun tc => with_logging (logging tc ++ [(INFO, msg)]) tc).

Definition logging_critical (msg : string) : M unit :=
  modify (fun tc => with_logging (logging tc ++ [(CRITICAL, msg)]) tc).

(** [log_raise(logging.critical, ValueError, message)] *)
Definition log_raise {A} (message : string) : M A :=
  logging_critical message ;; raise (ValueError message).

(** ** Dynamic typing at the edges of the argument adapters *)

(** [a + b] for a string [a]. *)
Definition str_add (a : string) (b : value) : result string :=
  match b with
  | VStr s => Ok (a ++ s)
  | _ => Raise (TypeError ("can only concatenate str (not " ++ dq ++ type_name b ++ dq ++ ") to str"))
  end.

(** [k in v] for a string [k]. *)
Definition contains_key (k : string) (v : value) : result bool :=
  match v with
  | VDict d => Ok (match assoc k d with Some _ => true | None => false end)
  | VStr s => Ok (str_in k s)
  | VList l | VTuple l => Ok (existsb (key_eqb (VStr k)) l)
  | _ => Raise (TypeError ("argument of type '" ++ type_name v ++ "' is not iterable"))
  end.

(** [v[k]] for a string [k]. *)
Definition getitem_key (v : value) (k : string) : result value :=
  match v with
  | VDict d =>
      match assoc k d with
      | Some x => Ok x
      | None => Raise (KeyError (VStr k))
      end
  | VStr _ | VList _ | VTuple _ => Raise (TypeError "indices must be integers or slices, not str")
  | _ => Raise (TypeError ("'" ++ type_name v ++ "' object is not subscriptable"))
  end.

(** [v.get(k)] for a string [k]. *)
Definition dict_get (v : value) (k : string) : result value :=
  match v with
  | VDict d =>
      match assoc k d with
      | Some x => Ok x
      | None => Ok VNone
      end
  | _ => Raise (AttributeError ("'" ++ type_name v ++ "' object has no attribute 'get'"))
  end.

(** [v[0]] *)
Definition first_item (v : value) : result value :=
  match v with
  | VList (x :: _) | VTuple (x :: _) => Ok x
  | VList [] | VTuple [] => Raise (IndexError "index out of range")
  | VStr (String c _) => Ok (VStr (str1 c))
  | VStr EmptyString => Raise (IndexError "string index out of range")
  | VDict _ => Raise (KeyError (VInt 0))
  | _ => Raise (TypeError ("'" ++ type_name v ++ "' object is not subscriptable"))
  end.

(** [v[start:]] *)
Definition slice_from (v : value) (start : nat) : result value :=
  match v with
  | VList l => Ok (VList (skipn start l))
  | VTuple l => Ok (VTuple (skipn start l))
  | VStr s => Ok (VStr (string_of_list_ascii (skipn start (list_ascii_of_string s))))
  | VDict _ => Raise (TypeError "unhashable type: 'slice'")
  | _ => Raise (TypeError ("'" ++ type_name v ++ "' object is not subscriptable"))
  end.

Definition value_of_capture (c : option string) : value :=
  match c with
  | Some s => VStr s
  | None => VNone
  end.

(** ** Embedded code and the platform *)

(** Embedded code. [exec(code, None, self.local_symbols)] runs any Python
    source on the symbol table, and through the bound methods in that table
    the code reaches the instance itself. The compiler behind [exec] is part
    of the platform and hands back a program, a sequence of statements: a
    call of a name bound in the symbol table with literal arguments (the
    result optionally bound to a name), an assignment of a literal, a
    [raise], or any other Python ([SPython]), given by what it does to the
    instance with the functions of the table at its disposal: it may call
    them, catch what they raise, and read and write every attribute. *)
Inductive stmt :=
| SCall (target : option string) (f : string) (args : list value)
        (kwargs : list (string * value))
| SAssign (x : string) (v : value)
| SRaise (e : exn)
| SPython (body : (function -> list value -> list (string * value) -> M value) ->
                  M unit).

(** The Python libraries behind the module. [check_output] and [uuid4]
    depend on the number of earlier draws from the outside world. *)
Class Platform := {
  check_output : nat -> string -> option string -> process;
  decode_utf8 : string -> result string;
  re_search : value -> string -> result (option (list (option string)));
  uuid4 : nat -> string;
  environ : string -> option string;
  format_tb : exn -> string;
  compile_code : string -> result (list stmt);
  recursion_limit : nat
}.

(** ** The methods of [TestCase] *)

Section CaseRunner.

Context {environment : Environment} {platform : Platform}.

(** The argument adapters ("yaml_prep" functions) of the dispatch table. *)
Inductive adapter :=
| A_params_for_call | A_yaml_args_string | A_yaml_get_uuid | A_yaml_get_env
| A_yaml_extract_match | A_code | A_params_for_contains.

Definition KEY_CONTAINS_MESSAGE : string := "message".

(** [self.builtins], built by [__init__]. *)
Definition builtins (idx : Z) (label : string)
  : list (string * (value * option adapter)) :=
  [ ("testcase_num", (VInt idx, None));
    ("testcase_id", (VStr label, None));
    ("_last_call_output", (VStr EmptyString, None));
    ("call", (VFun F_call_no_error, Some A_params_for_call));
    ("call_may_fail", (VFun F_call_allow_error, Some A_params_for_call));
    ("shell", (VFun F_shell, Some A_yaml_args_string));
    ("uuid", (VFun F_get_uuid, Some A_yaml_get_uuid));
    ("env", (VFun F_get_env, Some A_yaml_get_env));
    ("log", (VFun F_print_out, Some A_yaml_args_string));
    ("extract_match", (VFun F_extract_match, Some A_yaml_extract_match));
    ("code", (VFun F_execute, Some A_code));
    ("fail", (VFun F_fail, None));
    ("expect", (VFun F_expect, None));
    ("abort", (VFun F_abort, None));
    ("assert_that", (VFun F_assert_that, None));
    ("assert_contains_any", (VFun (F_checker Any true), Some A_params_for_contains));
    ("assert_excludes", (VFun (F_checker All false), Some A_params_for_contains));
    ("assert_not_contains", (VFun (F_checker All false), Some A_params_for_contains));
    ("assert_contains", (VFun (F_checker All true), Some A_params_for_contains));
    ("assert_excludes_any", (VFun (F_checker Any false), Some A_params_for_contains));
    ("assert_success", (VFun F_assert_success, Some A_yaml_args_string));
    ("assert_failure", (VFun F_assert_failure, Some A_yaml_args_string)) ].

Fixpoint lookup_builtin (k : string) (t : list (string * (value * option adapter)))
  : option (value * option adapter) :=
  match t with
  | [] => None
  | (k', x) :: r => if String.eqb k k' then Some x else lookup_builtin k r
  end.

(** [TestCase.__init__] *)
Definition init (idx : Z) (label : string) (setup case teardown : list segment)
  : TestCase :=
  {| failures := []; errors := []; output := EmptyString;
     idx := idx; label := label;
     setup := setup; case := case; teardown := teardown;
     last_return_code := 0; last_call_output := EmptyString;
     local_symbols :=
       map (fun symbol_info => (VStr (fst symbol_info), fst (snd symbol_info)))
           (builtins idx label);
     logging := []; ticks := O |}.

Definition record_failure (status : string) (message : value) (args : list value)
  : M unit :=
  modify (fun tc => with_failures (failures tc ++ [(status, message, args)]) tc).

Definition record_error (status : string) (message : value) (args : list value)
  : M unit :=
  modify (fun tc => with_errors (errors tc ++ [(status, message, args)]) tc).

(** [self.output += text] *)
Definition append_output (text : string) : M unit :=
  modify (fun tc => with_output (output tc ++ text) tc).

(** [self.local_symbols[k] = v] *)
Definition set_symbol (k v : value) : M unit :=
  tc <- get ;;
  t <- lift (sym_setitem (local_symbols tc) k v) ;;
  modify (with_local_symbols t).

(** One draw from the outside world. *)
Definition tick : M nat :=
  tc <- get ;; modify (with_ticks (S (ticks tc))) ;; ret (ticks tc).

Definition format_string (msg : value) (args : list value) : result string :=
  match interpolate_symbols msg get_symbol with
  | Raise e => Raise e
  | Ok msg =>
      match args with
      | [] => Ok msg
      | _ =>
          let count := count_placeholders msg in
          let missing := (Z.of_nat (List.length args) - Z.of_nat count)%Z in
          let msg :=
            if (0 <? missing)%Z then msg ++ ": " ++ str_mul "{} " (Z.to_nat missing)
            else msg in
          format msg args
      end
  end.

Definition print_out (msg : value) (args : list value) : M unit :=
  text <- lift (format_string (VStr (str msg)) args) ;;
  append_output (text ++ nl).

Definition expect (condition message : value) (args : list value) : M unit :=
  if negb (truthy condition) then
    record_failure "FAILED EXPECTATION" message args ;;
    print_out (VStr "# FAILED EXPECTATION") (message :: args)
  else ret tt.

Definition fail : M unit :=
  expect (VBool false) (VStr "failure") [].

Definition assert_that (condition message : value) (args : list value) : M unit :=
  if negb (truthy condition) then
    record_failure "FAILED ASSERTION" message args ;;
    line <- lift (str_add "# FAILED ASSERTION: " message) ;;
    print_out (VStr line) args ;;
    raise_new new_TestFailure []
  else ret tt.

Definition abort : M unit :=
  assert_that (VBool false) (VStr "abort called") [].

Definition get_uuid : M string :=
  t <- tick ;; ret (uuid4 t).

Definition yaml_get_uuid (var_name : value)
  : M (option (list value) * option (list (string * value))) :=
  u <- get_uuid ;;
  set_symbol var_name (VStr u) ;;
  ret (None, None).

Definition get_env (env_var : value) : M string :=
  match env_var with
  | VStr name =>
      match environ name with
      | Some v => ret v
      | None => raise (KeyError env_var)
      end
  | _ => raise (TypeError "str expected")
  end.

Definition params_for_set (parts : value) : M (value * value) :=
  let key_name := "name" in
  let key_variable := "variable" in
  n <- lift (len parts) ;;
  (if (n <? 2)%nat
   then log_raise ("need both " ++ dq ++ key_name ++ dq ++ " and " ++ dq ++ key_variable ++ dq)
   else ret tt) ;;
  var_name <- lift (getitem_key parts key_variable) ;;
  env_var <- lift (getitem_key parts key_name) ;;
  ret (var_name, env_var).

Definition yaml_get_env (parts : value)
  : M (option (list value) * option (list (string * value))) :=
  '(var_name, env_var) <- params_for_set parts ;;
  v <- get_env env_var ;;
  set_symbol var_name (VStr v) ;;
  ret (None, None).

Definition extract_match (pattern variable group_variables : value) : M value :=
  (if negb (truthy pattern)
   then raise_new new_ConfigError ["extract_match requires pattern to match"]
   else ret tt) ;;
  (if negb (truthy variable) && negb (truthy group_variables)
   then raise_new new_ConfigError ["extract_match requires variable or groups"]
   else ret tt) ;;
  (if truthy variable && truthy group_variables
   then raise_new new_ConfigError ["extract_match cannot accept both variables and groups"]
   else ret tt) ;;
  set_symbol variable VNone ;;
  (if truthy group_variables then
     names <- lift (iter group_variables) ;;
     for_each (fun variable_name => set_symbol variable_name VNone) names
   else ret tt) ;;
  tc <- get ;;
  let text := last_call_output tc in
  found <- lift (re_search pattern text) ;;
  match found with
  | Some (first :: others) =>
      let captures := first :: others in
      (if truthy variable then set_symbol variable (value_of_capture first) else ret tt) ;;
      (if truthy group_variables then
         names <- lift (iter group_variables) ;;
         for_each
           (fun idx_name =>
              match nth_error captures (fst idx_name) with
              | Some c => set_symbol (snd idx_name) (value_of_capture c)
              | None => ret tt
              end)
           (combine (seq 0 (List.length names)) names)
       else ret tt) ;;
      ret (VTuple [VNone; VNone])
  | _ => ret (VTuple [VNone; VNone])
  end.

Definition yaml_extract_match (parts : value)
  : M (option (list value) * option (list (string * value))) :=
  let key_pattern := "pattern" in
  let key_variable := "variable" in
  let key_groups := "groups" in
  p <- lift (dict_get parts key_pattern) ;;
  v <- lift (dict_get parts key_variable) ;;
  g <- lift (dict_get parts key_groups) ;;
  ret (Some [p; v; g], None).

Definition _call_external (cmd : string) (chdir : option string) : M (Z * string) :=
  modify (with_last_return_code 0) ;;
  modify (with_last_call_output EmptyString) ;;
  '(return_code, out) <-
     (print_out (VStr (nl ++ "# Calling: " ++ cmd)) [] ;;
      t <- tick ;;
      match check_output t cmd chdir with
      | Completed out => ret (0%Z, out)
      | CalledProcessError returncode out =>
          append_output "# ... call did not succeed  " ;;
          ret (returncode, out)
      | ProcessRaised e => raise e
      end) ;;
  new_output <- lift (decode_utf8 out) ;;
  modify (with_last_return_code return_code) ;;
  modify (with_last_call_output new_output) ;;
  set_symbol (VStr "_last_call_output") (VStr new_output) ;;
  append_output new_output ;;
  ret (return_code, new_output).

Definition call_allow_error (args : list value) (kwargs : list (string * value))
  : M (Z * string) :=
  match get_call args kwargs with
  | Raise e =>
      if is_Exception e
      then raise_new new_CallError ["could not resolve call: " ++ exn_str e]
      else raise e
  | Ok (call, chdir) => _call_external call chdir
  end.

Definition call_no_error (args : list value) (kwargs : list (string * value))
  : M string :=
  '(return_code, out) <- call_allow_error args kwargs ;;
  assert_that (VBool (return_code =? 0)%Z)
              (VStr ("call failed: " ++ dq ++ "{}" ++ dq)) [VTuple args] ;;
  ret out.

Definition shell (cmd : value) (args : list value) : M (Z * string) :=
  template <- lift (match cmd with
                    | VStr s => Ok (s ++ str_mul " {}" (List.length args))
                    | _ => Raise (TypeError "unsupported operand type(s) for +")
                    end) ;;
  line <- lift (format_string (VStr template) args) ;;
  _call_external line None.

Definition last_output_contains (substr : value) (kwargs : list (string * value))
  : M bool :=
  tc <- get ;;
  let case_sensitive :=
    match assoc "case_sensitive" kwargs with
    | Some v => v
    | None => VBool false
    end in
  if truthy case_sensitive then
    match substr with
    | VStr s => ret (str_in s (last_call_output tc))
    | _ => raise (TypeError "'in <string>' requires string as left operand")
    end
  else
    match substr with
    | VStr s => ret (str_in (lower s) (lower (last_call_output tc)))
    | _ => raise (AttributeError ("'" ++ type_name substr ++ "' object has no attribute 'lower'"))
    end.

(** The [check] argument of [_check_several]: [self.assert_that] or
    [self.expect]. The [which] argument is an [aggregator]. With these two
    types the guard that raises on any other argument has no case left. *)
Inductive severity := check_assert_that | check_expect.

Definition apply_check (check : severity) : value -> value -> list value -> M unit :=
  match check with
  | check_assert_that => assert_that
  | check_expect => expect
  end.

Definition apply_which (which : aggregator) (l : list bool) : bool :=
  match which with
  | Any => existsb (fun b => b) l
  | All => forallb (fun b => b) l
  end.

Definition _check_several (check : severity) (which : aggregator)
    (condition : value -> M bool) (message : value) (values : list value) : M unit :=
  n <- lift (len message) ;;
  let default_message := (n =? 0)%nat in
  let label_check :=
    match check with check_assert_that => "required" | check_expect => "expected" end in
  let label_which :=
    match which with All => "all of" | Any => "any of" end in
  let message :=
    if default_message
    then VStr (label_check ++ ", but did not find, " ++ label_which ++
               " the following values in the preceding output: " ++ str (VTuple values))
    else message in
  results <- comprehension condition values ;;
  apply_check check (VBool (apply_which which results)) message [].

(** The closure [checker] that [contain_checker(check, which, contains)]
    returns, applied to [*values] and [**kwargs]. *)
Definition contain_checker (check : severity) (which : aggregator) (contains : bool)
    (values : list value) (kwargs : list (string * value)) : M unit :=
  let message :=
    match assoc KEY_CONTAINS_MESSAGE kwargs with
    | Some m => m
    | None => VStr EmptyString
    end in
  let kwargs := remove_key KEY_CONTAINS_MESSAGE kwargs in
  let condition :=
    if contains
    then fun substr => last_output_contains substr kwargs
    else fun substr => b <- last_output_contains substr kwargs ;; ret (negb b) in
  _check_several check which condition message values.

(** [message=[]] is the default of both; [assert_success] assigns its
    fallback text to the misspelt local [mesage] and passes [message] on. *)
Definition assert_success (message : value) (args : list value) : M unit :=
  let mesage := if truthy message then message else VStr "expected last call to succeed" in
  tc <- get ;;
  assert_that (VBool (last_return_code tc =? 0)%Z) message args.

Definition assert_failure (message : value) (args : list value) : M unit :=
  let message := if truthy message then message else VStr "expected last call to fail" in
  tc <- get ;;
  assert_that (VBool (negb (last_return_code tc =? 0)%Z)) message args.

Definition get_variable_or_literal (map : value) : M value :=
  let key_variable := "variable" in
  let key_literal := "literal" in
  n <- lift (len map) ;;
  (if (1 <? n)%nat
   then log_raise ("expected each element to contain only one of " ++ dq ++ key_variable ++
                   dq ++ ", " ++ dq ++ key_literal ++ dq ++ ", but got " ++ str map)
   else ret tt) ;;
  entries <- lift (items map) ;;
  match entries with
  | [] => raise (NameError "local variable 'item' referenced before assignment")
  | (type, item) :: _ =>
      if String.eqb type key_variable then
        tc <- get ;;
        lift (sym_getitem (local_symbols tc) item)
      else if negb (String.eqb type key_literal) then
        raise_new new_ConfigError
          ["expected " ++ dq ++ key_variable ++ dq ++ " or " ++ dq ++ key_literal ++ dq ++
           ", got " ++ dq ++ type ++ dq ++ ":" ++ dq ++ dq ++ str item ++ dq]
      else ret item
  end.

Definition get_yaml_values (list : value) : M (Datatypes.list value) :=
  maps <- lift (iter list) ;;
  comprehension get_variable_or_literal maps.

Definition string_and_params (name_label : string) (parts : value) (strict : bool)
  : M (list value * value) :=
  head <- lift (first_item parts) ;;
  present <- lift (contains_key name_label head) ;;
  '(name_value, start) <-
     (if present then
        name_value <- lift (getitem_key head name_label) ;;
        ret (name_value, 1%nat)
      else
        (if strict
         then log_raise ("expected field " ++ dq ++ name_label ++ dq)
         else ret tt) ;;
        ret (VStr EmptyString, 0%nat)) ;;
  rest <- lift (slice_from parts start) ;;
  params <- get_yaml_values rest ;;
  ret (params, name_value).

Definition params_for_contains (parts : value)
  : M (option (list value) * option (list (string * value))) :=
  '(params, message) <- string_and_params KEY_CONTAINS_MESSAGE parts false ;;
  ret (Some params,
       Some [("case_sensitive", VBool false); (KEY_CONTAINS_MESSAGE, message)]).

Definition lookup_values (strings : value) : M (list value) :=
  ps <- lift (iter strings) ;;
  comprehension
    (fun p => tc <- get ;;
              lift (sym_get (local_symbols tc) p (VStr (dq ++ str p ++ dq))))
    ps.

Definition yaml_args_string (parts : value)
  : M (option (list value) * option (list (string * value))) :=
  match parts with
  | VNone => ret (Some [], Some [])
  | _ =>
      n <- lift (len parts) ;;
      if (n =? 0)%nat then ret (Some [], Some [])
      else
        head <- lift (first_item parts) ;;
        rest <- lift (slice_from parts 1) ;;
        values <- lookup_values rest ;;
        ret (Some (head :: values), Some [])
  end.

(** A loop that carries the variables it assigns. *)
Fixpoint fold_m {A B} (f : A -> B -> M A) (a : A) (l : list B) : M A :=
  match l with
  | [] => ret a
  | x :: r => a' <- f a x ;; fold_m f a' r
  end.

Fixpoint setting (k : string) (d : list (string * string)) : option string :=
  match d with
  | [] => None
  | (k', v) :: r => if String.eqb k k' then Some v else setting k r
  end.

(** [val] and [cmd] are the same object when [key == key_cmd], so the
    comparison [val != cmd] of the loop has no case. *)
Definition params_for_call (parts : value)
  : M (option (list value) * option (list (string * value))) :=
  let key_cmd :=
    match setting "call.target" get_testcase_settings with
    | Some k => k
    | None => "target"
    end in
  let key_params := "params" in
  let key_args := "args" in
  n <- lift (len parts) ;;
  absent <- (if (n <? 1)%nat then ret true
             else present <- lift (contains_key key_cmd parts) ;; ret (negb present)) ;;
  (if absent
   then log_raise ("when calling artifacts, the first parameter must be " ++ dq ++
                   "- " ++ key_cmd ++ ": TARGET" ++ dq)
   else ret tt) ;;
  cmd <- lift (getitem_key parts key_cmd) ;;
  if (n =? 1)%nat then ret (Some [cmd], Some [])
  else
    entries <- lift (items parts) ;;
    '(args, params) <-
       fold_m
         (fun (acc : list value * list (string * value)) (key_val : string * value) =>
            let '(args, params) := acc in
            let '(key, val) := key_val in
            if String.eqb key key_cmd then ret (args, params)
            else if String.eqb key key_params then
              named <- lift (items val) ;;
              params <- fold_m
                          (fun (params : list (string * value))
                               (name_value : string * value) =>
                             v <- get_variable_or_literal (snd name_value) ;;
                             ret (assoc_set (fst name_value) v params))
                          params named ;;
              ret (args, params)
            else if String.eqb key key_args then
              vals <- lift (iter val) ;;
              args <- fold_m
                        (fun (args : list Py.value) (value : Py.value) =>
                           v <- get_variable_or_literal value ;;
                           ret (args ++ [v])%list)
                        args vals ;;
              ret (args, params)
            else
              log_raise ("unknown argument to function call " ++ dq ++ "- " ++ key ++ dq))
         ([], []) entries ;;
    ret (Some (cmd :: args), Some params).

(** *** Calling a bound method with [*args] and [**kwargs]

    The binding of the arguments follows the signature of each method. A
    keyword argument given to a method without [**kwargs] is [Unmodelled]. *)

Definition no_kwargs {A} (kwargs : list (string * value)) (m : M A) : M A :=
  match kwargs with
  | [] => m
  | _ => raise (Unmodelled "keyword argument")
  end.

Definition arity {A} : M A := raise (TypeError "wrong number of positional arguments").

Definition pair_value (p : Z * string) : value := VTuple [VInt (fst p); VStr (snd p)].

Definition call_function (execute : value -> M unit) (f : function)
    (args : list value) (kwargs : list (string * value)) : M value :=
  match f with
  | F_call_no_error => out <- call_no_error args kwargs ;; ret (VStr out)
  | F_call_allow_error => r <- call_allow_error args kwargs ;; ret (pair_value r)
  | F_shell =>
      no_kwargs kwargs
        match args with
        | cmd :: rest => r <- shell cmd rest ;; ret (pair_value r)
        | [] => arity
        end
  | F_get_uuid =>
      no_kwargs kwargs
        match args with
        | [] => u <- get_uuid ;; ret (VStr u)
        | _ => arity
        end
  | F_get_env =>
      no_kwargs kwargs
        match args with
        | [env_var] => v <- get_env env_var ;; ret (VStr v)
        | _ => arity
        end
  | F_print_out =>
      no_kwargs kwargs
        match args with
        | msg :: rest => print_out msg rest ;; ret VNone
        | [] => arity
        end
  | F_extract_match =>
      no_kwargs kwargs
        match args with
        | [pattern] => extract_match pattern VNone VNone
        | [pattern; variable] => extract_match pattern variable VNone
        | [pattern; variable; group_variables] =>
            extract_match pattern variable group_variables
        | _ => arity
        end
  | F_execute =>
      no_kwargs kwargs
        match args with
        | [code] => execute code ;; ret VNone
        | _ => arity
        end
  | F_fail =>
      no_kwargs kwargs
        match args with
        | [] => fail ;; ret VNone
        | _ => arity
        end
  | F_expect =>
      no_kwargs kwargs
        match args with
        | condition :: message :: rest => expect condition message rest ;; ret VNone
        | _ => arity
        end
  | F_abort =>
      no_kwargs kwargs
        match args with
        | [] => abort ;; ret VNone
        | _ => arity
        end
  | F_assert_that =>
      no_kwargs kwargs
        match args with
        | condition :: message :: rest => assert_that condition message rest ;; ret VNone
        | _ => arity
        end
  | F_checker which contains =>
      contain_checker check_assert_that which contains args kwargs ;; ret VNone
  | F_assert_success =>
      no_kwargs kwargs
        match args with
        | [] => assert_success (VList []) [] ;; ret VNone
        | message :: rest => assert_success message rest ;; ret VNone
        end
  | F_assert_failure =>
      no_kwargs kwargs
        match args with
        | [] => assert_failure (VList []) [] ;; ret VNone
        | message :: rest => assert_failure message rest ;; ret VNone
        end
  end.

(** *** [exec(code, None, self.local_symbols)]

    The name of a call statement is looked up in the symbol table, and a
    name that is not bound there is a [NameError]; code that uses the
    globals of the module is an [SPython] statement. *)

Definition exec_stmt (call : function -> list value -> list (string * value) -> M value)
    (s : stmt) : M unit :=
  match s with
  | SCall target f args kwargs =>
      tc <- get ;;
      match sym_lookup (VStr f) (local_symbols tc) with
      | None => raise (NameError ("name '" ++ f ++ "' is not defined"))
      | Some (VFun fn) =>
          r <- call fn args kwargs ;;
          match target with
          | Some x => set_symbol (VStr x) r
          | None => ret tt
          end
      | Some v => raise (TypeError ("'" ++ type_name v ++ "' object is not callable"))
      end
  | SAssign x v => set_symbol (VStr x) v
  | SRaise e => raise e
  | SPython body => body call
  end.

(** [execute(code)]. [depth] is what is left of the recursion limit of the
    interpreter: embedded code may call [code] again. *)
Fixpoint execute (depth : nat) (code : value) : M unit :=
  match depth with
  | O => raise RecursionError
  | S d =>
      match code with
      | VStr source =>
          program <- lift (compile_code source) ;;
          for_each (exec_stmt (call_function (execute d))) program
      | _ => raise (TypeError "exec() arg 1 must be a string, bytes or code object")
      end
  end.

Definition call_value (v : value) (args : list value) (kwargs : list (string * value))
  : M value :=
  match v with
  | VFun f => call_function (execute recursion_limit) f args kwargs
  | _ => raise (TypeError ("'" ++ type_name v ++ "' object is not callable"))
  end.

Definition apply_adapter (a : adapter) (segment : value)
  : M (option (list value) * option (list (string * value))) :=
  match a with
  | A_params_for_call => params_for_call segment
  | A_yaml_args_string => yaml_args_string segment
  | A_yaml_get_uuid => yaml_get_uuid segment
  | A_yaml_get_env => yaml_get_env segment
  | A_yaml_extract_match => yaml_extract_match segment
  | A_code => ret (Some [segment], Some [])
  | A_params_for_contains => params_for_contains segment
  end.

Definition run_segment (spec_segment : segment) : M unit :=
  (if (1 <? List.length spec_segment)%nat
   then raise_new new_ConfigError []
   else ret tt) ;;
  match spec_segment with
  | [] => ret tt
  | (directive, segment) :: _ =>
      tc <- get ;;
      match lookup_builtin directive (builtins (idx tc) (label tc)) with
      | None => raise_new new_ConfigError ["unknown YAML directive: " ++ directive]
      | Some howto =>
          match snd howto with
          | None =>
              raise_new new_ConfigError
                ["directive only available inside a code directive: " ++ directive]
          | Some prep =>
              '(args, kwargs) <- apply_adapter prep segment ;;
              match args, kwargs with
              | None, None => ret tt
              | _, _ =>
                  let args := match args with Some a => a | None => [] end in
                  let kwargs := match kwargs with Some k => k | None => [] end in
                  call_value (fst howto) args kwargs ;; ret tt
              end
          end
      end
  end.

(** *** [run] *)

(** [run_segments_of], the local function of [run]. *)
Definition run_segments_of (stage_spec : list segment) : M unit :=
  for_each run_segment stage_spec.

(** The [except] clauses after SETUP and TEST, for an exception raised
    while [stage_name] is the stage of the loop. *)
Definition stage_except (stage_name : string) (e : exn) : M unit :=
  match e with
  | TestFailure => ret tt
  | CallError msg =>
      let status := "CALL ERROR in stage " ++ stage_name ++ " " in
      record_error status (VStr msg) [] ;;
      print_out (VStr (status ++ ": " ++ msg)) []
  | KeyboardInterrupt =>
      let status := "KEYBOARD INTERRUPT in stage " ++ stage_name ++ " " in
      record_error status (VStr "keyboard interrupt detected") [] ;;
      print_out (VStr status) [] ;;
      raise KeyboardInterrupt
  | _ =>
      let status := "UNHANDLED EXCEPTION in stage " ++ stage_name ++ " " in
      let short_description := exn_repr e in
      let description := short_description ++ nl ++ format_tb e in
      record_error status (VStr description) [] ;;
      print_out (VStr ("# EXCEPTION!! " ++ short_description)) []
  end.

(** The body of the loop over SETUP and TEST. *)
Definition run_stage (stage_name : string) (stage_spec : list segment) : M unit :=
  print_out (VStr (nl ++ "### Test case " ++ stage_name)) [] ;;
  run_segments_of stage_spec.

(** The [try] statement around the loop over SETUP and TEST, with its
    [except] clauses: an exception leaves the loop. *)
Fixpoint run_stages (stages : list (string * list segment)) : M unit :=
  match stages with
  | [] => ret tt
  | (stage_name, stage_spec) :: rest =>
      fun tc =>
        match run_stage stage_name stage_spec tc with
        | (Ok _, tc') => run_stages rest tc'
        | (Raise e, tc') => stage_except stage_name e tc'
        end
  end.

(** The [except] clauses of the [try] inside [finally]. *)
Definition teardown_except (e : exn) : M unit :=
  match e with
  | TestFailure =>
      let status := "unexpected TEST FAILURE in stage TEARDOWN" in
      record_error status (VStr "test failure in stage TEARDOWN") [] ;;
      print_out (VStr status) []
  | CallError msg =>
      let status := "CALL ERROR in stage TEARDOWN " in
      record_error status (VStr msg) [] ;;
      print_out (VStr (status ++ ": " ++ msg)) []
  | KeyboardInterrupt =>
      let status := "KEYBOARD INTERRUPT in stage TEARDOWN" in
      record_error status (VStr "keyboard interrupt detected") [] ;;
      print_out (VStr status) [] ;;
      raise KeyboardInterrupt
  | _ =>
      let status := "UNHANDLED EXCEPTION in stage TEARDOWN" in
      let short_description := exn_repr e in
      let description := short_description ++ nl ++ format_tb e in
      record_error status (VStr description) [] ;;
      print_out (VStr ("# EXCEPTION!! " ++ short_description)) []
  end.

(** The body of [finally]. *)
Definition run_teardown : M unit :=
  fun tc =>
    match run_stage "TEARDOWN" (teardown tc) tc with
    | (Ok _, tc') => (Ok tt, tc')
    | (Raise e, tc') => teardown_except e tc'
    end.

(** [try: body finally: final]: [final] runs whatever [body] did; an
    exception of [final] replaces the one of [body]. *)
Definition try_finally {A} (body : M A) (final : M unit) : M A :=
  fun tc =>
    let '(r, tc') := body tc in
    match final tc' with
    | (Ok _, tc'') => (r, tc'')
    | (Raise e, tc'') => (Raise e, tc'')
    end.

Definition get_output (tc : TestCase) (indent : nat) (header : string) : string :=
  reindent (output tc) indent header.

(** The two loops of the summary; each returns [print_output]. *)
Fixpoint log_failures (l : list entry) (print_output : bool) : M bool :=
  match l with
  | [] => ret print_output
  | failure :: rest =>
      text <- lift (format_string (snd (fst failure)) (snd failure)) ;;
      logging_info ("    " ++ fst (fst failure) ++ ": " ++ text) ;;
      log_failures rest true
  end.

Fixpoint log_errors (l : list entry) (print_output : bool) : M bool :=
  match l with
  | [] => ret print_output
  | error :: rest =>
      text <- lift (format_string (snd (fst error)) (snd error)) ;;
      logging_info ("    " ++ fst (fst error) ++
                    ": (check state: clean-up did not finish) " ++ text) ;;
      log_errors rest true
  end.

Definition log_entry_prefix (tc : TestCase) : string :=
  "---- Test case " ++ str_of_Z (idx tc) ++ ": " ++ dq ++ label tc ++ dq.

(** The part of [run] after the [try] statement. *)
Definition summary : M nat :=
  tc <- get ;;
  let print_output := true in
  print_output <-
    (if (0 <? List.length (failures tc))%nat then
       logging_info (log_entry_prefix tc ++ " FAILED --------------------") ;;
       log_failures (failures tc) print_output
     else if (0 <? List.length (errors tc))%nat then
       logging_info (log_entry_prefix tc ++ " ERRORED --------------------") ;;
       log_errors (errors tc) print_output
     else
       logging_info (log_entry_prefix tc ++ " PASSED ------------------------------") ;;
       ret print_output) ;;
  (if print_output : bool then
     logging_info "    Output:" ;;
     tc <- get ;;
     logging_info (get_output tc 4 "| " ++ nl)
   else ret tt) ;;
  tc <- get ;;
  ret (List.length (failures tc) + List.length (errors tc))%nat.

(** The [try] statement of [run]: SETUP and TEST with their [except]
    clauses, and TEARDOWN in [finally]. *)
Definition run_try : M unit :=
  tc <- get ;;
  try_finally (run_stages [("SETUP", setup tc); ("TEST", case tc)]) run_teardown.

Definition run : M nat :=
  run_try ;;
  summary.

(** *** The accessors of the records *)

(** [message.format( *args )] *)
Definition format_message (message : value) (args : list value) : result string :=
  match message with
  | VStr s => format s args
  | _ => Raise (AttributeError ("'" ++ type_name message ++
                                "' object has no attribute 'format'"))
  end.

(** [[(status, message.format( *args )) for status, message, args in l]] *)
Fixpoint formatted_entries (l : list entry) : result (list (string * string)) :=
  match l with
  | [] => Ok []
  | (status, message, args) :: rest =>
      match format_message message args with
      | Raise e => Raise e
      | Ok text =>
          match formatted_entries rest with
          | Raise e => Raise e
          | Ok texts => Ok ((status, text) :: texts)
          end
      end
  end.

Definition get_failures (tc : TestCase) : result (list (string * string)) :=
  formatted_entries (failures tc).

Definition get_errors (tc : TestCase) : result (list (string * string)) :=
  formatted_entries (errors tc).

End CaseRunner.

(** ** A concrete environment and platform, for examples *)

Module Demo.

(** The target [hello] resolves to the command [echo hello]; any other
    target cannot be resolved. The symbol [name] is [world]. *)
#[export] Instance environment : Environment := {|
  get_call := fun args _ =>
    match args with
    | VStr "hello" :: _ => Ok ("echo hello", None)
    | _ => Raise (OtherException "Exception" "no such target")
    end;
  get_symbol := fun s =>
    if String.eqb s "name" then Ok "world" else Raise (KeyError (VStr s));
  get_testcase_settings := []
|}.

(** A [try] statement of embedded code: it calls what the name
    [assert_that] is bound to and swallows what the call raises, a keyboard
    interrupt apart, as [except Exception] does. *)
Definition swallowed_source : string :=
  "try:" ++ nl ++ "  assert_that(False, 'boom')" ++ nl ++
  "except Exception:" ++ nl ++ "  pass".

Definition swallowed_assertion
    (call : function -> list value -> list (string * value) -> M value) : M unit :=
  fun tc =>
    match sym_lookup (VStr "assert_that") (local_symbols tc) with
    | Some (VFun fn) =>
        match call fn [VBool false; VStr "boom"] [] tc with
        | (Raise KeyboardInterrupt, tc') => (Raise KeyboardInterrupt, tc')
        | (_, tc') => (Ok tt, tc')
        end
    | _ => (Ok tt, tc)
    end.

(** [echo hello] prints a line; [false] exits with status 1; [echo count]
    prints "count: 42"; [sleep] is interrupted from the keyboard; any other
    command prints nothing. The sources that the compiler knows are listed
    with the programs they stand for. *)
#[export] Instance platform : Platform := {|
  check_output := fun _ cmd _ =>
    if String.eqb cmd "echo hello" then Completed ("hello" ++ nl)
    else if String.eqb cmd "echo count" then Completed "count: 42"
    else if String.eqb cmd "false" then CalledProcessError 1 EmptyString
    else if String.eqb cmd "sleep" then ProcessRaised KeyboardInterrupt
    else Completed EmptyString;
  decode_utf8 := fun s => Ok s;
  re_search := fun pattern text =>
    match pattern with
    | VStr "(\d+)" =>
        if String.eqb text "count: 42" then Ok (Some [Some "42"]) else Ok None
    | _ => Ok None
    end;
  uuid4 := fun n => "00000000-0000-4000-8000-00000000000" ++ str_of_Z (Z.of_nat (n mod 10));
  environ := fun name => if String.eqb name "HOME" then Some "/root" else None;
  format_tb := fun _ => EmptyString;
  compile_code := fun source =>
    if String.eqb source "assert_that(False, 'boom')"
    then Ok [SCall None "assert_that" [VBool false; VStr "boom"] []]
    else if String.eqb source "expect(False, '}', 1)"
    then Ok [SCall None "expect" [VBool false; VStr "}"; VInt 1] []]
    else if String.eqb source "raise KeyboardInterrupt"
    then Ok [SRaise KeyboardInterrupt]
    else if String.eqb source "x = 1"
    then Ok [SAssign "x" (VInt 1)]
    else if String.eqb source "assert_that(False, '}', 1)"
    then Ok [SCall None "assert_that" [VBool false; VStr "}"; VInt 1] []]
    else if String.eqb source swallowed_source
    then Ok [SPython swallowed_assertion]
    else Raise (OtherException "SyntaxError" "invalid syntax");
  recursion_limit := 1000
|}.

(** The cases of the examples. *)

(** TEST fails an assertion before a second directive; TEARDOWN logs. *)
Definition assertion_case : TestCase :=
  init 2 "assertion"
    []
    [[("code", VStr "assert_that(False, 'boom')")]; [("log", VList [VStr "never"])]]
    [[("log", VList [VStr "cleanup"])]].


(** SETUP is interrupted from the keyboard; TEST and TEARDOWN log. *)
Definition interrupted_case : TestCase :=
  init 4 "interrupt"
    [[("shell", VList [VStr "sleep"])]]
    [[("log", VList [VStr "test"])]]
    [[("log", VList [VStr "cleanup"])]].

(** TEST records an expectation failure whose message is a lone closing
    brace, with one argument. *)
Definition brace_case : TestCase :=
  init 6 "brace"
    []
    [[("code", VStr "expect(False, '}', 1)")]]
    [].

(** TEST prints "count: 42". *)
Definition count_case : TestCase :=
  init 7 "count" [] [[("shell", VList [VStr "echo count"])]] [].

(** An entry with two directives. *)
Definition two_directives : segment :=
  [("log", VList [VStr "a"]); ("shell", VList [VStr "b"])].

(** SETUP checks the last output for the value of a variable that is not
    bound. *)
Definition unbound_case : TestCase :=
  init 8 "unbound"
    [[("assert_contains", VList [VDict [("variable", VStr "zz")]])]] [] [].

(** The instance after a call of the target [hello]. *)
Definition after_hello : TestCase :=
  snd (call_allow_error [VStr "hello"] [] (init 5 "calls" [] [] [])).

(** The instance after the stages of [count_case], before the summary. *)
Definition after_count : TestCase := snd (run_try count_case).

(** TEARDOWN fails an assertion. *)
Definition teardown_assertion_case : TestCase :=
  init 9 "assertion in teardown"
    [] [] [[("code", VStr "assert_that(False, 'boom')")]].

(** TEARDOWN is interrupted from the keyboard. *)
Definition teardown_interrupted_case : TestCase :=
  init 10 "interrupt in teardown" [] [] [[("shell", VList [VStr "sleep"])]].

(** SETUP calls a target that cannot be resolved. *)
Definition unresolved_case : TestCase :=
  init 11 "unresolved" [[("call", VDict [("target", VStr "nope")])]] [] [].

(** The instance after the command [false], run after [hello]. *)
Definition after_false : TestCase :=
  snd (_call_external "false" None after_hello).

(** The instance after an expectation with one argument has failed. *)
Definition after_expectation : TestCase :=
  snd (expect (VBool false) (VStr "value was") [VInt 3] after_hello).


(** TEST prints "count: 42" and then checks the output for a literal and
    for the value of a variable that is not bound. *)
Definition late_unbound_case : TestCase :=
  init 13 "unbound, later"
    []
    [[("shell", VList [VStr "echo count"])];
     [("assert_contains",
       VList [VDict [("literal", VStr "count")]; VDict [("variable", VStr "zz")]])];
     [("log", VList [VStr "never"])]]
    [].

(** The instance in which the second directive of [late_unbound_case] is
    reached. *)
Definition before_unbound : TestCase :=
  snd (run_stage "TEST" [[("shell", VList [VStr "echo count"])]]
         (snd (run_stage "SETUP" [] late_unbound_case))).

(** A platform whose compiler knows one more source: through the bound
    method [assert_that] of the symbol table the statement reaches the
    instance and empties its list of failures. *)
Definition forgetful_platform : Platform := {|
  check_output := check_output;
  decode_utf8 := decode_utf8;
  re_search := re_search;
  uuid4 := uuid4;
  environ := environ;
  format_tb := format_tb;
  compile_code := fun source =>
    if String.eqb source "assert_that.__self__.failures.clear()"
    then Ok [SPython (fun _ => modify (with_failures []))]
    else compile_code source;
  recursion_limit := recursion_limit
|}.

(** TEST fails an assertion; TEARDOWN empties the list of failures. *)
Definition forgetful_case : TestCase :=
  init 14 "forgetful"
    []
    [[("code", VStr "assert_that(False, 'boom')")]]
    [[("code", VStr "assert_that.__self__.failures.clear()")]].

(** TEST swallows a failed assertion and goes on. *)
Definition swallowed_case : TestCase :=
  init 16 "swallowed assertion"
    []
    [[("code", VStr swallowed_source)]; [("log", VList [VStr "after"])]]
    [].

(** SETUP calls without a target; TEARDOWN is interrupted from the
    keyboard. *)
Definition critical_interrupted_case : TestCase :=
  init 15 "critical, then interrupt"
    [[("call", VDict [("params", VDict [])])]]
    []
    [[("shell", VList [VStr "sleep"])]].

End Demo.

(** ** The vocabulary of the properties *)

Section Vocabulary.

Context {environment : Environment} {platform : Platform}.

(** The directives that check the last output for values. *)
Definition containment_directives : list string :=
  ["assert_contains_any"; "assert_excludes"; "assert_not_contains";
   "assert_contains"; "assert_excludes_any"].

(** The value of key [k] in an argument block, [None] when it is absent. *)
Definition block_get (k : string) (d : list (string * value)) : value :=
  match assoc k d with
  | Some v => v
  | None => VNone
  end.

(** The keyword arguments of a containment check that leave the comparison
    at its default: none (a call from embedded code), or those that
    [params_for_contains] builds from a stage entry. *)
Definition default_kwargs (kwargs : list (string * value)) : Prop :=
  kwargs = [] \/
  exists message : string,
    kwargs = [("case_sensitive", VBool false); (KEY_CONTAINS_MESSAGE, VStr message)].

(** [l] is the small letter of the capital letter [u]: [u] is one of A to
    Z, or a capital letter of Latin-1 (code points 192 to 222, the
    multiplication sign 215 apart), and [l] is 32 code points above it. *)
Definition small_of (u l : ascii) : Prop :=
  ((65 <= nat_of_ascii u <= 90) \/
   (192 <= nat_of_ascii u <= 222 /\ nat_of_ascii u <> 215)) /\
  nat_of_ascii l = nat_of_ascii u + 32.

(** Two characters are the same letter: they are equal, or one is the
    small letter of the other. *)
Definition same_letter (c d : ascii) : Prop :=
  c = d \/ small_of c d \/ small_of d c.

(** Two texts that differ in the case of their letters only. *)
Inductive same_text : string -> string -> Prop :=
| same_text_nil : same_text EmptyString EmptyString
| same_text_cons (c d : ascii) (s t : string) :
    same_letter c d -> same_text s t -> same_text (String c s) (String d t).

(** [v] occurs in [out] when case is ignored: a part of [out] is [v] but
    for the case of its letters. *)
Definition occurs (v out : string) : Prop :=
  exists pre mid post, out = pre ++ mid ++ post /\ same_text mid v.

(** [m] leaves at least as many recorded failures as it finds. *)
Definition keeps_failures {A} (m : M A) : Prop :=
  forall tc, List.length (failures tc) <= List.length (failures (snd (m tc))).

(** A statement of embedded code that removes no recorded failure, as long
    as the functions it calls remove none. The three plain statements call
    a function of the table, bind a name or raise; a statement of any other
    Python is under this condition, which its author must meet. *)
Definition stmt_keeps_failures (s : stmt) : Prop :=
  match s with
  | SPython body =>
      forall call : function -> list value -> list (string * value) -> M value,
        (forall f args kwargs, keeps_failures (call f args kwargs)) ->
        keeps_failures (body call)
  | _ => True
  end.

(** No embedded code of the platform removes a recorded failure. *)
Definition code_keeps_failures : Prop :=
  forall source program,
    compile_code source = Ok program -> Forall stmt_keeps_failures program.

(** The recorded message of [e] can be formatted for the summary. *)
Definition formats (e : entry) : Prop :=
  exists text, format_string (snd (fst e)) (snd e) = Ok text.

(** The entries that the summary formats: the failures if there are any,
    else the errors. *)
Definition reported (tc : TestCase) : list entry :=
  match failures tc with
  | [] => errors tc
  | _ => failures tc
  end.

(** The two lines that end the summary: the transcript of [tc], indented. *)
Definition transcript_lines (tc : TestCase) : list (level * string) :=
  [(INFO, "    Output:"); (INFO, get_output tc 4 "| " ++ nl)].

(** The line that opens the summary. *)
Definition verdict (tc : TestCase) : string :=
  match failures tc, errors tc with
  | _ :: _, _ => " FAILED --------------------"
  | [], _ :: _ => " ERRORED --------------------"
  | [], [] => " PASSED ------------------------------"
  end.

(** The stage [stage_name] of [tc] raises [e], leaving [tc1]: SETUP does,
    or SETUP completes and TEST does. *)
Definition raised_in_stage (e : exn) (stage_name : string) (tc tc1 : TestCase) : Prop :=
  (stage_name = "SETUP" /\ run_stage "SETUP" (setup tc) tc = (Raise e, tc1)) \/
  (stage_name = "TEST" /\
   exists tc0,
     run_stage "SETUP" (setup tc) tc = (Ok tt, tc0) /\
     run_stage "TEST" (case tc) tc0 = (Raise e, tc1)).

(** The directive [seg] of the stage [stage_name] of [tc] is reached in
    [tc1], the directives before it having completed, and raises [e],
    leaving [tc2]. *)
Definition directive_raises (e : exn) (stage_name : string) (seg : segment)
    (tc tc1 tc2 : TestCase) : Prop :=
  exists pre rest,
    ((stage_name = "SETUP" /\ setup tc = (pre ++ seg :: rest)%list /\
      run_stage "SETUP" pre tc = (Ok tt, tc1)) \/
     (stage_name = "TEST" /\ case tc = (pre ++ seg :: rest)%list /\
      exists tc0,
        run_stage "SETUP" (setup tc) tc = (Ok tt, tc0) /\
        run_stage "TEST" pre tc0 = (Ok tt, tc1))) /\
    run_segment seg tc1 = (Raise e, tc2).

(** The instance after the [except KeyboardInterrupt] clause of SETUP and
    TEST: the error is recorded and the status is in the transcript. *)
Definition interrupt_recorded (stage_name : string) (tc1 : TestCase) : TestCase :=
  let status := "KEYBOARD INTERRUPT in stage " ++ stage_name ++ " " in
  with_output (output tc1 ++ status ++ nl)
    (with_errors
       (List.app (errors tc1) [(status, VStr "keyboard interrupt detected", [])]) tc1).

(** The instance after SETUP, after the header of TEST, and after TEST. *)
Definition after_setup (tc : TestCase) : TestCase :=
  snd (run_stage "SETUP" (setup tc) tc).



(** *** The vocabulary of the further properties *)

(** [s] has no brace. *)
Definition braceless (s : string) : Prop :=
  mem_char lbrace s = false /\ mem_char rbrace s = false.

(** The arguments as the padding [{} {} ...] prints them: each followed by
    a blank. *)
Fixpoint spaced (args : list value) : string :=
  match args with
  | [] => EmptyString
  | v :: rest => str v ++ " " ++ spaced rest
  end.

(** The numbering state before the placeholder of index [n], never after a
    field with an explicit index. *)
Definition automatic (num : numbering) (n : nat) : Prop :=
  num = NumAuto n \/ (num = NumUnset /\ n = 0).

(** The names of the dispatch table that have no argument adapter. *)
Definition code_only : list string :=
  ["testcase_num"; "testcase_id"; "_last_call_output";
   "fail"; "expect"; "abort"; "assert_that"].

(** [tc'] has what [tc] has, and possibly more at the end. *)
Definition extends (tc tc' : TestCase) : Prop :=
  (exists more, failures tc' = List.app (failures tc) more) /\
  (exists more, errors tc' = List.app (errors tc) more) /\
  (exists more, output tc' = output tc ++ more) /\
  (exists more, logging tc' = List.app (logging tc) more) /\
  idx tc' = idx tc /\ label tc' = label tc /\
  setup tc' = setup tc /\ case tc' = case tc /\ teardown tc' = teardown tc /\
  ticks tc <= ticks tc'.

Definition append_only {A} (m : M A) : Prop :=
  forall tc, extends tc (snd (m tc)).

(** A statement of embedded code that only extends the instance, as long
    as the functions it calls do. *)
Definition stmt_append_only (s : stmt) : Prop :=
  match s with
  | SPython body =>
      forall call : function -> list value -> list (string * value) -> M value,
        (forall f args kwargs, append_only (call f args kwargs)) ->
        append_only (body call)
  | _ => True
  end.

(** The embedded code of the platform changes the records, the number, the
    label and the stages of the instance through the functions of the
    symbol table only. *)
Definition code_append_only : Prop :=
  forall source program,
    compile_code source = Ok program -> Forall stmt_append_only program.

Definition newline : ascii := ascii_of_nat 10.

(** The entries [- literal: v] and [- variable: name] of an argument
    block. *)
Definition literal (v : value) : value := VDict [("literal", v)].

Definition reference (name : value) : value := VDict [("variable", name)].

(** The entry [en] of an argument block resolves to [v] in [tc]: it is a
    literal, or a variable that is bound. *)
Inductive resolved (tc : TestCase) : value -> value -> Prop :=
| resolved_literal (v : value) : resolved tc (literal v) v
| resolved_variable (x v : value) :
    hashable x = true ->
    sym_lookup x (local_symbols tc) = Some v ->
    resolved tc (reference x) v.

(** The text that a containment check records and prints when it is given
    no message. *)
Definition default_message (which : aggregator) (values : list value) : string :=
  "required, but did not find, " ++
  match which with All => "all of" | Any => "any of" end ++
  " the following values in the preceding output: " ++ str (VTuple values).

(** What a containment check requires of its values, of which [present]
    are in the last output: all or one of them must be, or must not be. *)
Definition requirement (present : string -> Prop) (which : aggregator)
    (contains : bool) (values : list string) : Prop :=
  let condition := fun v => if contains then present v else ~ present v in
  match which with
  | All => Forall condition values
  | Any => Exists condition values
  end.

(** The requirement on the last output [out] when case is ignored. *)
Definition meets (which : aggregator) (contains : bool) (values : list string)
    (out : string) : Prop :=
  requirement (fun v => occurs v out) which contains values.

(** The arguments as a command line has them: each after a blank. *)
Fixpoint blanked (args : list value) : string :=
  match args with
  | [] => EmptyString
  | v :: rest => " " ++ str v ++ blanked rest
  end.

(** What [lookup_values] makes of a name: its value in the symbol table,
    or the name in double quotes when it is not bound. *)
Definition value_or_quoted (t : symbols) (name : string) : value :=
  match sym_lookup (VStr name) t with
  | Some v => v
  | None => VStr (dq ++ name ++ dq)
  end.

(** The key of the target in the argument block of a call: the setting
    [call.target] of the environment, by default [target]. *)
Definition key_cmd : string :=
  match setting "call.target" get_testcase_settings with
  | Some k => k
  | None => "target"
  end.

(** The entry [kv] of the argument block of a call is gone through without
    an exception in [tc]: it is the target, or the parameters, or the
    arguments, each of them a literal or a variable that is bound. *)
Definition call_entry_resolved (tc : TestCase) (kv : string * value) : Prop :=
  fst kv = key_cmd \/
  (fst kv = "params" /\
   exists named,
     snd kv = VDict named /\
     Forall (fun p : string * value => exists v, resolved tc (snd p) v) named) \/
  (fst kv = "args" /\
   exists vals,
     snd kv = VList vals /\ Forall (fun en => exists v, resolved tc en v) vals).

(** The entry [kv] of the argument block of a call has a reference to
    [name] among its parameters or its arguments, after literals and
    variables that are bound. *)
Definition call_entry_refers (tc : TestCase) (name : value) (kv : string * value)
  : Prop :=
  fst kv <> key_cmd /\
  ((fst kv = "params" /\
    exists earlier pname more,
      snd kv = VDict (List.app earlier ((pname, reference name) :: more)) /\
      Forall (fun p : string * value => exists v, resolved tc (snd p) v) earlier) \/
   (fst kv = "args" /\
    exists earlier more,
      snd kv = VList (List.app earlier (reference name :: more)) /\
      Forall (fun en => exists v, resolved tc en v) earlier)).

(** An entry with the message [snd (fst e)] and the arguments [snd e]. *)
Definition entry_of (e : string * string * list value) : entry :=
  (fst (fst e), VStr (snd (fst e)), snd e).

(** The first loop of [extract_match] on the symbol table. *)
Fixpoint clear_all (names : list string) (t : symbols) : symbols :=
  match names with
  | [] => t
  | n :: rest => clear_all rest (sym_update (VStr n) VNone t)
  end.

(** The second loop: the name of index [i] gets the capture of index [i],
    if there is one. *)
Fixpoint bind_from (captures : list (option string)) (i : nat) (names : list string)
    (t : symbols) : symbols :=
  match names with
  | [] => t
  | n :: rest =>
      bind_from captures (S i) rest
        match nth_error captures i with
        | Some c => sym_update (VStr n) (value_of_capture c) t
        | None => t
        end
  end.

(** The captures of a search: none when nothing was found. *)
Definition captures_of (found : option (list (option string))) : list (option string) :=
  match found with
  | Some captures => captures
  | None => []
  end.

(** [v] is a part of [out], case compared. *)
Definition part_of (v out : string) : Prop :=
  exists pre post, out = pre ++ v ++ post.

End Vocabulary.

(** * Properties *)

(** ** Strings *)

Lemma append_nil_r (s : string) : s ++ EmptyString = s.
Proof. induction s; simpl; congruence. Qed.

Lemma append_assoc (a b c : string) : (a ++ b) ++ c = a ++ b ++ c.
Proof. induction a; simpl; congruence. Qed.

Lemma starts_with_spec (p s : string) :
  starts_with p s = true <-> exists post, s = p ++ post.
Proof.
  revert s; induction p as [|a p IH]; intros s; simpl.
  - split; [intros _; now exists s | reflexivity].
  - destruct s as [|b s].
    + split; [discriminate | intros [post H]; discriminate].
    + rewrite andb_true_iff, Ascii.eqb_eq, IH. split.
      * intros [-> [post ->]]. now exists post.
      * intros [post H]. injection H as -> ->. split; [reflexivity | now exists post].
Qed.

Lemma str_in_spec (needle hay : string) :
  str_in needle hay = true <-> exists pre post, hay = pre ++ needle ++ post.
Proof.
  induction hay as [|c hay IH]; simpl; rewrite orb_true_iff, starts_with_spec.
  - split.
    + intros [[post H] | H]; [|discriminate]. now exists EmptyString, post.
    + intros [pre [post H]]. left. destruct pre; simpl in H; [now exists post | discriminate].
  - rewrite IH. split.
    + intros [[post H] | [pre [post H]]].
      * now exists EmptyString, post.
      * exists (String c pre), post. simpl. now rewrite H.
    + intros [pre [post H]]. destruct pre as [|d pre]; simpl in H.
      * left. now exists post.
      * right. injection H as _ H. now exists pre, post.
Qed.

Lemma lower_app (a b : string) : lower (a ++ b) = lower a ++ lower b.
Proof. induction a; simpl; congruence. Qed.

Lemma nat_of_ascii_inj (c d : ascii) : nat_of_ascii c = nat_of_ascii d -> c = d.
Proof.
  intros H. rewrite <- (ascii_nat_embedding c), <- (ascii_nat_embedding d).
  now rewrite H.
Qed.

(** [lower_char] on code points. *)
Lemma lower_char_nat (c : ascii) :
  let n := nat_of_ascii c in
  (((65 <= n <= 90) \/ (192 <= n <= 222 /\ n <> 215)) /\
   nat_of_ascii (lower_char c) = n + 32) \/
  (~ ((65 <= n <= 90) \/ (192 <= n <= 222 /\ n <> 215)) /\
   nat_of_ascii (lower_char c) = n).
Proof.
  cbv zeta. unfold lower_char.
  destruct (Nat.leb_spec 65 (nat_of_ascii c));
    destruct (Nat.leb_spec (nat_of_ascii c) 90);
    destruct (Nat.leb_spec 192 (nat_of_ascii c));
    destruct (Nat.leb_spec (nat_of_ascii c) 222);
    destruct (Nat.eqb_spec (nat_of_ascii c) 215);
    cbn [andb orb negb];
    try (right; split; [lia | reflexivity]);
    left; (split; [lia | apply nat_ascii_embedding; lia]).
Qed.

(** [lower] identifies two characters exactly when they are the same
    letter. *)
Lemma lower_char_same_letter (c d : ascii) :
  lower_char c = lower_char d <-> same_letter c d.
Proof.
  unfold same_letter, small_of.
  pose proof (lower_char_nat c) as Hc. pose proof (lower_char_nat d) as Hd.
  cbv zeta in Hc, Hd. split.
  - intros H. apply (f_equal nat_of_ascii) in H.
    destruct Hc as [[Rc Ec] | [Rc Ec]], Hd as [[Rd Ed] | [Rd Ed]];
      rewrite Ec, Ed in H.
    + left. apply nat_of_ascii_inj. lia.
    + right. left. split; [exact Rc | lia].
    + right. right. split; [exact Rd | lia].
    + left. now apply nat_of_ascii_inj.
  - intros H. apply nat_of_ascii_inj.
    destruct H as [-> | [[R E] | [R E]]]; [reflexivity | |];
      destruct Hc as [[Rc Ec] | [Rc Ec]], Hd as [[Rd Ed] | [Rd Ed]];
      rewrite Ec, Ed; lia.
Qed.

Lemma lower_length (s : string) : String.length (lower s) = String.length s.
Proof. induction s; simpl; congruence. Qed.

(** A text cut where its lower-case form is cut. *)
Lemma lower_split (s a b : string) :
  lower s = a ++ b ->
  exists s1 s2, s = s1 ++ s2 /\ lower s1 = a /\ lower s2 = b.
Proof.
  revert s. induction a as [|c a IH]; intros s H.
  - exists EmptyString, s. now repeat split.
  - destruct s as [|x s]; [discriminate|].
    cbn [lower append] in H. injection H as Hx H.
    destruct (IH s H) as [s1 [s2 [-> [H1 H2]]]].
    exists (String x s1), s2. cbn [lower append]. now rewrite Hx, H1.
Qed.

Lemma count_placeholders_cons2 (c d : ascii) (r : string) :
  count_placeholders (String c (String d r)) =
  if Ascii.eqb c lbrace && Ascii.eqb d rbrace
  then S (count_placeholders r)
  else count_placeholders (String d r).
Proof. reflexivity. Qed.

(** [count("{}")] of a concatenation whose right part does not start with a
    closing brace. *)
Lemma count_placeholders_app (m : string) (d : ascii) (t : string) :
  d <> rbrace ->
  count_placeholders (m ++ String d t) =
  (count_placeholders m + count_placeholders (String d t))%nat.
Proof.
  intros Hd.
  remember (String.length m) as n eqn:Hn.
  revert m Hn. induction n as [n IH] using lt_wf_ind. intros m Hn.
  destruct m as [|c [|e r]].
  - reflexivity.
  - change (String c EmptyString ++ String d t) with (String c (String d t)).
    rewrite count_placeholders_cons2.
    destruct (Ascii.eqb d rbrace) eqn:E.
    + apply Ascii.eqb_eq in E. contradiction.
    + rewrite andb_false_r. reflexivity.
  - change (String c (String e r) ++ String d t)
      with (String c (String e (r ++ String d t))).
    rewrite !count_placeholders_cons2.
    destruct (Ascii.eqb c lbrace && Ascii.eqb e rbrace).
    + rewrite (IH (String.length r)); [reflexivity | simpl in Hn; lia | reflexivity].
    + change (String e (r ++ String d t)) with (String e r ++ String d t).
      rewrite (IH (String.length (String e r))); [reflexivity | simpl in *; lia | reflexivity].
Qed.

Lemma count_placeholders_space (t : string) :
  count_placeholders (String " " t) = count_placeholders t.
Proof. destruct t; reflexivity. Qed.

Lemma count_placeholders_padding (k : nat) :
  count_placeholders (": " ++ str_mul "{} " k) = k.
Proof.
  change (": " ++ str_mul "{} " k) with (String ":" (String " " (str_mul "{} " k))).
  rewrite count_placeholders_cons2. simpl (Ascii.eqb _ _ && _). cbv iota.
  rewrite count_placeholders_space.
  induction k as [|k IH]; [reflexivity|].
  change (str_mul "{} " (S k)) with (String "{" (String "}" (String " " (str_mul "{} " k)))).
  rewrite count_placeholders_cons2. simpl (Ascii.eqb _ _ && _). cbv iota.
  now rewrite count_placeholders_space, IH.
Qed.

Lemma count_placeholders_padded (m : string) (k : nat) :
  count_placeholders (m ++ ": " ++ str_mul "{} " k) = (count_placeholders m + k)%nat.
Proof.
  change (": " ++ str_mul "{} " k) with (String ":" (String " " (str_mul "{} " k))).
  rewrite count_placeholders_app by (intro H; discriminate).
  f_equal. apply count_placeholders_padding.
Qed.

(** ** The monad *)

Section Proofs.

Context {environment : Environment} {platform : Platform}.

Lemma bind_ok {A B} (m : M A) (k : A -> M B) tc a tc' :
  m tc = (Ok a, tc') -> bind m k tc = k a tc'.
Proof. unfold bind. now intros ->. Qed.

Lemma bind_raise {A B} (m : M A) (k : A -> M B) tc e tc' :
  m tc = (Raise e, tc') -> bind m k tc = (Raise e, tc').
Proof. unfold bind. now intros ->. Qed.

Lemma bind_inv_ok {A B} (m : M A) (k : A -> M B) tc b tc' :
  bind m k tc = (Ok b, tc') ->
  exists a tc1, m tc = (Ok a, tc1) /\ k a tc1 = (Ok b, tc').
Proof.
  unfold bind. destruct (m tc) as [[a|e] tc1]; intros H.
  - now exists a, tc1.
  - discriminate.
Qed.

Lemma bind_inv_raise {A B} (m : M A) (k : A -> M B) tc e tc' :
  bind m k tc = (Raise e, tc') ->
  m tc = (Raise e, tc') \/ exists a tc1, m tc = (Ok a, tc1) /\ k a tc1 = (Raise e, tc').
Proof.
  unfold bind. destruct (m tc) as [[a|e0] tc1]; intros H.
  - right. now exists a, tc1.
  - left. injection H as -> ->. reflexivity.
Qed.

(** A loop stops at the first element whose body raises. *)
Lemma for_each_app_raise {A} (body : A -> M unit) pre x rest tc tc1 e tc2 :
  for_each body pre tc = (Ok tt, tc1) ->
  body x tc1 = (Raise e, tc2) ->
  for_each body (pre ++ x :: rest) tc = (Raise e, tc2).
Proof.
  revert tc. induction pre as [|y pre IH]; simpl; intros tc Hpre Hx.
  - injection Hpre as <-. now apply bind_raise.
  - apply bind_inv_ok in Hpre as [[] [tc' [Hy Hpre]]].
    rewrite (bind_ok _ _ _ _ _ Hy). now apply IH.
Qed.

(** ** [print_out] and brace-free messages *)

Lemma interpolate_go_plain resolver (s acc : string) :
  mem_char lbrace s = false ->
  interpolate_go resolver s None acc = Ok (acc ++ s).
Proof.
  revert acc. induction s as [|c s IH]; simpl; intros acc H.
  - now rewrite append_nil_r.
  - apply orb_false_iff in H as [Hc Hs]. rewrite Hc, IH by exact Hs.
    now rewrite append_assoc.
Qed.

Lemma format_string_plain (s : string) :
  mem_char lbrace s = false -> format_string (VStr s) [] = Ok s.
Proof.
  intros H. unfold format_string, interpolate_symbols.
  now rewrite interpolate_go_plain.
Qed.

(** [print_out] appends one line to the transcript, or raises and changes
    nothing. *)
Lemma print_out_cases msg args tc :
  (exists text, print_out msg args tc = (Ok tt, with_output (output tc ++ text ++ nl) tc)) \/
  (exists e, print_out msg args tc = (Raise e, tc)).
Proof.
  unfold print_out, bind, lift, append_output, modify.
  destruct (format_string (VStr (str msg)) args) as [text|e].
  - left. now exists text.
  - right. now exists e.
Qed.

Lemma print_out_plain (s : string) tc :
  mem_char lbrace s = false ->
  print_out (VStr s) [] tc = (Ok tt, with_output (output tc ++ s ++ nl) tc).
Proof.
  intros H. unfold print_out, bind, lift, append_output, modify. simpl str.
  now rewrite format_string_plain.
Qed.

(** ** Single methods *)

(** C5. A stage entry with more than one directive key does not fail with
    [ConfigError]: the bare [raise ConfigError] instantiates the class with
    no argument, its constructor requires [msg], and what is raised is the
    [TypeError] of that call. No handler is called and nothing is changed. *)
Theorem run_segment_several_directives (spec_segment : segment) (tc : TestCase) :
  1 < List.length spec_segment ->
  run_segment spec_segment tc =
  (Raise (TypeError "__init__() missing 1 required positional argument: 'msg'"), tc).
Proof.
  intros H. unfold run_segment.
  apply Nat.ltb_lt in H. rewrite H.
  reflexivity.
Qed.

(** C6, as amended. With [m] the template after the interpolation of
    symbols and at least one positional argument: when [m] has fewer [{}]
    than there are arguments, [format_string] appends [": "] and one [{} ]
    per missing placeholder, so that the template has as many placeholders
    as arguments, and formats it; otherwise it appends nothing and formats
    [m]. In particular ["{}-{}"] with one argument gets no placeholder and
    raises [IndexError], and with three arguments gets one. *)
Theorem format_string_padding_rule :
  (forall (msg m : string) (args : list value),
      args <> [] ->
      interpolate_symbols (VStr msg) get_symbol = Ok m ->
      (count_placeholders m < List.length args ->
       let padded :=
         m ++ ": " ++ str_mul "{} " (List.length args - count_placeholders m) in
       format_string (VStr msg) args = format padded args /\
       count_placeholders padded = List.length args) /\
      (List.length args <= count_placeholders m ->
       format_string (VStr msg) args = format m args)) /\
  (forall a : value,
      format_string (VStr "{}-{}") [a] =
      Raise (IndexError "Replacement index 1 out of range for positional args tuple")) /\
  (forall a b c : value,
      format_string (VStr "{}-{}") [a; b; c] =
      Ok (str a ++ "-" ++ str b ++ ": " ++ str c ++ " ")).
Proof.
  split; [|split].
  - intros msg m args Hargs Hm. unfold format_string. rewrite Hm.
    destruct args as [|a args]; [contradiction|].
    set (n := List.length (a :: args)). split.
    + intros Hlt.
      assert (Hz : (0 <? Z.of_nat n - Z.of_nat (count_placeholders m))%Z = true)
        by (apply Z.ltb_lt; lia).
      rewrite Hz.
      replace (Z.to_nat (Z.of_nat n - Z.of_nat (count_placeholders m)))
        with (n - count_placeholders m) by lia.
      split; [reflexivity|].
      rewrite count_placeholders_padded. lia.
    + intros Hle.
      assert (Hz : (0 <? Z.of_nat n - Z.of_nat (count_placeholders m))%Z = false)
        by (apply Z.ltb_ge; lia).
      now rewrite Hz.
  - intros a. reflexivity.
  - intros a b c.
    assert (E : format_string (VStr "{}-{}") [a; b; c] = format "{}-{}: {} " [a; b; c])
      by reflexivity.
    rewrite E. cbv -[str append].
    rewrite ?append_assoc. reflexivity.
Qed.

(** C4, as amended. [_call_external] resets the last-call state before it
    runs the command: when it raises, the state it leaves is the reset one
    (exit code 0, empty output); when it returns, the state is the exit code
    and the output it returns. A call whose target cannot be resolved raises
    [CallError] before [_call_external] is entered and changes nothing: the
    last-call state stays that of the previous call. *)
Theorem call_external_resets_last_call :
  (forall cmd chdir tc e tc',
      _call_external cmd chdir tc = (Raise e, tc') ->
      last_return_code tc' = 0%Z /\ last_call_output tc' = EmptyString) /\
  (forall cmd chdir tc return_code out tc',
      _call_external cmd chdir tc = (Ok (return_code, out), tc') ->
      last_return_code tc' = return_code /\ last_call_output tc' = out) /\
  (forall args kwargs tc e,
      get_call args kwargs = Raise e ->
      is_Exception e = true ->
      call_allow_error args kwargs tc =
      (Raise (CallError ("could not resolve call: " ++ exn_str e)), tc)).
Proof.
  split; [|split].
  - intros cmd chdir tc e tc'.
    unfold _call_external, print_out, set_symbol, append_output, tick, bind, lift,
      modify, get, ret, raise.
    destruct (format_string _ _); simpl.
    + destruct (check_output _ _ _) as [out|rc out|e0]; simpl;
        try destruct (decode_utf8 out); simpl; intros H; inversion H; now subst.
    + intros H; inversion H; now subst.
  - intros cmd chdir tc rc out tc'.
    unfold _call_external, print_out, set_symbol, append_output, tick, bind, lift,
      modify, get, ret, raise.
    destruct (format_string _ _); simpl.
    + destruct (check_output _ _ _) as [o|rc' o|e0]; simpl;
        try destruct (decode_utf8 o); simpl; intros H; inversion H; now subst.
    + intros H; inversion H.
  - intros args kwargs tc e Hcall Hexc.
    unfold call_allow_error. now rewrite Hcall, Hexc.
Qed.

(** The symbol table after an assignment. *)
Lemma sym_lookup_update_same (k v : value) (t : symbols) :
  key_eqb k k = true -> sym_lookup k (sym_update k v t) = Some v.
Proof.
  intros Hk. induction t as [|[k' v'] t IH]; simpl.
  - now rewrite Hk.
  - destruct (key_eqb k' k) eqn:E; simpl; now rewrite E.
Qed.

(** What the [except Exception] clause of SETUP and TEST records. *)
Lemma stage_except_unhandled (stage_name : string) (e : exn) (tc : TestCase) :
  match e with
  | TestFailure | CallError _ | KeyboardInterrupt => False
  | _ => True
  end ->
  exists r tc',
    stage_except stage_name e tc = (r, tc') /\
    errors tc' =
      List.app (errors tc) [("UNHANDLED EXCEPTION in stage " ++ stage_name ++ " ",
                     VStr (exn_repr e ++ nl ++ format_tb e), [])] /\
    failures tc' = failures tc.
Proof.
  intros He.
  set (tc1 := with_errors
                (List.app (errors tc) [("UNHANDLED EXCEPTION in stage " ++ stage_name ++ " ",
                                VStr (exn_repr e ++ nl ++ format_tb e), [])]) tc).
  assert (H : stage_except stage_name e tc =
              print_out (VStr ("# EXCEPTION!! " ++ exn_repr e)) [] tc1)
    by (destruct e; try contradiction; reflexivity).
  rewrite H.
  destruct (print_out_cases (VStr ("# EXCEPTION!! " ++ exn_repr e)) [] tc1)
    as [[text ->] | [e' ->]]; eexists; eexists; split; try reflexivity; now simpl.
Qed.

Lemma teardown_except_unhandled (e : exn) (tc : TestCase) :
  match e with
  | TestFailure | CallError _ | KeyboardInterrupt => False
  | _ => True
  end ->
  exists r tc',
    teardown_except e tc = (r, tc') /\
    errors tc' =
      List.app (errors tc) [("UNHANDLED EXCEPTION in stage TEARDOWN",
                     VStr (exn_repr e ++ nl ++ format_tb e), [])] /\
    failures tc' = failures tc.
Proof.
  intros He.
  set (tc1 := with_errors
                (List.app (errors tc) [("UNHANDLED EXCEPTION in stage TEARDOWN",
                                VStr (exn_repr e ++ nl ++ format_tb e), [])]) tc).
  assert (H : teardown_except e tc =
              print_out (VStr ("# EXCEPTION!! " ++ exn_repr e)) [] tc1)
    by (destruct e; try contradiction; reflexivity).
  rewrite H.
  destruct (print_out_cases (VStr ("# EXCEPTION!! " ++ exn_repr e)) [] tc1)
    as [[text ->] | [e' ->]]; eexists; eexists; split; try reflexivity; now simpl.
Qed.

Lemma get_variable_or_literal_unbound (name : value) (tc : TestCase) :
  hashable name = true ->
  sym_lookup name (local_symbols tc) = None ->
  get_variable_or_literal (VDict [("variable", name)]) tc = (Raise (KeyError name), tc).
Proof.
  intros Hh Hl.
  unfold get_variable_or_literal, bind, lift, get, sym_getitem. simpl.
  now rewrite Hh, Hl.
Qed.

Lemma extract_match_first_capture (pattern : value) (name : string)
    (first : option string) (others : list (option string)) (tc : TestCase) :
  truthy pattern = true ->
  name <> EmptyString ->
  re_search pattern (last_call_output tc) = Ok (Some (first :: others)) ->
  exists tc',
    extract_match pattern (VStr name) VNone tc = (Ok (VTuple [VNone; VNone]), tc') /\
    sym_lookup (VStr name) (local_symbols tc') = Some (value_of_capture first).
Proof.
  intros Hp Hn Hre.
  assert (Ht : truthy (VStr name) = true).
  { simpl. destruct (String.eqb_spec name EmptyString); [contradiction | reflexivity]. }
  unfold extract_match, set_symbol, bind, lift, get, modify, ret, sym_setitem.
  rewrite Hp, Ht. simpl. rewrite Hre. simpl.
  eexists. split; [reflexivity|]. simpl.
  apply sym_lookup_update_same. simpl. apply String.eqb_refl.
Qed.

Lemma extract_match_no_match (pattern : value) (name : string) (tc : TestCase) :
  truthy pattern = true ->
  name <> EmptyString ->
  re_search pattern (last_call_output tc) = Ok None ->
  exists tc',
    extract_match pattern (VStr name) VNone tc = (Ok (VTuple [VNone; VNone]), tc') /\
    sym_lookup (VStr name) (local_symbols tc') = Some VNone.
Proof.
  intros Hp Hn Hre.
  assert (Ht : truthy (VStr name) = true).
  { simpl. destruct (String.eqb_spec name EmptyString); [contradiction | reflexivity]. }
  unfold extract_match, set_symbol, bind, lift, get, modify, ret, sym_setitem.
  rewrite Hp, Ht. simpl. rewrite Hre. simpl.
  eexists. split; [reflexivity|]. simpl.
  apply sym_lookup_update_same. simpl. apply String.eqb_refl.
Qed.

Lemma extract_match_both_or_neither (pattern variable groups : value) (tc : TestCase) :
  truthy variable = truthy groups ->
  exists msg, extract_match pattern variable groups tc = (Raise (ConfigError msg), tc).
Proof.
  intros H. unfold extract_match, bind, ret. rewrite H.
  destruct (truthy pattern); simpl; [|eexists; reflexivity].
  destruct (truthy groups); simpl; eexists; reflexivity.
Qed.

(** C8. With the pattern ["(\d+)"], of which the first match in
    ["count: 42"] captures ["42"], and the variable ["n"], [extract_match]
    binds [n] to ["42"]; when the pattern has no match in the last output it
    binds [n] to [None] and returns; with both a variable and groups, or
    with neither, it raises [ConfigError] and changes nothing. The same
    holds when it is reached as the directive of a stage entry. *)
Theorem extract_match_binds_or_rejects (tc : TestCase) :
  (re_search (VStr "(\d+)") "count: 42" = Ok (Some [Some "42"]) ->
   last_call_output tc = "count: 42" ->
   exists tc',
     extract_match (VStr "(\d+)") (VStr "n") VNone tc = (Ok (VTuple [VNone; VNone]), tc') /\
     sym_lookup (VStr "n") (local_symbols tc') = Some (VStr "42")) /\
  (re_search (VStr "(\d+)") (last_call_output tc) = Ok None ->
   exists tc',
     extract_match (VStr "(\d+)") (VStr "n") VNone tc = (Ok (VTuple [VNone; VNone]), tc') /\
     sym_lookup (VStr "n") (local_symbols tc') = Some VNone) /\
  (forall pattern variable groups,
      truthy variable = truthy groups ->
      exists msg,
        extract_match pattern variable groups tc = (Raise (ConfigError msg), tc)) /\
  (forall block,
      truthy (block_get "variable" block) = truthy (block_get "groups" block) ->
      exists msg,
        run_segment [("extract_match", VDict block)] tc = (Raise (ConfigError msg), tc)) /\
  (re_search (VStr "(\d+)") "count: 42" = Ok (Some [Some "42"]) ->
   last_call_output tc = "count: 42" ->
   exists tc',
     run_segment
       [("extract_match", VDict [("pattern", VStr "(\d+)"); ("variable", VStr "n")])] tc =
       (Ok tt, tc') /\
     sym_lookup (VStr "n") (local_symbols tc') = Some (VStr "42")).
Proof.
  split; [|split; [|split; [|split]]].
  - intros Hre Hout.
    apply (extract_match_first_capture (VStr "(\d+)") "n" (Some "42") []);
      [reflexivity | discriminate | now rewrite Hout].
  - intros Hre.
    apply (extract_match_no_match (VStr "(\d+)") "n"); [reflexivity | discriminate | exact Hre].
  - intros pattern variable groups H. now apply extract_match_both_or_neither.
  - intros block H.
    destruct (extract_match_both_or_neither
                (block_get "pattern" block) (block_get "variable" block)
                (block_get "groups" block) tc H) as [msg E].
    exists msg.
    unfold run_segment, bind, get, ret, lift. cbn -[extract_match].
    unfold yaml_extract_match, dict_get, bind, lift, ret, no_kwargs.
    unfold block_get in E.
    destruct (assoc "pattern" block), (assoc "variable" block), (assoc "groups" block);
      cbn -[extract_match]; now rewrite E.
  - intros Hre Hout.
    destruct (extract_match_first_capture (VStr "(\d+)") "n" (Some "42") [] tc)
      as [tc' [E L]]; [reflexivity | discriminate | now rewrite Hout |].
    exists tc'. split; [|exact L].
    unfold run_segment, bind, get, ret, lift. cbn -[extract_match].
    now rewrite E.
Qed.

Lemma assert_that_passes (condition message : value) (args : list value) (tc : TestCase) :
  truthy condition = true ->
  assert_that condition message args tc = (Ok tt, tc).
Proof. intros H. unfold assert_that. now rewrite H. Qed.

(** A failed assertion records its failure and raises. *)
Lemma assert_that_fails (condition message : value) (args : list value) (tc : TestCase) :
  truthy condition = false ->
  exists e tc',
    assert_that condition message args tc = (Raise e, tc') /\
    failures tc' = List.app (failures tc) [("FAILED ASSERTION", message, args)] /\
    errors tc' = errors tc.
Proof.
  intros H. unfold assert_that. rewrite H. cbn [negb].
  unfold record_failure, modify, bind, lift.
  destruct (str_add "# FAILED ASSERTION: " message) as [line|e]; cbv beta iota.
  - match goal with |- context [print_out ?m ?a ?t] =>
      destruct (print_out_cases m a t) as [[text ->] | [e ->]] end.
    + eexists; eexists; split; [reflexivity|]. now simpl.
    + eexists; eexists; split; [reflexivity|]. now simpl.
  - eexists; eexists; split; [reflexivity|]. now simpl.
Qed.

Lemma comprehension_map_pure {A B C} (f : B -> M C) (h : A -> B) (g : A -> C)
    (l : list A) (tc : TestCase) :
  (forall x, f (h x) tc = (Ok (g x), tc)) ->
  comprehension f (map h l) tc = (Ok (map g l), tc).
Proof.
  intros H. induction l as [|x l IH]; cbn [comprehension map]; [reflexivity|].
  rewrite (bind_ok _ _ tc (g x) tc (H x)).
  now rewrite (bind_ok _ _ tc (map g l) tc IH).
Qed.

Lemma last_output_contains_default (s : string) (kwargs : list (string * value))
    (tc : TestCase) :
  default_kwargs kwargs ->
  last_output_contains (VStr s) (remove_key KEY_CONTAINS_MESSAGE kwargs) tc =
  (Ok (str_in (lower s) (lower (last_call_output tc))), tc).
Proof. intros [-> | [message ->]]; reflexivity. Qed.




(** Two texts have the same lower-case form exactly when they differ in
    case only. *)
Lemma same_text_lower (s t : string) : same_text s t <-> lower s = lower t.
Proof.
  split.
  - induction 1 as [|c d s t Hl _ IH]; [reflexivity|].
    cbn [lower]. apply lower_char_same_letter in Hl. now rewrite Hl, IH.
  - revert t. induction s as [|c s IH]; intros [|d t] H; try discriminate.
    + constructor.
    + cbn [lower] in H. injection H as Hc H. constructor.
      * now apply lower_char_same_letter.
      * now apply IH.
Qed.

(** The comparison that [last_output_contains] makes by default decides
    whether the value occurs in the output, case ignored. *)
Lemma occurs_str_in (v out : string) :
  str_in (lower v) (lower out) = true <-> occurs v out.
Proof.
  rewrite str_in_spec. unfold occurs. split.
  - intros [a [b H]].
    destruct (lower_split out a (lower v ++ b) H) as [pre [rest [-> [Hpre Hrest]]]].
    destruct (lower_split rest (lower v) b Hrest) as [mid [post [-> [Hmid Hpost]]]].
    exists pre, mid, post. split; [reflexivity | now apply same_text_lower].
  - intros [pre [mid [post [-> H]]]]. apply same_text_lower in H.
    exists (lower pre), (lower post). now rewrite !lower_app, H.
Qed.


(** ** Failures are only ever added

    Every method leaves at least as many recorded failures as it found. *)

Lemma kf_ret {A} (a : A) : keeps_failures (ret a).
Proof. intros tc. simpl. lia. Qed.

Lemma kf_raise {A} (e : exn) : keeps_failures (@raise A e).
Proof. intros tc. simpl. lia. Qed.

Lemma kf_lift {A} (r : result A) : keeps_failures (lift r).
Proof. intros tc. simpl. lia. Qed.

Lemma kf_get : keeps_failures get.
Proof. intros tc. simpl. lia. Qed.

Lemma kf_modify (f : TestCase -> TestCase) :
  (forall tc, List.length (failures tc) <= List.length (failures (f tc))) ->
  keeps_failures (modify f).
Proof. intros H tc. simpl. apply H. Qed.

Lemma kf_bind {A B} (m : M A) (k : A -> M B) :
  keeps_failures m -> (forall a, keeps_failures (k a)) -> keeps_failures (bind m k).
Proof.
  intros Hm Hk tc. unfold bind. specialize (Hm tc).
  destruct (m tc) as [[a|e] tc1]; simpl in *.
  - specialize (Hk a tc1). lia.
  - exact Hm.
Qed.

Lemma kf_raise_new {A} cls args : keeps_failures (@raise_new A cls args).
Proof. unfold raise_new. destruct (cls args); apply kf_raise. Qed.

Lemma kf_for_each {A} (body : A -> M unit) (l : list A) :
  (forall x, keeps_failures (body x)) -> keeps_failures (for_each body l).
Proof.
  intros H. induction l as [|x l IH]; simpl.
  - apply kf_ret.
  - apply kf_bind; [apply H | intros _; exact IH].
Qed.

Lemma kf_comprehension {A B} (f : A -> M B) (l : list A) :
  (forall x, keeps_failures (f x)) -> keeps_failures (comprehension f l).
Proof.
  intros H. induction l as [|x l IH]; simpl.
  - apply kf_ret.
  - apply kf_bind; [apply H | intros y].
    apply kf_bind; [exact IH | intros ys; apply kf_ret].
Qed.

Lemma kf_fold_m {A B} (f : A -> B -> M A) (a : A) (l : list B) :
  (forall a x, keeps_failures (f a x)) -> keeps_failures (fold_m f a l).
Proof.
  intros H. revert a. induction l as [|x l IH]; simpl; intros a.
  - apply kf_ret.
  - apply kf_bind; [apply H | intros a'; apply IH].
Qed.

Create HintDb kf.

#[local] Hint Resolve kf_ret kf_raise kf_lift kf_get kf_raise_new : kf.

(** One step of the proof that a method keeps the failures: through the
    monad, the loops and the case analyses of the method. *)
Ltac kf_step :=
  lazymatch goal with
  | |- keeps_failures (ret _) => apply kf_ret
  | |- keeps_failures (raise _) => apply kf_raise
  | |- keeps_failures (lift _) => apply kf_lift
  | |- keeps_failures get => apply kf_get
  | |- keeps_failures (raise_new _ _) => apply kf_raise_new
  | |- keeps_failures (bind _ _) => apply kf_bind; [| intros ?]
  | |- keeps_failures (for_each _ _) => apply kf_for_each; intros ?
  | |- keeps_failures (comprehension _ _) => apply kf_comprehension; intros ?
  | |- keeps_failures (fold_m _ _ _) => apply kf_fold_m; intros ? ?
  | |- keeps_failures (modify _) => apply kf_modify; intros ?; simpl; lia
  | |- keeps_failures (match ?x with _ => _ end) => destruct x
  | |- keeps_failures (let _ := _ in _) => cbv zeta
  | |- keeps_failures _ => solve [auto with kf]
  end.

Ltac kf := repeat kf_step.

Lemma kf_logging_info msg : keeps_failures (logging_info msg).
Proof. unfold logging_info. kf. Qed.

Lemma kf_log_raise {A} msg : keeps_failures (@log_raise A msg).
Proof. unfold log_raise, logging_critical. kf. Qed.

Lemma kf_record_failure s m a : keeps_failures (record_failure s m a).
Proof.
  unfold record_failure. apply kf_modify. intros tc. simpl.
  rewrite length_app. lia.
Qed.

Lemma kf_record_error s m a : keeps_failures (record_error s m a).
Proof. unfold record_error. kf. Qed.

Lemma kf_append_output t : keeps_failures (append_output t).
Proof. unfold append_output. kf. Qed.

Lemma kf_set_symbol k v : keeps_failures (set_symbol k v).
Proof. unfold set_symbol. kf. Qed.

Lemma kf_tick : keeps_failures tick.
Proof. unfold tick. kf. Qed.

#[local] Hint Resolve kf_logging_info kf_log_raise kf_record_failure kf_record_error
  kf_append_output kf_set_symbol kf_tick : kf.

Lemma kf_print_out m a : keeps_failures (print_out m a).
Proof. unfold print_out. kf. Qed.

#[local] Hint Resolve kf_print_out : kf.

Lemma kf_expect c m a : keeps_failures (expect c m a).
Proof. unfold expect. kf. Qed.

Lemma kf_assert_that c m a : keeps_failures (assert_that c m a).
Proof. unfold assert_that. kf. Qed.

#[local] Hint Resolve kf_expect kf_assert_that : kf.

Lemma kf_fail : keeps_failures fail.
Proof. unfold fail. kf. Qed.

Lemma kf_abort : keeps_failures abort.
Proof. unfold abort. kf. Qed.

Lemma kf_get_uuid : keeps_failures get_uuid.
Proof. unfold get_uuid. kf. Qed.

Lemma kf_get_env v : keeps_failures (get_env v).
Proof. unfold get_env. kf. Qed.

#[local] Hint Resolve kf_fail kf_abort kf_get_uuid kf_get_env : kf.

Lemma kf_yaml_get_uuid v : keeps_failures (yaml_get_uuid v).
Proof. unfold yaml_get_uuid. kf. Qed.

Lemma kf_params_for_set p : keeps_failures (params_for_set p).
Proof. unfold params_for_set. kf. Qed.

#[local] Hint Resolve kf_yaml_get_uuid kf_params_for_set : kf.

Lemma kf_yaml_get_env p : keeps_failures (yaml_get_env p).
Proof. unfold yaml_get_env. kf. Qed.

Lemma kf_extract_match p v g : keeps_failures (extract_match p v g).
Proof. unfold extract_match. kf. Qed.

Lemma kf_yaml_extract_match p : keeps_failures (yaml_extract_match p).
Proof. unfold yaml_extract_match. kf. Qed.

Lemma kf_call_external cmd chdir : keeps_failures (_call_external cmd chdir).
Proof. unfold _call_external. kf. Qed.

#[local] Hint Resolve kf_yaml_get_env kf_extract_match kf_yaml_extract_match
  kf_call_external : kf.

Lemma kf_call_allow_error a k : keeps_failures (call_allow_error a k).
Proof. unfold call_allow_error. kf. Qed.

#[local] Hint Resolve kf_call_allow_error : kf.

Lemma kf_call_no_error a k : keeps_failures (call_no_error a k).
Proof. unfold call_no_error. kf. Qed.

Lemma kf_shell c a : keeps_failures (shell c a).
Proof. unfold shell. kf. Qed.

Lemma kf_last_output_contains s k : keeps_failures (last_output_contains s k).
Proof. unfold last_output_contains. kf. Qed.

#[local] Hint Resolve kf_call_no_error kf_shell kf_last_output_contains : kf.

Lemma kf_check_several check which condition message values :
  (forall v, keeps_failures (condition v)) ->
  keeps_failures (_check_several check which condition message values).
Proof. intros H. unfold _check_several, apply_check. destruct check; kf; apply H. Qed.

Lemma kf_contain_checker check which contains values kwargs :
  keeps_failures (contain_checker check which contains values kwargs).
Proof.
  unfold contain_checker. apply kf_check_several. intros v.
  destruct contains; cbv beta; kf.
Qed.

Lemma kf_assert_success m a : keeps_failures (assert_success m a).
Proof. unfold assert_success. kf. Qed.

Lemma kf_assert_failure m a : keeps_failures (assert_failure m a).
Proof. unfold assert_failure. kf. Qed.

Lemma kf_get_variable_or_literal m : keeps_failures (get_variable_or_literal m).
Proof. unfold get_variable_or_literal. kf. Qed.

#[local] Hint Resolve kf_contain_checker kf_assert_success kf_assert_failure
  kf_get_variable_or_literal : kf.

Lemma kf_get_yaml_values l : keeps_failures (get_yaml_values l).
Proof. unfold get_yaml_values. kf. Qed.

#[local] Hint Resolve kf_get_yaml_values : kf.

Lemma kf_string_and_params n p s : keeps_failures (string_and_params n p s).
Proof. unfold string_and_params. kf. Qed.

#[local] Hint Resolve kf_string_and_params : kf.

Lemma kf_params_for_contains p : keeps_failures (params_for_contains p).
Proof. unfold params_for_contains. kf. Qed.

Lemma kf_lookup_values s : keeps_failures (lookup_values s).
Proof. unfold lookup_values. kf. Qed.

#[local] Hint Resolve kf_params_for_contains kf_lookup_values : kf.

Lemma kf_yaml_args_string p : keeps_failures (yaml_args_string p).
Proof. unfold yaml_args_string. kf. Qed.

Lemma kf_params_for_call p : keeps_failures (params_for_call p).
Proof. unfold params_for_call. kf. Qed.

#[local] Hint Resolve kf_yaml_args_string kf_params_for_call : kf.

Lemma kf_call_function execute f args kwargs :
  (forall code, keeps_failures (execute code)) ->
  keeps_failures (call_function execute f args kwargs).
Proof.
  intros H. unfold call_function, no_kwargs, arity. kf; apply H.
Qed.


Lemma kf_exec_stmt call s :
  stmt_keeps_failures s ->
  (forall f args kwargs, keeps_failures (call f args kwargs)) ->
  keeps_failures (exec_stmt call s).
Proof.
  intros Hs H. destruct s as [target f args kwargs | x v | e | body].
  - unfold exec_stmt. kf; apply H.
  - unfold exec_stmt. kf.
  - unfold exec_stmt. kf.
  - exact (Hs call H).
Qed.

Lemma kf_for_each_Forall {A} (body : A -> M unit) (l : list A) :
  Forall (fun x => keeps_failures (body x)) l -> keeps_failures (for_each body l).
Proof.
  induction 1 as [|x l Hx _ IH]; simpl.
  - apply kf_ret.
  - apply kf_bind; [exact Hx | intros _; exact IH].
Qed.

Lemma kf_bind_lift {A B} (r : result A) (k : A -> M B) :
  (forall a, r = Ok a -> keeps_failures (k a)) -> keeps_failures (bind (lift r) k).
Proof.
  intros H tc. unfold bind, lift. destruct r as [a|e]; [|simpl; lia].
  exact (H a eq_refl tc).
Qed.

Lemma kf_apply_adapter a s : keeps_failures (apply_adapter a s).
Proof. unfold apply_adapter. kf. Qed.

Lemma kf_stage_except name e : keeps_failures (stage_except name e).
Proof. unfold stage_except. kf. Qed.


#[local] Hint Resolve kf_apply_adapter : kf.

(** *** With embedded code that keeps the failures

    Embedded code is any Python: the invariant goes through [execute], and
    from there through a stage, when the code of the platform removes no
    recorded failure. *)

Section CodeKeepsFailures.

Hypothesis code_keeps : code_keeps_failures.

Lemma kf_execute depth code : keeps_failures (execute depth code).
Proof.
  revert code. induction depth as [|d IH]; intros code; simpl.
  - kf.
  - destruct code as [ | b | z | source | l | l | dict | f ]; try apply kf_raise.
    apply kf_bind_lift. intros program C.
    apply kf_for_each_Forall.
    eapply Forall_impl; [|exact (code_keeps source program C)].
    intros st Hst. apply kf_exec_stmt; [exact Hst|].
    intros f args kwargs. now apply kf_call_function.
Qed.

Lemma kf_call_value v args kwargs : keeps_failures (call_value v args kwargs).
Proof.
  unfold call_value. kf. apply kf_call_function. intros code. apply kf_execute.
Qed.

#[local] Hint Resolve kf_call_value : kf.

Lemma kf_run_segment s : keeps_failures (run_segment s).
Proof. unfold run_segment. kf. Qed.

#[local] Hint Resolve kf_run_segment : kf.



End CodeKeepsFailures.

(** ** The summary *)

Lemma with_logging_twice a b tc : with_logging a (with_logging b tc) = with_logging a tc.
Proof. reflexivity. Qed.

(** The loop over the failures logs one line per failure and leaves
    [print_output] true; it stops at the first message that cannot be
    formatted. Nothing but the log changes. *)
Lemma log_failures_cases (l : list entry) (b : bool) (tc : TestCase) :
  exists lines,
    (Forall formats l /\
     log_failures l b tc =
       (Ok (match l with [] => b | _ => true end),
        with_logging (List.app (logging tc) lines) tc)) \/
    (~ Forall formats l /\
     exists e, log_failures l b tc =
                 (Raise e, with_logging (List.app (logging tc) lines) tc)).
Proof.
  revert b tc. induction l as [|[[status message] args] l IH]; intros b tc.
  - exists []. left. split; [constructor|]. simpl. unfold ret.
    rewrite app_nil_r. now destruct tc.
  - cbn [log_failures fst snd]. unfold bind, lift, logging_info, modify.
    destruct (format_string message args) as [text|e] eqn:F.
    + destruct (IH true (with_logging
                           (List.app (logging tc)
                              [(INFO, "    " ++ status ++ ": " ++ text)]) tc))
        as [lines [[Hall E] | [Hnot [e E]]]].
      * exists ((INFO, "    " ++ status ++ ": " ++ text) :: lines). left. split.
        -- constructor; [now exists text | exact Hall].
        -- rewrite E. cbn [logging with_logging]. rewrite with_logging_twice.
           rewrite <- app_assoc. simpl. destruct l; reflexivity.
      * exists ((INFO, "    " ++ status ++ ": " ++ text) :: lines). right. split.
        -- intros H. inversion H. contradiction.
        -- exists e. rewrite E. cbn [logging with_logging]. rewrite with_logging_twice.
           now rewrite <- app_assoc.
    + exists []. right. split.
      * intros H. inversion H as [|? ? [text Ht] ?]. simpl in Ht. congruence.
      * exists e. rewrite app_nil_r. now destruct tc.
Qed.

Lemma log_errors_cases (l : list entry) (b : bool) (tc : TestCase) :
  exists lines,
    (Forall formats l /\
     log_errors l b tc =
       (Ok (match l with [] => b | _ => true end),
        with_logging (List.app (logging tc) lines) tc)) \/
    (~ Forall formats l /\
     exists e, log_errors l b tc =
                 (Raise e, with_logging (List.app (logging tc) lines) tc)).
Proof.
  revert b tc. induction l as [|[[status message] args] l IH]; intros b tc.
  - exists []. left. split; [constructor|]. simpl. unfold ret.
    rewrite app_nil_r. now destruct tc.
  - cbn [log_errors fst snd]. unfold bind, lift, logging_info, modify.
    destruct (format_string message args) as [text|e] eqn:F.
    + match goal with |- context [(INFO, ?line)] => set (entry_line := (INFO, line)) end.
      destruct (IH true (with_logging (List.app (logging tc) [entry_line]) tc))
        as [lines [[Hall E] | [Hnot [e E]]]].
      * exists (entry_line :: lines). left. split.
        -- constructor; [now exists text | exact Hall].
        -- rewrite E. cbn [logging with_logging]. rewrite with_logging_twice.
           rewrite <- app_assoc. simpl. destruct l; reflexivity.
      * exists (entry_line :: lines). right. split.
        -- intros H. inversion H. contradiction.
        -- exists e. rewrite E. cbn [logging with_logging]. rewrite with_logging_twice.
           now rewrite <- app_assoc.
    + exists []. right. split.
      * intros H. inversion H as [|? ? [text Ht] ?]. simpl in Ht. congruence.
      * exists e. rewrite app_nil_r. now destruct tc.
Qed.

(** What [summary] does: it logs the verdict, then one line per reported
    entry; if every message formats it logs the transcript and returns the
    number of failures and errors, else it raises at the first message that
    does not format, the transcript unlogged. Nothing but the log changes. *)
Lemma summary_cases (tc : TestCase) :
  exists lines,
    (Forall formats (reported tc) /\
     summary tc =
       (Ok (List.length (failures tc) + List.length (errors tc)),
        with_logging
          (List.app (logging tc)
             ((INFO, log_entry_prefix tc ++ verdict tc) :: List.app lines (transcript_lines tc)))
          tc)) \/
    (~ Forall formats (reported tc) /\
     exists e,
       summary tc =
         (Raise e,
          with_logging
            (List.app (logging tc) ((INFO, log_entry_prefix tc ++ verdict tc) :: lines)) tc)).
Proof.
  unfold summary, reported, verdict.
  destruct (failures tc) as [|f fs] eqn:Hf.
  - destruct (errors tc) as [|e es] eqn:He.
    + exists []. left. split; [constructor|].
      unfold bind, get, ret, logging_info, modify, transcript_lines, get_output.
      rewrite Hf, He.
      cbn [List.length Nat.ltb Nat.leb logging with_logging failures errors output].
      rewrite Hf, He. rewrite !with_logging_twice. f_equal. f_equal.
      rewrite <- !app_assoc. reflexivity.
    + set (tc1 := with_logging
                    (List.app (logging tc)
                       [(INFO, log_entry_prefix tc ++ " ERRORED --------------------")]) tc).
      destruct (log_errors_cases (e :: es) true tc1) as [lines [[Hall E] | [Hnot [x E]]]].
      * exists lines. left. split; [exact Hall|].
        unfold bind, get, ret, logging_info, modify, transcript_lines, get_output.
        rewrite Hf, He. cbn [List.length Nat.ltb Nat.leb]. fold tc1. rewrite E.
        cbn [logging with_logging failures errors output tc1].
        rewrite Hf, He. f_equal.
        rewrite <- !app_assoc. reflexivity.
      * exists lines. right. split; [exact Hnot|]. exists x.
        unfold bind, get, ret, logging_info, modify.
        rewrite Hf, He. cbn [List.length Nat.ltb Nat.leb]. fold tc1. rewrite E.
        cbn [logging with_logging tc1]. now rewrite <- !app_assoc.
  - set (tc1 := with_logging
                  (List.app (logging tc)
                     [(INFO, log_entry_prefix tc ++ " FAILED --------------------")]) tc).
    destruct (log_failures_cases (f :: fs) true tc1) as [lines [[Hall E] | [Hnot [x E]]]].
    + exists lines. left. split; [exact Hall|].
      unfold bind, get, ret, logging_info, modify, transcript_lines, get_output.
      rewrite Hf. cbn [List.length Nat.ltb Nat.leb]. fold tc1. rewrite E.
      cbn [logging with_logging failures errors output tc1].
      rewrite Hf. f_equal.
      rewrite <- !app_assoc. reflexivity.
    + exists lines. right. split; [exact Hnot|]. exists x.
      unfold bind, get, ret, logging_info, modify.
      rewrite Hf. cbn [List.length Nat.ltb Nat.leb]. fold tc1. rewrite E.
      cbn [logging with_logging tc1]. now rewrite <- !app_assoc.
Qed.

(** ** [run] *)

Lemma run_unfold (tc : TestCase) :
  run tc =
  match run_try tc with
  | (Ok _, tc2) => summary tc2
  | (Raise e, tc2) => (Raise e, tc2)
  end.
Proof. reflexivity. Qed.

Lemma run_try_unfold (tc : TestCase) :
  run_try tc =
  let '(r, tc1) := run_stages [("SETUP", setup tc); ("TEST", case tc)] tc in
  match run_teardown tc1 with
  | (Ok _, tc2) => (r, tc2)
  | (Raise e, tc2) => (Raise e, tc2)
  end.
Proof. reflexivity. Qed.

Lemma verdict_cases (tc : TestCase) :
  (failures tc <> [] -> verdict tc = " FAILED --------------------") /\
  (failures tc = [] -> errors tc <> [] -> verdict tc = " ERRORED --------------------") /\
  (failures tc = [] -> errors tc = [] ->
   verdict tc = " PASSED ------------------------------").
Proof.
  unfold verdict. destruct (failures tc), (errors tc); repeat split; congruence.
Qed.

(** C2, as amended. When all stages complete, [run] logs the summary line:
    FAILED if there are failures, else ERRORED if there are errors, else
    PASSED; and, provided every message that the summary reports can be
    formatted, it returns the number of recorded failures plus the number
    of recorded errors, which is all it ever returns. A case with empty
    setup, test and teardown returns 0 and logs PASSED. *)
Theorem run_returns_problem_count :
  (forall tc tc2,
      run_try tc = (Ok tt, tc2) ->
      (exists r tc3 lines,
          run tc = (r, tc3) /\
          logging tc3 =
            List.app (logging tc2) ((INFO, log_entry_prefix tc2 ++ verdict tc2) :: lines) /\
          failures tc3 = failures tc2 /\ errors tc3 = errors tc2) /\
      (Forall formats (reported tc2) ->
       exists tc3,
         run tc = (Ok (List.length (failures tc2) + List.length (errors tc2)), tc3)) /\
      (forall n tc3,
          run tc = (Ok n, tc3) ->
          n = List.length (failures tc2) + List.length (errors tc2)) /\
      (failures tc2 <> [] -> verdict tc2 = " FAILED --------------------") /\
      (failures tc2 = [] -> errors tc2 <> [] ->
       verdict tc2 = " ERRORED --------------------") /\
      (failures tc2 = [] -> errors tc2 = [] ->
       verdict tc2 = " PASSED ------------------------------")) /\
  (forall idx label,
      exists tc3,
        run (init idx label [] [] []) = (Ok 0, tc3) /\
        logging tc3 =
          (INFO, log_entry_prefix tc3 ++ " PASSED ------------------------------")
          :: transcript_lines tc3).
Proof.
  split.
  - intros tc tc2 Htry.
    pose proof (run_unfold tc) as R. rewrite Htry in R.
    destruct (summary_cases tc2) as [lines [[Hall S] | [Hnot [e S]]]].
    + split; [|split; [|split]].
      * eexists; eexists; eexists. rewrite R, S. split; [reflexivity|].
        cbn [logging with_logging failures errors]. repeat split.
      * intros _. eexists. rewrite R, S. reflexivity.
      * intros n tc3 H. rewrite R, S in H. now inversion H.
      * apply verdict_cases.
    + split; [|split; [|split]].
      * eexists; eexists; eexists. rewrite R, S. split; [reflexivity|].
        cbn [logging with_logging failures errors]. repeat split.
      * intros H. contradiction.
      * intros n tc3 H. rewrite R, S in H. discriminate.
      * apply verdict_cases.
  - intros idx label. exists (snd (run (init idx label [] [] []))).
    split; vm_compute; reflexivity.
Qed.

(** C9, as amended. Whenever [run] returns, the last two lines it logged
    are "Output:" and the indented transcript, whatever the verdict: the
    flag that guards them is true on every path. [run] does return when all
    stages complete and every reported message can be formatted, and always
    when the case passes. When an exception leaves the [try] statement (a
    keyboard interrupt that is raised again), [run] raises it from the
    instance that the stages left: the summary logs nothing, neither the
    verdict nor the transcript, and the log holds what the directives
    logged themselves. *)
Theorem run_logs_transcript_whenever_it_returns :
  (forall tc n tc',
      run tc = (Ok n, tc') ->
      exists lines, logging tc' = List.app lines (transcript_lines tc')) /\
  (forall tc tc2,
      run_try tc = (Ok tt, tc2) ->
      Forall formats (reported tc2) ->
      exists n tc' lines,
        run tc = (Ok n, tc') /\
        logging tc' =
          List.app (logging tc2)
            ((INFO, log_entry_prefix tc2 ++ verdict tc2)
             :: List.app lines (transcript_lines tc2))) /\
  (forall tc tc2,
      run_try tc = (Ok tt, tc2) ->
      failures tc2 = [] ->
      errors tc2 = [] ->
      exists tc',
        run tc = (Ok 0, tc') /\
        logging tc' =
          List.app (logging tc2)
            ((INFO, log_entry_prefix tc2 ++ " PASSED ------------------------------")
             :: transcript_lines tc2)) /\
  (forall l tc b tc', log_failures l true tc = (Ok b, tc') -> b = true) /\
  (forall l tc b tc', log_errors l true tc = (Ok b, tc') -> b = true) /\
  (forall tc e tc2,
      run_try tc = (Raise e, tc2) ->
      run tc = (Raise e, tc2) /\ logging (snd (run tc)) = logging tc2).
Proof.
  split; [|split; [|split; [|split; [|split]]]].
  - intros tc n tc' H. rewrite run_unfold in H.
    destruct (run_try tc) as [[[]|e] tc2]; [|discriminate].
    destruct (summary_cases tc2) as [lines [[Hall S] | [Hnot [e S]]]];
      rewrite S in H; [|discriminate].
    inversion H; subst.
    exists (List.app (logging tc2) ((INFO, log_entry_prefix tc2 ++ verdict tc2) :: lines)).
    cbn [logging with_logging]. rewrite <- app_assoc. reflexivity.
  - intros tc tc2 Htry Hall. rewrite run_unfold, Htry.
    destruct (summary_cases tc2) as [lines [[_ S] | [Hnot _]]]; [|contradiction].
    eexists; eexists; exists lines. rewrite S. split; reflexivity.
  - intros tc tc2 Htry Hf He. rewrite run_unfold, Htry.
    unfold summary, bind, get, ret, logging_info, modify. rewrite Hf, He.
    cbn [List.length Nat.ltb Nat.leb logging with_logging failures errors].
    rewrite Hf, He. eexists. split; [reflexivity|].
    cbn [logging with_logging]. rewrite <- !app_assoc. reflexivity.
  - intros l tc b tc' H.
    destruct (log_failures_cases l true tc) as [lines [[_ E] | [_ [e E]]]];
      rewrite E in H; [|discriminate].
    inversion H. now destruct l.
  - intros l tc b tc' H.
    destruct (log_errors_cases l true tc) as [lines [[_ E] | [_ [e E]]]];
      rewrite E in H; [|discriminate].
    inversion H. now destruct l.
  - intros tc e tc2 H. rewrite run_unfold, H. split; reflexivity.
Qed.

(** ** Exceptions in SETUP and TEST *)

Lemma run_stage_app_raise stage_name pre seg rest tc tc1 e tc2 :
  run_stage stage_name pre tc = (Ok tt, tc1) ->
  run_segment seg tc1 = (Raise e, tc2) ->
  run_stage stage_name (pre ++ seg :: rest) tc = (Raise e, tc2).
Proof.
  unfold run_stage. intros Hpre Hseg.
  apply bind_inv_ok in Hpre as [[] [tc0 [Hp Hpre]]].
  rewrite (bind_ok _ _ _ _ _ Hp).
  now apply (for_each_app_raise run_segment pre seg rest tc0 tc1).
Qed.

Lemma directive_raises_in_stage e stage_name seg tc tc1 tc2 :
  directive_raises e stage_name seg tc tc1 tc2 -> raised_in_stage e stage_name tc tc2.
Proof.
  intros [pre [rest [[[-> [Hs Hpre]] | [-> [Hs [tc0 [H0 Hpre]]]]] Hseg]]].
  - left. split; [reflexivity|]. rewrite Hs. now apply run_stage_app_raise with tc1.
  - right. split; [reflexivity|]. exists tc0. split; [exact H0|].
    rewrite Hs. now apply run_stage_app_raise with tc1.
Qed.

(** An exception of SETUP or TEST goes to the [except] clauses, and the
    stages that follow in the loop are not run. *)
Lemma run_stages_raised e stage_name tc tc1 :
  raised_in_stage e stage_name tc tc1 ->
  run_stages [("SETUP", setup tc); ("TEST", case tc)] tc = stage_except stage_name e tc1.
Proof.
  intros [[-> H] | [-> [tc0 [H0 H]]]]; cbn [run_stages].
  - now rewrite H.
  - now rewrite H0, H.
Qed.

Lemma stage_except_interrupt stage_name tc1 :
  stage_name = "SETUP" \/ stage_name = "TEST" ->
  stage_except stage_name KeyboardInterrupt tc1 =
  (Raise KeyboardInterrupt, interrupt_recorded stage_name tc1).
Proof. intros [-> | ->]; reflexivity. Qed.

Lemma raised_in_stage_name e stage_name tc tc1 :
  raised_in_stage e stage_name tc tc1 -> stage_name = "SETUP" \/ stage_name = "TEST".
Proof. intros [[-> _] | [-> _]]; auto. Qed.

(** C3, as amended. A keyboard interrupt raised during SETUP or TEST is
    recorded as an error and logged to the transcript, the rest of that
    stage and TEST after SETUP are skipped, and the interrupt is raised
    again; the TEARDOWN stage still runs, from the instance so recorded,
    since it is the [finally] clause; then the interrupt (or an exception
    that escapes TEARDOWN) leaves [run], which does not return and logs no
    summary. *)
Theorem interrupt_is_recorded_and_teardown_still_runs (tc tc1 : TestCase)
    (stage_name : string) :
  raised_in_stage KeyboardInterrupt stage_name tc tc1 ->
  run_stages [("SETUP", setup tc); ("TEST", case tc)] tc =
    (Raise KeyboardInterrupt, interrupt_recorded stage_name tc1) /\
  (exists r tc2,
      run_teardown (interrupt_recorded stage_name tc1) = (r, tc2) /\
      snd (run tc) = tc2 /\
      fst (run tc) = match r with
                     | Ok _ => Raise KeyboardInterrupt
                     | Raise e => Raise e
                     end) /\
  (forall n tc2, run tc <> (Ok n, tc2)).
Proof.
  intros H.
  assert (S : run_stages [("SETUP", setup tc); ("TEST", case tc)] tc =
              (Raise KeyboardInterrupt, interrupt_recorded stage_name tc1)).
  { rewrite (run_stages_raised _ _ _ _ H).
    apply stage_except_interrupt. now apply raised_in_stage_name in H. }
  assert (R : run tc =
              match run_teardown (interrupt_recorded stage_name tc1) with
              | (Ok _, tc2) => (Raise KeyboardInterrupt, tc2)
              | (Raise e, tc2) => (Raise e, tc2)
              end).
  { rewrite run_unfold, run_try_unfold, S.
    now destruct (run_teardown (interrupt_recorded stage_name tc1)) as [[[]|e] tc2]. }
  split; [exact S | split].
  - destruct (run_teardown (interrupt_recorded stage_name tc1)) as [r tc2] eqn:T.
    exists r, tc2. rewrite R. now destruct r.
  - intros n tc2. rewrite R.
    destruct (run_teardown (interrupt_recorded stage_name tc1)) as [[[]|e] tc3];
      discriminate.
Qed.




(** ** Containment directives in a stage *)

Lemma get_yaml_values_literals (values : list value) (tc : TestCase) :
  get_yaml_values (VList (map literal values)) tc = (Ok values, tc).
Proof.
  unfold get_yaml_values. unfold bind at 1. unfold lift at 1. cbn [iter].
  pose proof (comprehension_map_pure get_variable_or_literal literal
                (fun v => v) values tc (fun v => eq_refl)) as E.
  now rewrite map_id in E.
Qed.

(** What the adapter makes of a list of literals: the values, and the
    keyword arguments of a comparison that ignores case, with no message. *)
Lemma params_for_contains_literals (values : list value) (tc : TestCase) :
  values <> [] ->
  params_for_contains (VList (map literal values)) tc =
  (Ok (Some values,
       Some [("case_sensitive", VBool false); (KEY_CONTAINS_MESSAGE, VStr EmptyString)]),
   tc).
Proof.
  intros Hne. destruct values as [|v values]; [contradiction|].
  pose proof (get_yaml_values_literals (v :: values) tc) as G.
  unfold params_for_contains, string_and_params, bind, lift, ret.
  cbn -[get_yaml_values literal].
  change (contains_key KEY_CONTAINS_MESSAGE (literal v)) with (@Ok bool false).
  cbv beta iota. cbn [skipn].
  change (literal v :: map literal values) with (map literal (v :: values)).
  rewrite G. reflexivity.
Qed.

(** A containment directive on literals runs the checker of its entry in
    the dispatch table. *)
Lemma run_segment_containment (directive : string) (which : aggregator)
    (contains : bool) (values : list value) (tc : TestCase) :
  lookup_builtin directive (builtins (idx tc) (label tc)) =
    Some (VFun (F_checker which contains), Some A_params_for_contains) ->
  values <> [] ->
  run_segment [(directive, VList (map literal values))] tc =
  match contain_checker check_assert_that which contains values
          [("case_sensitive", VBool false); (KEY_CONTAINS_MESSAGE, VStr EmptyString)]
          tc with
  | (Ok _, tc') => (Ok tt, tc')
  | (Raise e, tc') => (Raise e, tc')
  end.
Proof.
  intros Hd Hne.
  unfold run_segment. unfold bind at 1. cbn [List.length Nat.ltb Nat.leb ret].
  unfold bind at 1. unfold get at 1. rewrite Hd. cbn [snd fst apply_adapter].
  rewrite (bind_ok _ _ _ _ _ (params_for_contains_literals values tc Hne)).
  cbv beta iota. unfold call_value, call_function, bind, ret.
  destruct (contain_checker _ _ _ _ _ tc) as [[[]|e] tc']; reflexivity.
Qed.

(** The checker on strings, with the keyword arguments that the adapter
    builds from literals: an assertion on the aggregated comparisons, with
    the default message. *)
Lemma contain_checker_on_strings (which : aggregator) (contains : bool)
    (values : list string) (tc : TestCase) :
  contain_checker check_assert_that which contains (map VStr values)
    [("case_sensitive", VBool false); (KEY_CONTAINS_MESSAGE, VStr EmptyString)] tc =
  assert_that
    (VBool (apply_which which
              (map (fun s => let b := str_in (lower s) (lower (last_call_output tc)) in
                             if contains then b else negb b) values)))
    (VStr (default_message which (map VStr values))) [] tc.
Proof.
  set (kwargs := [("case_sensitive", VBool false);
                  (KEY_CONTAINS_MESSAGE, VStr EmptyString)]).
  set (results := map (fun s => let b := str_in (lower s) (lower (last_call_output tc)) in
                                if contains then b else negb b) values).
  assert (C : comprehension
                (if contains
                 then fun substr =>
                        last_output_contains substr (remove_key KEY_CONTAINS_MESSAGE kwargs)
                 else fun substr =>
                        b <- last_output_contains substr
                               (remove_key KEY_CONTAINS_MESSAGE kwargs) ;;
                        ret (negb b))
                (map VStr values) tc = (Ok results, tc)).
  { unfold results. apply comprehension_map_pure. intros s.
    destruct contains; reflexivity. }
  unfold contain_checker, _check_several.
  unfold bind at 1. unfold lift.
  cbn [assoc kwargs KEY_CONTAINS_MESSAGE String.eqb Ascii.eqb Bool.eqb len
       String.length Nat.eqb].
  cbv iota beta. rewrite (bind_ok _ _ _ _ _ C).
  destruct which; reflexivity.
Qed.


(** A list comprehension stops at the first element whose evaluation
    raises. *)
Lemma comprehension_raises {A B} (f : A -> M B) (pre : list A) (x : A)
    (post : list A) (e : exn) (tc : TestCase) :
  Forall (fun a => exists y, f a tc = (Ok y, tc)) pre ->
  f x tc = (Raise e, tc) ->
  comprehension f (List.app pre (x :: post)) tc = (Raise e, tc).
Proof.
  intros Hpre Hx.
  induction Hpre as [|a pre [y Ha] _ IH]; cbn [List.app comprehension].
  - now apply bind_raise.
  - rewrite (bind_ok _ _ _ _ _ Ha). now apply bind_raise.
Qed.

(** The comparison that ignores case calls [lower] on the value, which
    only a string has. *)
Lemma contain_checker_not_a_string (which : aggregator) (contains : bool)
    (pre : list string) (v : value) (post : list value)
    (kwargs : list (string * value)) (tc : TestCase) :
  default_kwargs kwargs ->
  (forall s, v <> VStr s) ->
  contain_checker check_assert_that which contains
    (List.app (map VStr pre) (v :: post)) kwargs tc =
  (Raise (AttributeError ("'" ++ type_name v ++ "' object has no attribute 'lower'")), tc).
Proof.
  intros Hk Hv.
  assert (Hm : exists m : string,
             match assoc KEY_CONTAINS_MESSAGE kwargs with
             | Some m => m
             | None => VStr EmptyString
             end = VStr m).
  { destruct Hk as [-> | [message ->]]; eexists; reflexivity. }
  destruct Hm as [m Hm].
  assert (L : last_output_contains v (remove_key KEY_CONTAINS_MESSAGE kwargs) tc =
              (Raise (AttributeError
                        ("'" ++ type_name v ++ "' object has no attribute 'lower'")), tc)).
  { destruct Hk as [-> | [message ->]]; destruct v; try reflexivity;
      now contradiction (Hv s). }
  assert (C : comprehension
                (if contains
                 then fun substr =>
                        last_output_contains substr (remove_key KEY_CONTAINS_MESSAGE kwargs)
                 else fun substr =>
                        b <- last_output_contains substr
                               (remove_key KEY_CONTAINS_MESSAGE kwargs) ;;
                        ret (negb b))
                (List.app (map VStr pre) (v :: post)) tc =
              (Raise (AttributeError
                        ("'" ++ type_name v ++ "' object has no attribute 'lower'")), tc)).
  { apply comprehension_raises.
    - apply Forall_forall. intros a Ha. apply in_map_iff in Ha as [s [<- _]].
      destruct contains.
      + eexists. now apply last_output_contains_default.
      + eexists. rewrite (bind_ok _ _ _ _ _ (last_output_contains_default s kwargs tc Hk)).
        reflexivity.
    - destruct contains; [exact L | now apply bind_raise]. }
  unfold contain_checker. rewrite Hm. unfold _check_several.
  unfold bind at 1. unfold lift. simpl len. cbv iota beta.
  destruct (String.length m =? 0)%nat; now apply bind_raise.
Qed.


(** ** References to variables that are not bound *)

Lemma get_variable_or_literal_resolved (tc : TestCase) (en v : value) :
  resolved tc en v -> get_variable_or_literal en tc = (Ok v, tc).
Proof.
  intros [w | x w Hh Hl]; [reflexivity|].
  unfold reference, get_variable_or_literal, bind, lift, get, sym_getitem. simpl.
  now rewrite Hh, Hl.
Qed.

Lemma resolved_has_no_message (tc : TestCase) (en v : value) :
  resolved tc en v -> contains_key KEY_CONTAINS_MESSAGE en = Ok false.
Proof. intros [w | x w _ _]; reflexivity. Qed.

Section Unbound.

Variable name : value.
Variable tc : TestCase.
Hypothesis name_hashable : hashable name = true.
Hypothesis name_unbound : sym_lookup name (local_symbols tc) = None.

Lemma reference_unbound :
  get_variable_or_literal (reference name) tc = (Raise (KeyError name), tc).
Proof. now apply get_variable_or_literal_unbound. Qed.

(** The entries of a list are resolved in order, up to the reference that
    is not bound. *)
Lemma get_yaml_values_unbound (earlier more : list value) :
  Forall (fun en => exists v, resolved tc en v) earlier ->
  get_yaml_values (VList (List.app earlier (reference name :: more))) tc =
  (Raise (KeyError name), tc).
Proof.
  intros H. unfold get_yaml_values. unfold bind at 1. unfold lift at 1. cbn [iter].
  induction H as [|en earlier [v Hv] _ IH]; cbn [List.app comprehension].
  - apply bind_raise. exact reference_unbound.
  - rewrite (bind_ok _ _ _ _ _ (get_variable_or_literal_resolved tc en v Hv)).
    now apply bind_raise.
Qed.

(** The loops of [params_for_call] over the arguments and the parameters
    resolve the entry [proj b] of each element [b]. *)
Lemma fold_m_unbound {A B} (proj : B -> value) (g : A -> B -> value -> A)
    (acc : A) (earlier : list B) (x : B) (more : list B) :
  Forall (fun b => exists v, resolved tc (proj b) v) earlier ->
  proj x = reference name ->
  fold_m (fun a b => v <- get_variable_or_literal (proj b) ;; ret (g a b v))
    acc (List.app earlier (x :: more)) tc =
  (Raise (KeyError name), tc).
Proof.
  intros H Hx. revert acc.
  induction H as [|b earlier [v Hv] _ IH]; intros acc; cbn [List.app fold_m].
  - apply bind_raise. apply bind_raise. rewrite Hx. exact reference_unbound.
  - rewrite (bind_ok _ _ tc (g acc b v) tc).
    + apply IH.
    + now rewrite (bind_ok _ _ _ _ _ (get_variable_or_literal_resolved tc _ v Hv)).
Qed.

Lemma params_for_contains_unbound (earlier more : list value) :
  Forall (fun en => exists v, resolved tc en v) earlier ->
  params_for_contains (VList (List.app earlier (reference name :: more))) tc =
  (Raise (KeyError name), tc).
Proof.
  intros H. pose proof (get_yaml_values_unbound earlier more H) as G.
  assert (Hd : exists head rest,
             List.app earlier (reference name :: more) = head :: rest /\
             contains_key KEY_CONTAINS_MESSAGE head = Ok false).
  { destruct H as [|en earlier [v Hv] _].
    - now exists (reference name), more.
    - exists en, (List.app earlier (reference name :: more)).
      split; [reflexivity | exact (resolved_has_no_message tc en v Hv)]. }
  destruct Hd as [head [rest [E C]]]. rewrite E in *.
  unfold params_for_contains, string_and_params, bind, lift, ret.
  cbn [first_item]. rewrite C. cbv beta iota. cbn [slice_from skipn].
  now rewrite G.
Qed.

Lemma params_for_contains_message_unbound (head : list (string * value))
    (message : value) (earlier more : list value) :
  assoc KEY_CONTAINS_MESSAGE head = Some message ->
  Forall (fun en => exists v, resolved tc en v) earlier ->
  params_for_contains
    (VList (VDict head :: List.app earlier (reference name :: more))) tc =
  (Raise (KeyError name), tc).
Proof.
  intros Hm H. pose proof (get_yaml_values_unbound earlier more H) as G.
  unfold params_for_contains, string_and_params, bind, lift, ret.
  cbn [first_item contains_key getitem_key]. rewrite Hm. cbv beta iota.
  cbn [slice_from skipn]. now rewrite G.
Qed.

Lemma containment_directive_unbound (directive : string) (block : value) :
  In directive containment_directives ->
  params_for_contains block tc = (Raise (KeyError name), tc) ->
  run_segment [(directive, block)] tc = (Raise (KeyError name), tc).
Proof.
  intros Hd P. unfold containment_directives in Hd. simpl in Hd.
  destruct Hd as [<-|[<-|[<-|[<-|[<-|[]]]]]];
    unfold run_segment, bind, get, ret; cbn -[params_for_contains]; now rewrite P.
Qed.

(** A loop stops at the first element whose step raises. *)
Lemma fold_m_raises {A B} (f : A -> B -> M A) (acc : A) (before : list B) (x : B)
    (others : list B) (e : exn) :
  Forall (fun b => forall a, exists a', f a b tc = (Ok a', tc)) before ->
  (forall a, f a x tc = (Raise e, tc)) ->
  fold_m f acc (List.app before (x :: others)) tc = (Raise e, tc).
Proof.
  intros H Hx. revert acc.
  induction H as [|b before Hb _ IH]; intros acc; cbn [List.app fold_m].
  - apply bind_raise. apply Hx.
  - destruct (Hb acc) as [a' Ha]. rewrite (bind_ok _ _ _ _ _ Ha). apply IH.
Qed.

Lemma fold_m_resolved {A B} (proj : B -> value) (g : A -> B -> value -> A)
    (acc : A) (l : list B) :
  Forall (fun b => exists v, resolved tc (proj b) v) l ->
  exists acc',
    fold_m (fun a b => v <- get_variable_or_literal (proj b) ;; ret (g a b v))
      acc l tc = (Ok acc', tc).
Proof.
  intros H. revert acc.
  induction H as [|b l [v Hv] _ IH]; intros acc; cbn [fold_m].
  - now exists acc.
  - destruct (IH (g acc b v)) as [acc' E]. exists acc'.
    rewrite (bind_ok _ _ tc (g acc b v) tc); [exact E|].
    now rewrite (bind_ok _ _ _ _ _ (get_variable_or_literal_resolved tc _ v Hv)).
Qed.

(** The loop of [params_for_call] over the entries of the block stops at
    the entry that refers to [name], whatever its place. *)
Lemma params_for_call_unbound (before : list (string * value)) (kv : string * value)
    (others : list (string * value)) :
  (exists cmd, assoc key_cmd (List.app before (kv :: others)) = Some cmd) ->
  Forall (call_entry_resolved tc) before ->
  call_entry_refers tc name kv ->
  params_for_call (VDict (List.app before (kv :: others))) tc =
  (Raise (KeyError name), tc).
Proof.
  intros [cmd Hcmd] Hbefore [Hkey Hkv].
  assert (Hn : (List.length (List.app before (kv :: others)) <? 1)%nat = false).
  { apply Nat.ltb_ge. rewrite length_app. simpl. lia. }
  assert (Hn1 : (List.length (List.app before (kv :: others)) =? 1)%nat = false).
  { apply Nat.eqb_neq. rewrite length_app. simpl. intros H1.
    destruct before as [|b before]; [|simpl in H1; lia].
    destruct others as [|o others]; [|simpl in H1; lia].
    destruct kv as [key val]. cbn [List.app assoc fst] in Hcmd, Hkey.
    destruct (String.eqb key_cmd key) eqn:E; [|discriminate].
    apply String.eqb_eq in E. now apply Hkey. }
  unfold params_for_call. fold key_cmd.
  unfold bind at 1. unfold lift at 1. cbn [len]. rewrite Hn.
  unfold bind at 1. unfold bind at 1. unfold lift at 1. cbn [contains_key].
  rewrite Hcmd. unfold ret at 1. cbn [negb].
  unfold bind at 1. unfold ret at 1.
  unfold bind at 1. unfold lift at 1. cbn [getitem_key]. rewrite Hcmd, Hn1.
  unfold bind at 1. unfold lift at 1. cbn [items].
  apply bind_raise. apply fold_m_raises.
  - apply Forall_forall. intros [key val] Hin [args params].
    rewrite Forall_forall in Hbefore. specialize (Hbefore (key, val) Hin).
    unfold call_entry_resolved in Hbefore. cbn [fst snd] in Hbefore.
    destruct (String.eqb key key_cmd) eqn:Ek; [now eexists|].
    destruct Hbefore as [-> | [[-> [named [-> H]]] | [-> [vals [-> H]]]]].
    + now rewrite String.eqb_refl in Ek.
    + cbn [String.eqb Ascii.eqb Bool.eqb].
      unfold bind at 1. unfold lift at 1. cbn [items].
      destruct (fold_m_resolved (fun b : string * value => snd b)
                  (fun a b v => assoc_set (fst b) v a) params named H) as [acc' E].
      rewrite (bind_ok _ _ _ _ _ E). now eexists.
    + cbn [String.eqb Ascii.eqb Bool.eqb].
      unfold bind at 1. unfold lift at 1. cbn [iter].
      destruct (fold_m_resolved (fun b => b) (fun a b v => List.app a [v])
                  args vals H) as [acc' E].
      rewrite (bind_ok _ _ _ _ _ E). now eexists.
  - intros [args params]. destruct kv as [key val]. cbn [fst snd] in Hkey, Hkv.
    apply String.eqb_neq in Hkey. rewrite Hkey.
    destruct Hkv as [[-> [earlier [pname [more [-> H]]]]] | [-> [earlier [more [-> H]]]]].
    + cbn [String.eqb Ascii.eqb Bool.eqb].
      unfold bind at 1. unfold lift at 1. cbn [items].
      apply bind_raise.
      exact (fold_m_unbound (fun b : string * value => snd b)
               (fun a b v => assoc_set (fst b) v a) params
               earlier (pname, reference name) more H eq_refl).
    + cbn [String.eqb Ascii.eqb Bool.eqb].
      unfold bind at 1. unfold lift at 1. cbn [iter].
      apply bind_raise.
      exact (fold_m_unbound (fun b => b) (fun a b v => List.app a [v]) args
               earlier (reference name) more H eq_refl).
Qed.

Lemma call_directive_unbound (directive : string) (block : value) :
  directive = "call" \/ directive = "call_may_fail" ->
  params_for_call block tc = (Raise (KeyError name), tc) ->
  run_segment [(directive, block)] tc = (Raise (KeyError name), tc).
Proof.
  intros Hd P.
  destruct Hd as [-> | ->]; unfold run_segment, bind, get, ret;
    cbn -[params_for_call]; now rewrite P.
Qed.

End Unbound.

(** C10. Resolving the entry [{"variable": name}] for a name that is not
    bound in the symbol table raises [KeyError] and changes nothing. The
    [KeyError] leaves the directive whose argument block holds the entry:
    a containment directive, the entry at any place among its values, after
    a message or not; a call, the entry at any place among its arguments or
    its parameters, these at any place in the block; what is resolved
    before the entry being literals or references that are bound. These are
    the directives that resolve such entries. A directive of SETUP or TEST
    that raises the [KeyError], at any place in the stage, has it recorded
    by the [except Exception] clause as an error "UNHANDLED EXCEPTION in
    stage" of that stage, with the [repr] of the [KeyError]; in TEARDOWN
    the clause of the [finally] block records it the same way. No failure
    is recorded, and the exception is no [ConfigError]. *)
Theorem unbound_variable_is_unhandled_KeyError (name : value) (tc : TestCase) :
  hashable name = true ->
  sym_lookup name (local_symbols tc) = None ->
  get_variable_or_literal (reference name) tc = (Raise (KeyError name), tc) /\
  (forall directive earlier more,
      In directive containment_directives ->
      Forall (fun en => exists v, resolved tc en v) earlier ->
      run_segment
        [(directive, VList (List.app earlier (reference name :: more)))] tc =
        (Raise (KeyError name), tc) /\
      forall head message,
        assoc KEY_CONTAINS_MESSAGE head = Some message ->
        run_segment
          [(directive, VList (VDict head :: List.app earlier (reference name :: more)))]
          tc =
        (Raise (KeyError name), tc)) /\
  (forall directive before kv others,
      directive = "call" \/ directive = "call_may_fail" ->
      (exists cmd, assoc key_cmd (List.app before (kv :: others)) = Some cmd) ->
      Forall (call_entry_resolved tc) before ->
      call_entry_refers tc name kv ->
      run_segment [(directive, VDict (List.app before (kv :: others)))] tc =
      (Raise (KeyError name), tc)) /\
  (forall stage_name seg tc0,
      directive_raises (KeyError name) stage_name seg tc0 tc tc ->
      exists r tc',
        run_stages [("SETUP", setup tc0); ("TEST", case tc0)] tc0 = (r, tc') /\
        errors tc' =
          List.app (errors tc)
            [("UNHANDLED EXCEPTION in stage " ++ stage_name ++ " ",
              VStr (exn_repr (KeyError name) ++ nl ++ format_tb (KeyError name)), [])] /\
        failures tc' = failures tc) /\
  (forall seg before rest tc0,
      teardown tc0 = List.app before (seg :: rest) ->
      run_stage "TEARDOWN" before tc0 = (Ok tt, tc) ->
      run_segment seg tc = (Raise (KeyError name), tc) ->
      exists r tc',
        run_teardown tc0 = (r, tc') /\
        errors tc' =
          List.app (errors tc)
            [("UNHANDLED EXCEPTION in stage TEARDOWN",
              VStr (exn_repr (KeyError name) ++ nl ++ format_tb (KeyError name)), [])] /\
        failures tc' = failures tc) /\
  (forall msg, KeyError name <> ConfigError msg).
Proof.
  intros Hh Hl. split; [|split; [|split; [|split; [|split]]]].
  - now apply get_variable_or_literal_unbound.
  - intros directive earlier more Hd He. split.
    + apply containment_directive_unbound; [exact Hd|].
      now apply params_for_contains_unbound.
    + intros head message Hm. apply containment_directive_unbound; [exact Hd|].
      now apply params_for_contains_message_unbound with message.
  - intros directive before kv others Hd Hcmd Hb Hkv.
    apply call_directive_unbound; [exact Hd|].
    now apply params_for_call_unbound.
  - intros stage_name seg tc0 Hd.
    rewrite (run_stages_raised _ _ _ _ (directive_raises_in_stage _ _ _ _ _ _ Hd)).
    exact (stage_except_unhandled stage_name (KeyError name) tc I).
  - intros seg before rest tc0 Ht Hb Hs.
    unfold run_teardown. rewrite Ht.
    rewrite (run_stage_app_raise _ _ _ _ _ _ _ _ Hb Hs).
    exact (teardown_except_unhandled (KeyError name) tc I).
  - intros msg. discriminate.
Qed.

(** * Further properties *)

(** ** Formatting of messages without braces *)

Lemma count_placeholders_no_lbrace (s : string) :
  mem_char lbrace s = false -> count_placeholders s = 0.
Proof.
  induction s as [|c s IH]; [reflexivity|].
  intros H. simpl in H. apply orb_false_iff in H as [Hc Hs].
  destruct s as [|d s]; [reflexivity|].
  rewrite count_placeholders_cons2, Hc. simpl. now apply IH.
Qed.

Lemma format_go_braceless (args : list value) (s t : string) (num : numbering)
    (acc : string) :
  braceless s ->
  format_go args (s ++ t) None num acc = format_go args t None num (acc ++ s).
Proof.
  revert acc. induction s as [|c s IH]; intros acc [Hl Hr].
  - simpl. now rewrite append_nil_r.
  - simpl in Hl, Hr. apply orb_false_iff in Hl as [Hcl Hl].
    apply orb_false_iff in Hr as [Hcr Hr].
    change (String c s ++ t) with (String c (s ++ t)).
    cbn [format_go]. rewrite Hcl, Hcr.
    rewrite IH by (split; assumption).
    now rewrite append_assoc.
Qed.

Lemma format_go_padding (args : list value) (k n : nat) (num : numbering) (acc : string) :
  automatic num n ->
  n + k <= List.length args ->
  format_go args (str_mul "{} " k) None num acc =
  Ok (acc ++ spaced (firstn k (skipn n args))).
Proof.
  revert n num acc. induction k as [|k IH]; intros n num acc Hnum Hlen.
  - simpl. now rewrite append_nil_r.
  - destruct (nth_error args n) as [v|] eqn:Hv;
      [|apply nth_error_None in Hv; lia].
    assert (Hs : skipn n args = v :: skipn (S n) args).
    { clear - Hv. revert args Hv. induction n as [|n IHn]; intros [|a args] Hv;
        simpl in *; try discriminate.
      - now injection Hv as ->.
      - now apply IHn. }
    rewrite Hs. cbn [firstn spaced].
    change (str_mul "{} " (S k))
      with (String lbrace (String rbrace (String " " (str_mul "{} " k)))).
    assert (F : format_field args EmptyString num = Ok (str v, NumAuto (S n))).
    { unfold format_field, positional. cbn [String.eqb].
      destruct Hnum as [-> | [-> ->]]; now rewrite Hv. }
    cbn [format_go]. 
    change (Ascii.eqb lbrace lbrace) with true. cbv iota.
    change (Ascii.eqb rbrace lbrace) with false. cbv iota.
    change (Ascii.eqb rbrace rbrace) with true. cbv iota.
    rewrite F.
    change (Ascii.eqb " " lbrace) with false.
    change (Ascii.eqb " " rbrace) with false. cbv iota.
    rewrite (IH (S n) (NumAuto (S n))); [|now left | lia].
    f_equal. unfold str1. rewrite !append_assoc. reflexivity.
Qed.

Lemma format_string_no_braces (msg : string) (args : list value) :
  braceless msg ->
  format_string (VStr msg) args =
  Ok (match args with
      | [] => msg
      | _ => msg ++ ": " ++ spaced args
      end).
Proof.
  intros [Hl Hr]. unfold format_string, interpolate_symbols.
  rewrite interpolate_go_plain by exact Hl. cbn [append].
  destruct args as [|a args]; [reflexivity|].
  rewrite count_placeholders_no_lbrace by exact Hl.
  set (n := List.length (a :: args)).
  replace (Z.of_nat n - Z.of_nat 0)%Z with (Z.of_nat n) by lia.
  assert (Hz : (0 <? Z.of_nat n)%Z = true) by (apply Z.ltb_lt; unfold n; simpl; lia).
  rewrite Hz, Nat2Z.id. unfold format.
  rewrite format_go_braceless by (split; assumption).
  change (": " ++ str_mul "{} " n) with (String ":" (String " " (str_mul "{} " n))).
  cbn [format_go].
  change (Ascii.eqb ":" lbrace) with false. change (Ascii.eqb ":" rbrace) with false.
  change (Ascii.eqb " " lbrace) with false. change (Ascii.eqb " " rbrace) with false.
  cbv iota.
  rewrite (format_go_padding (a :: args) n 0 NumUnset); [|now right | unfold n; lia].
  cbn [skipn]. unfold n. rewrite firstn_all.
  f_equal. cbn [append]. unfold str1. rewrite !append_assoc. reflexivity.
Qed.

(** ** Expectations and assertions *)

Lemma print_out_braceless (msg : string) (args : list value) (tc : TestCase) :
  braceless msg ->
  print_out (VStr msg) args tc =
  (Ok tt,
   with_output
     (output tc ++ match args with
                   | [] => msg
                   | _ => msg ++ ": " ++ spaced args
                   end ++ nl) tc).
Proof.
  intros H. unfold print_out, bind, lift, append_output, modify. cbn [str].
  now rewrite format_string_no_braces.
Qed.

(** X1. A message without braces formats with any arguments and never
    raises: without arguments it is unchanged, and with arguments it is
    followed by [": "] and by each argument and a blank. [print_out] adds it
    to the transcript as one line and changes nothing else. *)
Theorem braceless_message_always_formats (msg : string) (args : list value)
    (tc : TestCase) :
  braceless msg ->
  let line := match args with
              | [] => msg
              | _ => msg ++ ": " ++ spaced args
              end in
  format_string (VStr msg) args = Ok line /\
  print_out (VStr msg) args tc = (Ok tt, with_output (output tc ++ line ++ nl) tc).
Proof.
  intros H line. split.
  - now apply format_string_no_braces.
  - now apply print_out_braceless.
Qed.

(** X2. [expect] never raises, whatever the message and the arguments: on
    a false condition it records one "FAILED EXPECTATION" failure and adds
    one line to the transcript, the message and the arguments printed after
    the label; on a true condition it changes nothing. *)
Theorem expect_never_raises (condition message : value) (args : list value)
    (tc : TestCase) :
  expect condition message args tc =
  (Ok tt,
   if truthy condition then tc
   else
     with_output
       (output tc ++ ("# FAILED EXPECTATION: " ++ spaced (message :: args)) ++ nl)
       (with_failures
          (List.app (failures tc) [("FAILED EXPECTATION", message, args)]) tc)).
Proof.
  unfold expect. destruct (truthy condition); [reflexivity|]. cbn [negb].
  unfold record_failure, bind, modify.
  rewrite print_out_braceless by (split; reflexivity).
  reflexivity.
Qed.

(** X3. A failed assertion whose message is a string without braces
    records the failure, adds the line "# FAILED ASSERTION: " and the
    message (with the arguments, if any) to the transcript, and raises
    [TestFailure] and nothing else. *)
Theorem assert_that_raises_TestFailure (condition : value) (message : string)
    (args : list value) (tc : TestCase) :
  truthy condition = false ->
  braceless message ->
  assert_that condition (VStr message) args tc =
  (Raise TestFailure,
   with_output
     (output tc ++ match args with
                   | [] => "# FAILED ASSERTION: " ++ message
                   | _ => ("# FAILED ASSERTION: " ++ message) ++ ": " ++ spaced args
                   end ++ nl)
     (with_failures
        (List.app (failures tc) [("FAILED ASSERTION", VStr message, args)]) tc)).
Proof.
  intros Hc [Hl Hr]. unfold assert_that. rewrite Hc. cbn [negb].
  unfold record_failure, bind, modify, lift. cbn [str_add].
  rewrite print_out_braceless; [reflexivity|].
  split; cbn [append mem_char]; assumption.
Qed.

(** ** Calls of external processes *)

Lemma format_call_failed (v : value) :
  format_string (VStr ("# FAILED ASSERTION: " ++ "call failed: " ++ dq ++ "{}" ++ dq)) [v] =
  Ok ("# FAILED ASSERTION: call failed: " ++ dq ++ str v ++ dq).
Proof.
  assert (E : format_string
                (VStr ("# FAILED ASSERTION: " ++ "call failed: " ++ dq ++ "{}" ++ dq)) [v] =
              format ("# FAILED ASSERTION: call failed: " ++ dq ++ "{}" ++ dq) [v])
    by reflexivity.
  rewrite E. cbv -[str append]. rewrite ?append_assoc. reflexivity.
Qed.

(** X4. [call_no_error] asserts on the exit code of the call: when the call
    returns the exit code 0 it returns the output and changes nothing more;
    when the call returns another exit code it records exactly one failure,
    whose message is [call failed: "{}"] with the tuple of the call's
    arguments, adds the line to the transcript and raises [TestFailure]. *)
Theorem call_no_error_asserts_exit_code (args : list value)
    (kwargs : list (string * value)) (tc tc1 : TestCase) (return_code : Z)
    (out : string) :
  call_allow_error args kwargs tc = (Ok (return_code, out), tc1) ->
  call_no_error args kwargs tc =
  if (return_code =? 0)%Z then (Ok out, tc1)
  else
    (Raise TestFailure,
     with_output
       (output tc1 ++
        ("# FAILED ASSERTION: call failed: " ++ dq ++ str (VTuple args) ++ dq) ++ nl)
       (with_failures
          (List.app (failures tc1)
             [("FAILED ASSERTION", VStr ("call failed: " ++ dq ++ "{}" ++ dq),
               [VTuple args])]) tc1)).
Proof.
  intros H. unfold call_no_error.
  rewrite (bind_ok _ _ _ _ _ H). cbv beta iota.
  destruct (return_code =? 0)%Z.
  - now rewrite (bind_ok _ _ tc1 tt tc1) by (now apply assert_that_passes).
  - unfold assert_that. cbn [truthy negb].
    unfold record_failure, bind, modify, lift, print_out, append_output. cbn [str_add str].
    rewrite format_call_failed. reflexivity.
Qed.

(** X5. When [_call_external] returns, the exit code and the output it
    returns are the last-call state, the symbol [_last_call_output] is
    bound to that output, and the transcript has grown and ends with that
    output. No failure and no error is recorded. *)
Theorem call_external_refreshes_last_output (cmd : string) (chdir : option string)
    (tc tc' : TestCase) (return_code : Z) (out : string) :
  _call_external cmd chdir tc = (Ok (return_code, out), tc') ->
  last_return_code tc' = return_code /\
  last_call_output tc' = out /\
  sym_lookup (VStr "_last_call_output") (local_symbols tc') = Some (VStr out) /\
  (exists text, output tc' = output tc ++ text ++ out) /\
  failures tc' = failures tc /\ errors tc' = errors tc.
Proof.
  unfold _call_external, print_out, set_symbol, append_output, tick, bind, lift,
    modify, get, ret, raise.
  destruct (format_string _ _) as [line|e]; cbn [fst snd]; [|intros H; discriminate].
  destruct (check_output _ _ _) as [o|rc o|e0]; cbn -[sym_setitem];
    try destruct (decode_utf8 o) as [d|e1]; cbn -[sym_update];
    intros H; inversion H; subst; clear H; cbn -[sym_update].
  - repeat split; try (apply sym_lookup_update_same; apply String.eqb_refl).
    exists (line ++ nl). now rewrite !append_assoc.
  - repeat split; try (apply sym_lookup_update_same; apply String.eqb_refl).
    exists (line ++ nl ++ "# ... call did not succeed  "). now rewrite !append_assoc.
Qed.

(** ** Dispatch *)

Lemma lookup_builtin_none (k : string) (t : list (string * (value * option adapter))) :
  ~ In k (map fst t) -> lookup_builtin k t = None.
Proof.
  induction t as [|[k' x] t IH]; [reflexivity|].
  intros H. simpl in *. destruct (String.eqb_spec k k') as [->|Hne].
  - exfalso. apply H. now left.
  - apply IH. intros Hin. apply H. now right.
Qed.

(** X6. A stage entry whose directive is not in the dispatch table raises
    [ConfigError] "unknown YAML directive", and one whose directive is a
    value or a function meant for embedded code only raises [ConfigError]
    "directive only available inside a code directive". In both cases no
    adapter and no handler is called: nothing is changed. *)
Theorem undispatched_directive_is_ConfigError (directive : string) (seg : value)
    (tc : TestCase) :
  (~ In directive (map fst (builtins (idx tc) (label tc))) ->
   run_segment [(directive, seg)] tc =
   (Raise (ConfigError ("unknown YAML directive: " ++ directive)), tc)) /\
  (In directive code_only ->
   run_segment [(directive, seg)] tc =
   (Raise (ConfigError
             ("directive only available inside a code directive: " ++ directive)), tc)).
Proof.
  split.
  - intros H. unfold run_segment, bind, get, ret. cbn [List.length Nat.ltb Nat.leb].
    now rewrite (lookup_builtin_none _ _ H).
  - intros H. unfold code_only in H. simpl in H.
    destruct H as [<-|[<-|[<-|[<-|[<-|[<-|[<-|[]]]]]]]]; reflexivity.
Qed.

(** X7. The directive [uuid] binds the name of its argument block to one
    fresh identifier and calls no handler: one identifier is drawn, the
    name is bound to it, and nothing is recorded or printed. *)
Theorem uuid_directive_binds_one_identifier (name : string) (tc : TestCase) :
  exists tc',
    run_segment [("uuid", VStr name)] tc = (Ok tt, tc') /\
    sym_lookup (VStr name) (local_symbols tc') = Some (VStr (uuid4 (ticks tc))) /\
    ticks tc' = S (ticks tc) /\
    failures tc' = failures tc /\ errors tc' = errors tc /\ output tc' = output tc /\
    last_call_output tc' = last_call_output tc.
Proof.
  eexists. split; [reflexivity|]. cbn -[sym_update].
  repeat split. apply sym_lookup_update_same. apply String.eqb_refl.
Qed.

(** X8. The directives [log] and [shell] need a first argument: with an
    argument block that is missing or empty the adapter yields no argument
    and the call of the handler raises [TypeError], nothing changed. *)
Theorem log_and_shell_need_an_argument (directive : string) (parts : value)
    (tc : TestCase) :
  directive = "log" \/ directive = "shell" ->
  parts = VNone \/ len parts = Ok 0 ->
  run_segment [(directive, parts)] tc =
  (Raise (TypeError "wrong number of positional arguments"), tc).
Proof.
  intros Hd Hp.
  assert (Y : yaml_args_string parts tc = (Ok (Some [], Some []), tc)).
  { destruct Hp as [-> | Hl]; [reflexivity|].
    unfold yaml_args_string, bind, lift.
    destruct parts; try reflexivity; rewrite Hl; reflexivity. }
  destruct Hd as [-> | ->]; unfold run_segment, bind, get, ret.
  - cbn -[yaml_args_string]. now rewrite Y.
  - cbn -[yaml_args_string]. now rewrite Y.
Qed.

(** ** Exceptions in TEARDOWN and call errors *)

(** X9. An assertion that fails in TEARDOWN does not leave the stage as a
    plain failure: the [TestFailure] is caught, an error "unexpected TEST
    FAILURE in stage TEARDOWN" is recorded and printed, and the [finally]
    block ends normally. *)
Theorem teardown_failure_is_recorded_as_error (tc tc1 : TestCase) :
  run_stage "TEARDOWN" (teardown tc) tc = (Raise TestFailure, tc1) ->
  run_teardown tc =
  (Ok tt,
   with_output (output tc1 ++ "unexpected TEST FAILURE in stage TEARDOWN" ++ nl)
     (with_errors
        (List.app (errors tc1)
           [("unexpected TEST FAILURE in stage TEARDOWN",
             VStr "test failure in stage TEARDOWN", [])]) tc1)).
Proof. intros H. unfold run_teardown. rewrite H. reflexivity. Qed.

(** X10. A keyboard interrupt in TEARDOWN is recorded as an error, printed
    and raised again: whatever SETUP and TEST did, [run] raises
    [KeyboardInterrupt] and logs no summary. *)
Theorem teardown_interrupt_leaves_run (tc tc1 tc2 : TestCase) (r : result unit) :
  run_stages [("SETUP", setup tc); ("TEST", case tc)] tc = (r, tc1) ->
  run_stage "TEARDOWN" (teardown tc1) tc1 = (Raise KeyboardInterrupt, tc2) ->
  run tc =
  (Raise KeyboardInterrupt,
   with_output (output tc2 ++ "KEYBOARD INTERRUPT in stage TEARDOWN" ++ nl)
     (with_errors
        (List.app (errors tc2)
           [("KEYBOARD INTERRUPT in stage TEARDOWN",
             VStr "keyboard interrupt detected", [])]) tc2)).
Proof.
  intros Hs Ht. rewrite run_unfold, run_try_unfold, Hs.
  unfold run_teardown. rewrite Ht. reflexivity.
Qed.

(** X11. A call error raised in SETUP or TEST is recorded as an error
    "CALL ERROR in stage" with the stage and the cause, and no failure is
    recorded; when the cause has no braces the line is printed and the [try]
    part ends normally, TEST skipped after SETUP. *)
Theorem call_error_is_recorded (tc tc1 : TestCase) (stage_name msg : string) :
  raised_in_stage (CallError msg) stage_name tc tc1 ->
  (exists r tc2,
      run_stages [("SETUP", setup tc); ("TEST", case tc)] tc = (r, tc2) /\
      errors tc2 =
        List.app (errors tc1)
          [("CALL ERROR in stage " ++ stage_name ++ " ", VStr msg, [])] /\
      failures tc2 = failures tc1) /\
  (braceless msg ->
   run_stages [("SETUP", setup tc); ("TEST", case tc)] tc =
   (Ok tt,
    with_output
      (output tc1 ++ (("CALL ERROR in stage " ++ stage_name ++ " ") ++ ": " ++ msg) ++ nl)
      (with_errors
         (List.app (errors tc1)
            [("CALL ERROR in stage " ++ stage_name ++ " ", VStr msg, [])]) tc1))).
Proof.
  intros H. rewrite (run_stages_raised _ _ _ _ H).
  pose proof (raised_in_stage_name _ _ _ _ H) as Hn.
  unfold stage_except, record_error, bind, modify. split.
  - match goal with |- context [print_out ?m ?a ?t] =>
      destruct (print_out_cases m a t) as [[text ->] | [e ->]] end;
      eexists; eexists; (split; [reflexivity|]); now simpl.
  - intros [Hl Hr]. rewrite print_out_braceless; [reflexivity|].
    destruct Hn as [-> | ->]; split; cbn [append mem_char]; assumption.
Qed.

(** ** The records only grow

    No method removes or rewrites what was recorded, printed or logged, and
    none touches the number, the label or the stages of the test case. *)

Lemma extends_refl (tc : TestCase) : extends tc tc.
Proof.
  unfold extends. repeat split; try lia;
    first [ exists []; now rewrite app_nil_r
          | exists EmptyString; now rewrite append_nil_r ].
Qed.

Lemma extends_trans (a b c : TestCase) : extends a b -> extends b c -> extends a c.
Proof.
  intros (F1 & E1 & O1 & L1 & I1 & B1 & S1 & C1 & T1 & K1)
         (F2 & E2 & O2 & L2 & I2 & B2 & S2 & C2 & T2 & K2).
  destruct F1 as [f1 F1], F2 as [f2 F2], E1 as [e1 E1], E2 as [e2 E2],
           O1 as [o1 O1], O2 as [o2 O2], L1 as [l1 L1], L2 as [l2 L2].
  unfold extends. repeat split; try congruence; try lia.
  - exists (f1 ++ f2)%list. now rewrite F2, F1, <- app_assoc.
  - exists (e1 ++ e2)%list. now rewrite E2, E1, <- app_assoc.
  - exists (o1 ++ o2). now rewrite O2, O1, append_assoc.
  - exists (l1 ++ l2)%list. now rewrite L2, L1, <- app_assoc.
Qed.

Lemma ao_ret {A} (a : A) : append_only (ret a).
Proof. intros tc. apply extends_refl. Qed.

Lemma ao_raise {A} (e : exn) : append_only (@raise A e).
Proof. intros tc. apply extends_refl. Qed.

Lemma ao_lift {A} (r : result A) : append_only (lift r).
Proof. intros tc. apply extends_refl. Qed.

Lemma ao_get : append_only get.
Proof. intros tc. apply extends_refl. Qed.

Lemma ao_modify (f : TestCase -> TestCase) :
  (forall tc, extends tc (f tc)) -> append_only (modify f).
Proof. intros H tc. apply H. Qed.

Lemma ao_bind {A B} (m : M A) (k : A -> M B) :
  append_only m -> (forall a, append_only (k a)) -> append_only (bind m k).
Proof.
  intros Hm Hk tc. unfold bind. specialize (Hm tc).
  destruct (m tc) as [[a|e] tc1]; simpl in *.
  - exact (extends_trans _ _ _ Hm (Hk a tc1)).
  - exact Hm.
Qed.

Lemma ao_raise_new {A} cls args : append_only (@raise_new A cls args).
Proof. unfold raise_new. destruct (cls args); apply ao_raise. Qed.

Lemma ao_for_each {A} (body : A -> M unit) (l : list A) :
  (forall x, append_only (body x)) -> append_only (for_each body l).
Proof.
  intros H. induction l as [|x l IH]; simpl.
  - apply ao_ret.
  - apply ao_bind; [apply H | intros _; exact IH].
Qed.

Lemma ao_comprehension {A B} (f : A -> M B) (l : list A) :
  (forall x, append_only (f x)) -> append_only (comprehension f l).
Proof.
  intros H. induction l as [|x l IH]; simpl.
  - apply ao_ret.
  - apply ao_bind; [apply H | intros y].
    apply ao_bind; [exact IH | intros ys; apply ao_ret].
Qed.

Lemma ao_fold_m {A B} (f : A -> B -> M A) (a : A) (l : list B) :
  (forall a x, append_only (f a x)) -> append_only (fold_m f a l).
Proof.
  intros H. revert a. induction l as [|x l IH]; simpl; intros a.
  - apply ao_ret.
  - apply ao_bind; [apply H | intros a'; apply IH].
Qed.

Create HintDb ao.

#[local] Hint Resolve ao_ret ao_raise ao_lift ao_get ao_raise_new : ao.

(** An update of one attribute extends the instance: the attribute is one
    that [extends] leaves free, or it gets more at its end. *)
Ltac ao_update :=
  intros ?; unfold extends; cbn;
  repeat split; try lia;
  first [ exists []; now rewrite app_nil_r
        | exists EmptyString; now rewrite append_nil_r
        | eexists; reflexivity ].

(** One step of the proof that a method only extends the instance. *)
Ltac ao_step :=
  lazymatch goal with
  | |- append_only (ret _) => apply ao_ret
  | |- append_only (raise _) => apply ao_raise
  | |- append_only (lift _) => apply ao_lift
  | |- append_only get => apply ao_get
  | |- append_only (raise_new _ _) => apply ao_raise_new
  | |- append_only (bind _ _) => apply ao_bind; [| intros ?]
  | |- append_only (for_each _ _) => apply ao_for_each; intros ?
  | |- append_only (comprehension _ _) => apply ao_comprehension; intros ?
  | |- append_only (fold_m _ _ _) => apply ao_fold_m; intros ? ?
  | |- append_only (modify _) => apply ao_modify; ao_update
  | |- append_only (match ?x with _ => _ end) => destruct x
  | |- append_only (let _ := _ in _) => cbv zeta
  | |- append_only _ => solve [auto with ao]
  end.

Ltac ao := repeat ao_step.

Lemma ao_logging_info msg : append_only (logging_info msg).
Proof. unfold logging_info. ao. Qed.

Lemma ao_log_raise {A} msg : append_only (@log_raise A msg).
Proof. unfold log_raise, logging_critical. ao. Qed.

Lemma ao_record_failure s m a : append_only (record_failure s m a).
Proof. unfold record_failure. ao. Qed.

Lemma ao_record_error s m a : append_only (record_error s m a).
Proof. unfold record_error. ao. Qed.

Lemma ao_append_output t : append_only (append_output t).
Proof. unfold append_output. ao. Qed.

Lemma ao_set_symbol k v : append_only (set_symbol k v).
Proof. unfold set_symbol. ao. Qed.

Lemma ao_tick : append_only tick.
Proof.
  intros tc. unfold extends. cbn. repeat split; try lia;
    first [ exists []; now rewrite app_nil_r
          | exists EmptyString; now rewrite append_nil_r ].
Qed.

#[local] Hint Resolve ao_logging_info ao_log_raise ao_record_failure ao_record_error
  ao_append_output ao_set_symbol ao_tick : ao.

Lemma ao_print_out m a : append_only (print_out m a).
Proof. unfold print_out. ao. Qed.

#[local] Hint Resolve ao_print_out : ao.

Lemma ao_expect c m a : append_only (expect c m a).
Proof. unfold expect. ao. Qed.

Lemma ao_assert_that c m a : append_only (assert_that c m a).
Proof. unfold assert_that. ao. Qed.

#[local] Hint Resolve ao_expect ao_assert_that : ao.

Lemma ao_fail : append_only fail.
Proof. unfold fail. ao. Qed.

Lemma ao_abort : append_only abort.
Proof. unfold abort. ao. Qed.

Lemma ao_get_uuid : append_only get_uuid.
Proof. unfold get_uuid. ao. Qed.

Lemma ao_get_env v : append_only (get_env v).
Proof. unfold get_env. ao. Qed.

#[local] Hint Resolve ao_fail ao_abort ao_get_uuid ao_get_env : ao.

Lemma ao_yaml_get_uuid v : append_only (yaml_get_uuid v).
Proof. unfold yaml_get_uuid. ao. Qed.

Lemma ao_params_for_set p : append_only (params_for_set p).
Proof. unfold params_for_set. ao. Qed.

#[local] Hint Resolve ao_yaml_get_uuid ao_params_for_set : ao.

Lemma ao_yaml_get_env p : append_only (yaml_get_env p).
Proof. unfold yaml_get_env. ao. Qed.

Lemma ao_extract_match p v g : append_only (extract_match p v g).
Proof. unfold extract_match. ao. Qed.

Lemma ao_yaml_extract_match p : append_only (yaml_extract_match p).
Proof. unfold yaml_extract_match. ao. Qed.

Lemma ao_call_external cmd chdir : append_only (_call_external cmd chdir).
Proof. unfold _call_external. ao. Qed.

#[local] Hint Resolve ao_yaml_get_env ao_extract_match ao_yaml_extract_match
  ao_call_external : ao.

Lemma ao_call_allow_error a k : append_only (call_allow_error a k).
Proof. unfold call_allow_error. ao. Qed.

#[local] Hint Resolve ao_call_allow_error : ao.

Lemma ao_call_no_error a k : append_only (call_no_error a k).
Proof. unfold call_no_error. ao. Qed.

Lemma ao_shell c a : append_only (shell c a).
Proof. unfold shell. ao. Qed.

Lemma ao_last_output_contains s k : append_only (last_output_contains s k).
Proof. unfold last_output_contains. ao. Qed.

#[local] Hint Resolve ao_call_no_error ao_shell ao_last_output_contains : ao.

Lemma ao_check_several check which condition message values :
  (forall v, append_only (condition v)) ->
  append_only (_check_several check which condition message values).
Proof. intros H. unfold _check_several, apply_check. destruct check; ao; apply H. Qed.

Lemma ao_contain_checker check which contains values kwargs :
  append_only (contain_checker check which contains values kwargs).
Proof.
  unfold contain_checker. apply ao_check_several. intros v.
  destruct contains; cbv beta; ao.
Qed.

Lemma ao_assert_success m a : append_only (assert_success m a).
Proof. unfold assert_success. ao. Qed.

Lemma ao_assert_failure m a : append_only (assert_failure m a).
Proof. unfold assert_failure. ao. Qed.

Lemma ao_get_variable_or_literal m : append_only (get_variable_or_literal m).
Proof. unfold get_variable_or_literal. ao. Qed.

#[local] Hint Resolve ao_contain_checker ao_assert_success ao_assert_failure
  ao_get_variable_or_literal : ao.

Lemma ao_get_yaml_values l : append_only (get_yaml_values l).
Proof. unfold get_yaml_values. ao. Qed.

#[local] Hint Resolve ao_get_yaml_values : ao.

Lemma ao_string_and_params n p s : append_only (string_and_params n p s).
Proof. unfold string_and_params. ao. Qed.

#[local] Hint Resolve ao_string_and_params : ao.

Lemma ao_params_for_contains p : append_only (params_for_contains p).
Proof. unfold params_for_contains. ao. Qed.

Lemma ao_lookup_values s : append_only (lookup_values s).
Proof. unfold lookup_values. ao. Qed.

#[local] Hint Resolve ao_params_for_contains ao_lookup_values : ao.

Lemma ao_yaml_args_string p : append_only (yaml_args_string p).
Proof. unfold yaml_args_string. ao. Qed.

Lemma ao_params_for_call p : append_only (params_for_call p).
Proof. unfold params_for_call. ao. Qed.

#[local] Hint Resolve ao_yaml_args_string ao_params_for_call : ao.

Lemma ao_call_function execute f args kwargs :
  (forall code, append_only (execute code)) ->
  append_only (call_function execute f args kwargs).
Proof.
  intros H. unfold call_function, no_kwargs, arity. ao; apply H.
Qed.



Lemma ao_exec_stmt call s :
  stmt_append_only s ->
  (forall f args kwargs, append_only (call f args kwargs)) ->
  append_only (exec_stmt call s).
Proof.
  intros Hs H. destruct s as [target f args kwargs | x v | e | body].
  - unfold exec_stmt. ao; apply H.
  - unfold exec_stmt. ao.
  - unfold exec_stmt. ao.
  - exact (Hs call H).
Qed.

Lemma ao_for_each_Forall {A} (body : A -> M unit) (l : list A) :
  Forall (fun x => append_only (body x)) l -> append_only (for_each body l).
Proof.
  induction 1 as [|x l Hx _ IH]; simpl.
  - apply ao_ret.
  - apply ao_bind; [exact Hx | intros _; exact IH].
Qed.

Lemma ao_bind_lift {A B} (r : result A) (k : A -> M B) :
  (forall a, r = Ok a -> append_only (k a)) -> append_only (bind (lift r) k).
Proof.
  intros H tc. unfold bind, lift. destruct r as [a|e]; [|apply extends_refl].
  exact (H a eq_refl tc).
Qed.

Lemma ao_apply_adapter a s : append_only (apply_adapter a s).
Proof. unfold apply_adapter. ao. Qed.

#[local] Hint Resolve ao_apply_adapter : ao.

Lemma ao_stage_except name e : append_only (stage_except name e).
Proof. unfold stage_except. ao. Qed.

Lemma ao_teardown_except e : append_only (teardown_except e).
Proof. unfold teardown_except. ao. Qed.

Lemma ao_try_finally {A} (body : M A) (final : M unit) :
  append_only body -> append_only final -> append_only (try_finally body final).
Proof.
  intros Hb Hf tc. unfold try_finally. specialize (Hb tc).
  destruct (body tc) as [r tc1]. specialize (Hf tc1).
  destruct (final tc1) as [[[]|e] tc2]; simpl in *;
    exact (extends_trans _ _ _ Hb Hf).
Qed.

Lemma ao_log_failures l b : append_only (log_failures l b).
Proof. revert b. induction l as [|x l IH]; intros b; simpl; ao. Qed.

Lemma ao_log_errors l b : append_only (log_errors l b).
Proof. revert b. induction l as [|x l IH]; intros b; simpl; ao. Qed.

#[local] Hint Resolve ao_log_failures ao_log_errors : ao.

Lemma ao_summary : append_only summary.
Proof. unfold summary. ao. Qed.

(** *** With embedded code that only extends the instance *)

Section CodeAppendOnly.

Hypothesis code_extends : code_append_only.

Lemma ao_execute depth code : append_only (execute depth code).
Proof.
  revert code. induction depth as [|d IH]; intros code; simpl.
  - ao.
  - destruct code as [ | b | z | source | l | l | dict | f ]; try apply ao_raise.
    apply ao_bind_lift. intros program C.
    apply ao_for_each_Forall.
    eapply Forall_impl; [|exact (code_extends source program C)].
    intros st Hst. apply ao_exec_stmt; [exact Hst|].
    intros f args kwargs. now apply ao_call_function.
Qed.

Lemma ao_call_value v args kwargs : append_only (call_value v args kwargs).
Proof.
  unfold call_value. ao. apply ao_call_function. intros code. apply ao_execute.
Qed.

#[local] Hint Resolve ao_call_value : ao.

Lemma ao_run_segment s : append_only (run_segment s).
Proof. unfold run_segment. ao. Qed.

#[local] Hint Resolve ao_run_segment : ao.

Lemma ao_run_stage name spec : append_only (run_stage name spec).
Proof. unfold run_stage, run_segments_of. ao. Qed.

Lemma ao_run_stages stages : append_only (run_stages stages).
Proof.
  induction stages as [|[name spec] rest IH]; intros tc; simpl.
  - apply extends_refl.
  - pose proof (ao_run_stage name spec tc) as H.
    destruct (run_stage name spec tc) as [[[]|e] tc1]; simpl in H.
    + exact (extends_trans _ _ _ H (IH tc1)).
    + exact (extends_trans _ _ _ H (ao_stage_except name e tc1)).
Qed.

Lemma ao_run_teardown : append_only run_teardown.
Proof.
  intros tc. unfold run_teardown.
  pose proof (ao_run_stage "TEARDOWN" (teardown tc) tc) as H.
  destruct (run_stage "TEARDOWN" (teardown tc) tc) as [[[]|e] tc1]; simpl in *.
  - exact H.
  - exact (extends_trans _ _ _ H (ao_teardown_except e tc1)).
Qed.

Lemma ao_run_try : append_only run_try.
Proof.
  unfold run_try. apply ao_bind; [apply ao_get | intros tc].
  apply ao_try_finally; [apply ao_run_stages | apply ao_run_teardown].
Qed.

Lemma ao_run : append_only run.
Proof.
  unfold run. apply ao_bind; [apply ao_run_try | intros _; apply ao_summary].
Qed.

End CodeAppendOnly.

(** X12. A run never rewrites history, provided the embedded code of the
    platform does not: when every statement of embedded code only extends
    the instance as long as the functions it calls do (so code that only
    calls the functions of the symbol table, binds names and raises), then
    whatever the stages do and however the run ends, the failures, the
    errors, the transcript and the log that the instance had are still
    there, in place, with what the run added after them; the number, the
    label and the three stages of the test case are what they were. *)
Theorem run_only_extends (tc : TestCase) :
  code_append_only -> extends tc (snd (run tc)).
Proof. intros H. exact (ao_run H tc). Qed.

(** ** Interpolation of symbols *)

Lemma interpolate_go_prefix resolver (pre t acc : string) :
  mem_char lbrace pre = false ->
  interpolate_go resolver (pre ++ t) None acc =
  interpolate_go resolver t None (acc ++ pre).
Proof.
  revert acc. induction pre as [|c pre IH]; intros acc H.
  - simpl. now rewrite append_nil_r.
  - simpl in H. apply orb_false_iff in H as [Hc Hp].
    change (String c pre ++ t) with (String c (pre ++ t)).
    cbn [interpolate_go]. rewrite Hc, IH by exact Hp.
    now rewrite append_assoc.
Qed.

Lemma interpolate_go_name resolver (name post read acc : string) :
  mem_char rbrace name = false ->
  interpolate_go resolver (name ++ String rbrace post) (Some read) acc =
  if String.eqb (read ++ name) EmptyString
  then interpolate_go resolver post None (acc ++ str1 lbrace ++ str1 rbrace)
  else match resolver (read ++ name) with
       | Ok text => interpolate_go resolver post None (acc ++ text)
       | Raise e => Raise e
       end.
Proof.
  revert read. induction name as [|c name IH]; intros read H.
  - rewrite append_nil_r. cbn [append interpolate_go].
    change (Ascii.eqb rbrace rbrace) with true. reflexivity.
  - simpl in H. apply orb_false_iff in H as [Hc Hn].
    change (String c name ++ String rbrace post)
      with (String c (name ++ String rbrace post)).
    cbn [interpolate_go]. rewrite Hc, IH by exact Hn.
    unfold str1. rewrite append_assoc. reflexivity.
Qed.

(** X13. A message with one symbol in braces, formatted without arguments:
    the braces and the name are replaced by what the environment resolves
    the name to, the text around them is kept, and the replacement is not
    scanned again; when the environment cannot resolve the name its
    exception is the result; empty braces are left as they are. *)
Theorem format_string_interpolates_symbol (pre name post : string) :
  mem_char lbrace pre = false ->
  mem_char rbrace name = false ->
  mem_char lbrace post = false ->
  format_string (VStr (pre ++ str1 lbrace ++ name ++ str1 rbrace ++ post)) [] =
  if String.eqb name EmptyString then Ok (pre ++ str1 lbrace ++ str1 rbrace ++ post)
  else match get_symbol name with
       | Ok text => Ok (pre ++ text ++ post)
       | Raise e => Raise e
       end.
Proof.
  intros Hpre Hname Hpost. unfold format_string, interpolate_symbols.
  rewrite interpolate_go_prefix by exact Hpre.
  change (str1 lbrace ++ name ++ str1 rbrace ++ post)
    with (String lbrace (name ++ String rbrace post)).
  cbn [interpolate_go]. change (Ascii.eqb lbrace lbrace) with true. cbv iota.
  rewrite interpolate_go_name by exact Hname.
  cbn [append]. destruct (String.eqb name EmptyString).
  - rewrite interpolate_go_plain by exact Hpost. now rewrite !append_assoc.
  - destruct (get_symbol name) as [text|e]; [|reflexivity].
    rewrite interpolate_go_plain by exact Hpost. now rewrite !append_assoc.
Qed.

(** ** Indentation of the transcript *)

Lemma split_go_line (line cur : string) :
  mem_char newline line = false ->
  split_go newline line cur = [cur ++ line].
Proof.
  revert cur. induction line as [|c line IH]; intros cur H.
  - simpl. now rewrite append_nil_r.
  - simpl in H. apply orb_false_iff in H as [Hc Hl].
    cbn [split_go]. rewrite Hc, IH by exact Hl.
    unfold str1. now rewrite append_assoc.
Qed.

Lemma split_go_first_line (line rest cur : string) :
  mem_char newline line = false ->
  split_go newline (line ++ nl ++ rest) cur =
  (cur ++ line) :: split_go newline rest EmptyString.
Proof.
  change (nl ++ rest) with (String newline rest).
  revert cur. induction line as [|c line IH]; intros cur H.
  - rewrite append_nil_r. cbn [append split_go].
    change (Ascii.eqb newline newline) with true. reflexivity.
  - simpl in H. apply orb_false_iff in H as [Hc Hl].
    change (String c line ++ String newline rest)
      with (String c (line ++ String newline rest)).
    cbn [split_go]. rewrite Hc, IH by exact Hl.
    unfold str1. now rewrite append_assoc.
Qed.

Lemma join_cons (sep line next : string) (lines : list string) :
  join sep (line :: next :: lines) = line ++ sep ++ join sep (next :: lines).
Proof. reflexivity. Qed.

Lemma split_join (lines : list string) :
  lines <> [] ->
  Forall (fun line => mem_char newline line = false) lines ->
  split newline (join nl lines) = lines.
Proof.
  intros Hne H. unfold split.
  induction H as [|line lines Hl Hrest IH]; [contradiction|].
  destruct lines as [|next lines].
  - unfold join. cbn [String.concat]. now rewrite split_go_line.
  - rewrite join_cons, split_go_first_line by exact Hl.
    cbn [append]. f_equal. apply IH. discriminate.
Qed.

(** X14. [reindent] works line by line: a text of one or more lines,
    joined by newlines, becomes the same lines in the same order, each
    after the blanks and the prompt, joined by newlines. So the transcript
    that the summary logs has every line of the output, none merged and none
    dropped. *)
Theorem reindent_prefixes_every_line (lines : list string) (numSpaces : nat)
    (prompt : string) :
  lines <> [] ->
  Forall (fun line => mem_char newline line = false) lines ->
  reindent (join nl lines) numSpaces prompt =
  join nl (map (fun line => str_mul " " numSpaces ++ prompt ++ line) lines).
Proof.
  intros Hne H. unfold reindent.
  change (ascii_of_nat 10) with newline.
  now rewrite split_join.
Qed.

(** ** Containment directives on literal values *)

Lemma requirement_apply_which (present : string -> Prop) (test : string -> bool)
    (which : aggregator) (contains : bool) (values : list string) :
  (forall v, present v <-> test v = true) ->
  requirement present which contains values <->
  apply_which which
    (map (fun s => let b := test s in if contains then b else negb b) values) = true.
Proof.
  intros Hp.
  set (f := fun s : string => let b := test s in if contains then b else negb b).
  assert (C : forall v, (if contains then present v else ~ present v) <-> f v = true).
  { intros v. unfold f. cbv zeta. destruct contains.
    - apply Hp.
    - rewrite Hp. rewrite negb_true_iff.
      destruct (test v); split; congruence. }
  unfold requirement, apply_which. destruct which.
  - rewrite Exists_exists. rewrite existsb_exists. split.
    + intros [v [Hin Hv]]. exists (f v). split; [now apply in_map | now apply C].
    + intros [b [Hin Hb]]. apply in_map_iff in Hin as [v [<- Hin]].
      exists v. split; [exact Hin | now apply C].
  - rewrite Forall_forall. rewrite forallb_forall. split.
    + intros H b Hin. apply in_map_iff in Hin as [v [<- Hin]]. apply C. now apply H.
    + intros H v Hin. apply C. apply H. now apply in_map.
Qed.

Lemma meets_apply_which (which : aggregator) (contains : bool)
    (values : list string) (out : string) :
  meets which contains values out <->
  apply_which which
    (map (fun s => let b := str_in (lower s) (lower out) in
                   if contains then b else negb b) values) = true.
Proof.
  apply requirement_apply_which. intros v. symmetry. apply occurs_str_in.
Qed.

(** X15. The five containment directives, given one or more literal
    values. When every value is a string, the directive that the dispatch
    table maps to the checker of [which] and [contains] passes, changing
    nothing, exactly when the last output meets the requirement, case
    ignored ([occurs]: a part of the output is the value but for the case of
    its letters); otherwise it records one "FAILED ASSERTION" failure with
    the default message and no error, and raises. When a value is not a
    string (as in [- literal: 42]), the directive raises [AttributeError]
    for the first such value, whatever the output and the other values, and
    records nothing: no condition is aggregated. *)
Theorem containment_directive_on_literals (directive : string) (which : aggregator)
    (contains : bool) (values : list value) (tc : TestCase) :
  lookup_builtin directive (builtins (idx tc) (label tc)) =
    Some (VFun (F_checker which contains), Some A_params_for_contains) ->
  values <> [] ->
  (forall strings,
      values = map VStr strings ->
      (meets which contains strings (last_call_output tc) ->
       run_segment [(directive, VList (map literal values))] tc = (Ok tt, tc)) /\
      (~ meets which contains strings (last_call_output tc) ->
       exists e tc',
         run_segment [(directive, VList (map literal values))] tc = (Raise e, tc') /\
         failures tc' =
           List.app (failures tc)
             [("FAILED ASSERTION", VStr (default_message which values), [])] /\
         errors tc' = errors tc)) /\
  (forall strings v more,
      values = List.app (map VStr strings) (v :: more) ->
      (forall s, v <> VStr s) ->
      run_segment [(directive, VList (map literal values))] tc =
      (Raise (AttributeError ("'" ++ type_name v ++ "' object has no attribute 'lower'")),
       tc)).
Proof.
  intros Hd Hne.
  pose proof (run_segment_containment directive which contains values tc Hd Hne) as R.
  split.
  - intros strings ->. rewrite R, contain_checker_on_strings. split.
    + intros Hm. apply meets_apply_which in Hm.
      rewrite assert_that_passes by (cbn [truthy]; exact Hm). reflexivity.
    + intros Hm. rewrite meets_apply_which in Hm. apply not_true_is_false in Hm.
      destruct (assert_that_fails
                  (VBool (apply_which which
                     (map (fun s => let b := str_in (lower s) (lower (last_call_output tc)) in
                                    if contains then b else negb b) strings)))
                  (VStr (default_message which (map VStr strings))) [] tc)
        as [e [tc' [F [Hf He]]]]; [cbn [truthy]; exact Hm|].
      exists e, tc'. split; [|split; assumption].
      rewrite F. reflexivity.
  - intros strings v more -> Hv. rewrite R.
    rewrite contain_checker_not_a_string;
      [reflexivity | right; now exists EmptyString | exact Hv].
Qed.

(** ** The command line of [shell] *)

Lemma skipn_nth_error {A} (n : nat) (l : list A) (v : A) :
  nth_error l n = Some v -> skipn n l = v :: skipn (S n) l.
Proof.
  revert l. induction n as [|n IH]; intros [|a l] H; simpl in *; try discriminate.
  - now injection H as ->.
  - now apply IH.
Qed.

Lemma format_go_blanks (args : list value) (k n : nat) (num : numbering) (acc : string) :
  automatic num n ->
  n + k <= List.length args ->
  format_go args (str_mul " {}" k) None num acc =
  Ok (acc ++ blanked (firstn k (skipn n args))).
Proof.
  revert n num acc. induction k as [|k IH]; intros n num acc Hnum Hlen.
  - simpl. now rewrite append_nil_r.
  - destruct (nth_error args n) as [v|] eqn:Hv;
      [|apply nth_error_None in Hv; lia].
    rewrite (skipn_nth_error _ _ _ Hv). cbn [firstn blanked].
    change (str_mul " {}" (S k))
      with (String " " (String lbrace (String rbrace (str_mul " {}" k)))).
    assert (F : format_field args EmptyString num = Ok (str v, NumAuto (S n))).
    { unfold format_field, positional. cbn [String.eqb].
      destruct Hnum as [-> | [-> ->]]; now rewrite Hv. }
    cbn [format_go].
    change (Ascii.eqb " " lbrace) with false.
    change (Ascii.eqb " " rbrace) with false. cbv iota.
    change (Ascii.eqb lbrace lbrace) with true. cbv iota.
    change (Ascii.eqb rbrace lbrace) with false. cbv iota.
    change (Ascii.eqb rbrace rbrace) with true. cbv iota.
    rewrite F.
    rewrite (IH (S n) (NumAuto (S n))); [|now left | lia].
    f_equal. unfold str1. rewrite !append_assoc. reflexivity.
Qed.

Lemma count_placeholders_blanks (k : nat) :
  count_placeholders (str_mul " {}" k) = k.
Proof.
  induction k as [|k IH]; [reflexivity|].
  change (str_mul " {}" (S k))
    with (String " " (String lbrace (String rbrace (str_mul " {}" k)))).
  rewrite count_placeholders_space, count_placeholders_cons2.
  change (Ascii.eqb lbrace lbrace && Ascii.eqb rbrace rbrace) with true.
  cbv iota. now rewrite IH.
Qed.

Lemma count_placeholders_command (cmd : string) (k : nat) :
  mem_char lbrace cmd = false ->
  count_placeholders (cmd ++ str_mul " {}" k) = k.
Proof.
  intros H. destruct k as [|k].
  - cbn [str_mul]. rewrite append_nil_r. now apply count_placeholders_no_lbrace.
  - change (str_mul " {}" (S k))
      with (String " " (String lbrace (String rbrace (str_mul " {}" k)))).
    rewrite count_placeholders_app by discriminate.
    rewrite count_placeholders_no_lbrace by exact H.
    apply (count_placeholders_blanks (S k)).
Qed.

Lemma interpolate_go_blanks resolver (k : nat) (acc : string) :
  interpolate_go resolver (str_mul " {}" k) None acc = Ok (acc ++ str_mul " {}" k).
Proof.
  revert acc. induction k as [|k IH]; intros acc.
  - simpl. now rewrite append_nil_r.
  - change (str_mul " {}" (S k))
      with (String " " (String lbrace (String rbrace (str_mul " {}" k)))).
    cbn [interpolate_go].
    change (Ascii.eqb " " lbrace) with false.
    change (Ascii.eqb lbrace lbrace) with true.
    change (Ascii.eqb rbrace rbrace) with true. cbv iota.
    cbn [String.eqb]. rewrite IH. f_equal. unfold str1.
    now rewrite !append_assoc.
Qed.

(** X16. The command line that [shell] runs is the command followed by
    each argument after a blank: for a command without braces the arguments
    fill the placeholders that [shell] adds, none is left for the padding,
    and the formatting never raises. *)
Theorem shell_command_line (cmd : string) (args : list value) (tc : TestCase) :
  braceless cmd ->
  shell (VStr cmd) args tc = _call_external (cmd ++ blanked args) None tc.
Proof.
  intros [Hl Hr].
  assert (F : format_string (VStr (cmd ++ str_mul " {}" (List.length args))) args =
              Ok (cmd ++ blanked args)).
  { unfold format_string, interpolate_symbols.
    rewrite interpolate_go_prefix by exact Hl.
    rewrite interpolate_go_blanks. cbn [append].
    destruct args as [|a args].
    - cbn [List.length str_mul blanked]. reflexivity.
    - rewrite count_placeholders_command by exact Hl.
      rewrite Z.sub_diag. cbn [Z.ltb Z.compare]. unfold format.
      rewrite format_go_braceless by (split; assumption).
      rewrite (format_go_blanks _ _ 0 NumUnset); [|now right | lia].
      cbn [skipn]. now rewrite firstn_all. }
  unfold shell. unfold bind at 1. unfold lift at 1.
  unfold bind at 1. unfold lift at 1. now rewrite F.
Qed.

(** ** [assert_success] and [assert_failure] without a message *)

(** X17. Without a message, [assert_failure] fails with its default text
    when the last call succeeded. [assert_success] does not when the last
    call failed: its default text goes to a variable that is never read, the
    empty list that is the default of [message] is recorded as the message of
    the failure, and joining it to the label raises [TypeError] in place of
    [TestFailure], before anything is printed. *)
Theorem assert_success_has_no_default_message (tc : TestCase) :
  run_segment [("assert_failure", VNone)] tc =
    (if (last_return_code tc =? 0)%Z then
       (Raise TestFailure,
        with_output
          (output tc ++ "# FAILED ASSERTION: expected last call to fail" ++ nl)
          (with_failures
             (List.app (failures tc)
                [("FAILED ASSERTION", VStr "expected last call to fail", [])]) tc))
     else (Ok tt, tc)) /\
  run_segment [("assert_success", VNone)] tc =
    (if (last_return_code tc =? 0)%Z then (Ok tt, tc)
     else
       (Raise (TypeError ("can only concatenate str (not " ++ dq ++ "list" ++ dq ++
                          ") to str")),
        with_failures
          (List.app (failures tc) [("FAILED ASSERTION", VList [], [])]) tc)).
Proof.
  split.
  - unfold run_segment, bind, get, ret. cbn -[Z.eqb print_out].
    unfold assert_failure, assert_that, bind, get. cbn -[Z.eqb print_out].
    destruct (last_return_code tc =? 0)%Z; cbn -[print_out]; [|reflexivity].
    unfold record_failure, modify, lift. rewrite print_out_plain by reflexivity.
    reflexivity.
  - unfold run_segment, bind, get, ret. cbn -[Z.eqb print_out].
    unfold assert_success, assert_that, bind, get. cbn -[Z.eqb print_out].
    destruct (last_return_code tc =? 0)%Z; reflexivity.
Qed.

(** ** The directive [log] *)

Lemma lookup_values_names (names : list string) (tc : TestCase) :
  lookup_values (VList (map VStr names)) tc =
  (Ok (map (value_or_quoted (local_symbols tc)) names), tc).
Proof.
  unfold lookup_values. unfold bind at 1. unfold lift at 1. cbn [iter].
  apply comprehension_map_pure. intros name.
  unfold bind, get, lift, sym_get, value_or_quoted. cbn [hashable str].
  destruct (sym_lookup (VStr name) (local_symbols tc)); reflexivity.
Qed.

(** X18. The directive [log] with a text without braces and a list of
    names prints one line: the text, and after it the value of each name, or
    the name in double quotes when it is not bound. An unbound name is no
    error here. Nothing else changes. *)
Theorem log_directive_prints_values (text : string) (names : list string)
    (tc : TestCase) :
  braceless text ->
  run_segment [("log", VList (VStr text :: map VStr names))] tc =
  (Ok tt,
   with_output
     (output tc ++
      match names with
      | [] => text
      | _ => text ++ ": " ++ spaced (map (value_or_quoted (local_symbols tc)) names)
      end ++ nl) tc).
Proof.
  intros Hb.
  assert (Y : yaml_args_string (VList (VStr text :: map VStr names)) tc =
              (Ok (Some (VStr text :: map (value_or_quoted (local_symbols tc)) names),
                   Some []), tc)).
  { unfold yaml_args_string. unfold bind at 1. unfold lift at 1.
    cbn [len List.length Nat.eqb]. unfold bind at 1. unfold lift at 1.
    cbn [first_item]. unfold bind at 1. unfold lift at 1. cbn [slice_from skipn].
    now rewrite (bind_ok _ _ _ _ _ (lookup_values_names names tc)). }
  unfold run_segment. unfold bind at 1. cbn [List.length Nat.ltb Nat.leb ret].
  unfold bind at 1. unfold get at 1.
  cbn [lookup_builtin builtins String.eqb Ascii.eqb Bool.eqb snd fst apply_adapter].
  rewrite (bind_ok _ _ _ _ _ Y). cbv beta iota.
  unfold call_value, call_function, no_kwargs, bind, ret.
  rewrite print_out_braceless by exact Hb.
  destruct names; reflexivity.
Qed.

(** ** The adapters of [call] and [env] *)

(** X19. A [call] or [call_may_fail] directive whose argument block is a
    mapping without the target key logs a critical message that names the
    key and raises [ValueError] with the same message. No call is resolved
    and no process is started: but for the log the instance is unchanged. *)
Theorem call_directive_needs_target (directive : string) (block : list (string * value))
    (tc : TestCase) :
  directive = "call" \/ directive = "call_may_fail" ->
  assoc key_cmd block = None ->
  let message := "when calling artifacts, the first parameter must be " ++ dq ++
                 "- " ++ key_cmd ++ ": TARGET" ++ dq in
  run_segment [(directive, VDict block)] tc =
  (Raise (ValueError message),
   with_logging (List.app (logging tc) [(CRITICAL, message)]) tc).
Proof.
  intros Hd Hk message.
  assert (P : params_for_call (VDict block) tc =
              (Raise (ValueError message),
               with_logging (List.app (logging tc) [(CRITICAL, message)]) tc)).
  { unfold params_for_call. fold key_cmd. unfold bind at 1. unfold lift at 1.
    cbn [len]. unfold bind at 1.
    assert (A : (if (List.length block <? 1)%nat
                 then ret true
                 else present <- lift (contains_key key_cmd (VDict block)) ;;
                      ret (negb present)) tc = (Ok true, tc)).
    { destruct (List.length block <? 1)%nat; [reflexivity|].
      unfold bind, lift, ret. cbn [contains_key]. now rewrite Hk. }
    rewrite A. unfold bind at 1. reflexivity. }
  destruct Hd as [-> | ->]; unfold run_segment, bind, get, ret;
    cbn -[params_for_call]; now rewrite P.
Qed.

(** X20. The directive [env] with a block that names an environment
    variable and a variable: when the environment variable is set, the
    variable is bound to its value and nothing else changes; when it is not
    set, [KeyError] is raised and nothing is bound. No handler is called. *)
Theorem env_directive_binds_or_raises (block : list (string * value))
    (variable name : string) (tc : TestCase) :
  2 <= List.length block ->
  assoc "variable" block = Some (VStr variable) ->
  assoc "name" block = Some (VStr name) ->
  run_segment [("env", VDict block)] tc =
  match environ name with
  | Some v =>
      (Ok tt,
       with_local_symbols (sym_update (VStr variable) (VStr v) (local_symbols tc)) tc)
  | None => (Raise (KeyError (VStr name)), tc)
  end.
Proof.
  intros Hlen Hv Hn.
  assert (P : params_for_set (VDict block) tc = (Ok (VStr variable, VStr name), tc)).
  { unfold params_for_set, bind, lift, ret. cbn [len getitem_key].
    destruct (Nat.ltb_spec (List.length block) 2) as [Hlt|_]; [lia|].
    now rewrite Hv, Hn. }
  assert (Y : yaml_get_env (VDict block) tc =
              match environ name with
              | Some v =>
                  (Ok (None, None),
                   with_local_symbols
                     (sym_update (VStr variable) (VStr v) (local_symbols tc)) tc)
              | None => (Raise (KeyError (VStr name)), tc)
              end).
  { unfold yaml_get_env. rewrite (bind_ok _ _ _ _ _ P). cbv beta iota.
    unfold get_env, bind. destruct (environ name) as [v|]; reflexivity. }
  unfold run_segment. unfold bind at 1. cbn [List.length Nat.ltb Nat.leb ret].
  unfold bind at 1. unfold get at 1.
  cbn [lookup_builtin builtins String.eqb Ascii.eqb Bool.eqb snd fst apply_adapter].
  unfold bind. rewrite Y. destruct (environ name); reflexivity.
Qed.

(** ** The symbol table of a new instance *)

Lemma sym_lookup_builtins (name : string) (t : list (string * (value * option adapter))) :
  sym_lookup (VStr name)
    (map (fun symbol_info => (VStr (fst symbol_info), fst (snd symbol_info))) t) =
  option_map fst (lookup_builtin name t).
Proof.
  induction t as [|[k x] t IH]; [reflexivity|].
  cbn [map sym_lookup lookup_builtin fst snd key_eqb].
  rewrite String.eqb_sym. destruct (String.eqb name k); [reflexivity | exact IH].
Qed.

(** X21. A new instance has no failure, no error and an empty transcript,
    and its symbol table binds the names of the dispatch table and no other
    name: each to the value or the function of its entry, so that embedded
    code can call every directive, also those that a stage entry cannot use. *)
Theorem init_binds_the_dispatch_table (idx : Z) (label : string)
    (setup case teardown : list segment) (name : string) :
  let tc := init idx label setup case teardown in
  failures tc = [] /\ errors tc = [] /\ output tc = EmptyString /\
  sym_lookup (VStr name) (local_symbols tc) =
    option_map fst (lookup_builtin name (builtins idx label)) /\
  (In name code_only -> exists v, sym_lookup (VStr name) (local_symbols tc) = Some v).
Proof.
  cbv zeta. repeat split.
  - apply sym_lookup_builtins.
  - intros H. unfold code_only in H. simpl in H.
    destruct H as [<-|[<-|[<-|[<-|[<-|[<-|[<-|[]]]]]]]]; eexists; reflexivity.
Qed.

(** ** [get_failures] and [get_errors] *)

Lemma format_braceless (s : string) (args : list value) :
  braceless s -> format s args = Ok s.
Proof.
  intros H. unfold format.
  rewrite <- (append_nil_r s) at 1. now rewrite format_go_braceless.
Qed.

Lemma formatted_entries_braceless (l : list (string * string * list value)) :
  Forall (fun e => braceless (snd (fst e))) l ->
  formatted_entries (map entry_of l) = Ok (map fst l).
Proof.
  induction 1 as [|[[status message] args] l Hb _ IH]; [reflexivity|].
  cbn [map entry_of formatted_entries fst snd format_message].
  cbn [fst snd] in Hb. now rewrite (format_braceless _ _ Hb), IH.
Qed.

(** X22. [get_failures] and [get_errors] return one pair per recorded
    entry, in the order of recording. A message without braces is returned
    as it is, whatever arguments were recorded with it: unlike the
    transcript and the summary, which print the arguments after the message,
    they drop them. *)
Theorem get_failures_drops_arguments (tc : TestCase)
    (recorded : list (string * string * list value)) :
  Forall (fun e => braceless (snd (fst e))) recorded ->
  (failures tc = map entry_of recorded -> get_failures tc = Ok (map fst recorded)) /\
  (errors tc = map entry_of recorded -> get_errors tc = Ok (map fst recorded)).
Proof.
  intros H. unfold get_failures, get_errors.
  split; intros ->; now apply formatted_entries_braceless.
Qed.

(** ** [extract_match] with groups *)

Lemma key_eqb_VStr (x : value) (s : string) :
  key_eqb x (VStr s) = true -> x = VStr s.
Proof.
  destruct x; simpl; try discriminate.
  intros H. apply String.eqb_eq in H. now subst.
Qed.

Lemma key_eqb_VNone (x : value) : key_eqb x VNone = true -> x = VNone.
Proof. destruct x; simpl; try discriminate. reflexivity. Qed.

(** Binding [kb] leaves the value of another name [a] as it is. *)
Lemma sym_lookup_update_other (a : string) (kb v : value) (t : symbols) :
  (forall x, key_eqb x kb = true -> x = kb) ->
  key_eqb kb (VStr a) = false ->
  sym_lookup (VStr a) (sym_update kb v t) = sym_lookup (VStr a) t.
Proof.
  intros Hkb Hne. induction t as [|[k' v'] t IH]; cbn [sym_update sym_lookup].
  - now rewrite Hne.
  - destruct (key_eqb k' kb) eqn:E; cbn [sym_lookup].
    + apply Hkb in E. subst k'. now rewrite Hne.
    + destruct (key_eqb k' (VStr a)); [reflexivity | exact IH].
Qed.

Lemma sym_lookup_update_name (a b : string) (v : value) (t : symbols) :
  a <> b ->
  sym_lookup (VStr a) (sym_update (VStr b) v t) = sym_lookup (VStr a) t.
Proof.
  intros H. apply sym_lookup_update_other.
  - intros x. apply key_eqb_VStr.
  - simpl. now apply String.eqb_neq, not_eq_sym.
Qed.

Lemma for_each_clear (names : list string) (t : symbols) (tc : TestCase) :
  for_each (fun variable_name => set_symbol variable_name VNone) (map VStr names)
    (with_local_symbols t tc) =
  (Ok tt, with_local_symbols (clear_all names t) tc).
Proof.
  revert t. induction names as [|n names IH]; intros t; [reflexivity|].
  cbn [map for_each clear_all].
  rewrite (bind_ok _ _ _ tt (with_local_symbols (sym_update (VStr n) VNone t) tc))
    by reflexivity.
  apply IH.
Qed.

Lemma for_each_bind (captures : list (option string)) (i : nat) (names : list string)
    (t : symbols) (tc : TestCase) :
  for_each
    (fun idx_name : nat * value =>
       match nth_error captures (fst idx_name) with
       | Some c => set_symbol (snd idx_name) (value_of_capture c)
       | None => ret tt
       end)
    (combine (seq i (List.length names)) (map VStr names))
    (with_local_symbols t tc) =
  (Ok tt, with_local_symbols (bind_from captures i names t) tc).
Proof.
  revert i t. induction names as [|n names IH]; intros i t; [reflexivity|].
  cbn [List.length seq map combine for_each bind_from fst snd].
  destruct (nth_error captures i) as [c|].
  - rewrite (bind_ok _ _ _ tt
               (with_local_symbols (sym_update (VStr n) (value_of_capture c) t) tc))
      by reflexivity.
    apply IH.
  - rewrite (bind_ok _ _ _ tt (with_local_symbols t tc)) by reflexivity.
    apply IH.
Qed.

Lemma sym_lookup_clear_other (a : string) (names : list string) (t : symbols) :
  ~ In a names -> sym_lookup (VStr a) (clear_all names t) = sym_lookup (VStr a) t.
Proof.
  revert t. induction names as [|n names IH]; intros t H; [reflexivity|].
  cbn [clear_all]. rewrite IH by (intros Hin; apply H; now right).
  apply sym_lookup_update_name. intros ->. apply H. now left.
Qed.

Lemma sym_lookup_clear (a : string) (names : list string) (t : symbols) :
  NoDup names -> In a names -> sym_lookup (VStr a) (clear_all names t) = Some VNone.
Proof.
  intros Hnd. revert t. induction Hnd as [|n names Hn Hnd IH]; intros t Hin;
    [contradiction|].
  cbn [clear_all]. destruct Hin as [-> | Hin].
  - rewrite sym_lookup_clear_other by exact Hn.
    apply sym_lookup_update_same. apply String.eqb_refl.
  - now apply IH.
Qed.

Lemma sym_lookup_bind_other (captures : list (option string)) (a : string) (i : nat)
    (names : list string) (t : symbols) :
  ~ In a names ->
  sym_lookup (VStr a) (bind_from captures i names t) = sym_lookup (VStr a) t.
Proof.
  revert i t. induction names as [|n names IH]; intros i t H; [reflexivity|].
  cbn [bind_from]. rewrite IH by (intros Hin; apply H; now right).
  destruct (nth_error captures i); [|reflexivity].
  apply sym_lookup_update_name. intros ->. apply H. now left.
Qed.

Lemma sym_lookup_bind (captures : list (option string)) (a : string) (i j : nat)
    (names : list string) (t : symbols) :
  NoDup names ->
  nth_error names j = Some a ->
  sym_lookup (VStr a) (bind_from captures i names t) =
  match nth_error captures (i + j) with
  | Some c => Some (value_of_capture c)
  | None => sym_lookup (VStr a) t
  end.
Proof.
  intros Hnd. revert i j t.
  induction Hnd as [|n names Hn Hnd IH]; intros i j t Hj.
  - destruct j; discriminate.
  - cbn [bind_from]. destruct j as [|j].
    + injection Hj as ->. rewrite Nat.add_0_r.
      rewrite sym_lookup_bind_other by exact Hn.
      destruct (nth_error captures i); [|reflexivity].
      apply sym_lookup_update_same. apply String.eqb_refl.
    + cbn [nth_error] in Hj. rewrite (IH (S i) j _ Hj).
      replace (S i + j) with (i + S j) by lia.
      destruct (nth_error captures (i + S j)); [reflexivity|].
      destruct (nth_error captures i); [|reflexivity].
      apply sym_lookup_update_name. intros ->.
      apply Hn. eapply nth_error_In. exact Hj.
Qed.

(** X23. [extract_match] with a list of distinct group names and no
    variable: when the search returns, every name is bound, the name of
    index [i] to the capture of index [i]; a name beyond the captures of the
    match, a group that did not take part, and every name when nothing was
    found, is bound to [None]. Nothing is recorded or printed. *)
Theorem extract_match_binds_groups (pattern : value) (names : list string)
    (found : option (list (option string))) (tc : TestCase) :
  truthy pattern = true ->
  names <> [] ->
  NoDup names ->
  re_search pattern (last_call_output tc) = Ok found ->
  exists tc',
    extract_match pattern VNone (VList (map VStr names)) tc =
      (Ok (VTuple [VNone; VNone]), tc') /\
    (forall i name,
        nth_error names i = Some name ->
        sym_lookup (VStr name) (local_symbols tc') =
        Some match nth_error (captures_of found) i with
             | Some c => value_of_capture c
             | None => VNone
             end) /\
    failures tc' = failures tc /\ errors tc' = errors tc /\ output tc' = output tc.
Proof.
  intros Hp Hne Hnd Hre.
  assert (Hg : truthy (VList (map VStr names)) = true).
  { destruct names; [contradiction | reflexivity]. }
  set (t1 := clear_all names (sym_update VNone VNone (local_symbols tc))).
  assert (Hclear : forall i name, nth_error names i = Some name ->
                                  sym_lookup (VStr name) t1 = Some VNone).
  { intros i name Hi. apply sym_lookup_clear; [exact Hnd|].
    eapply nth_error_In. exact Hi. }
  assert (E : extract_match pattern VNone (VList (map VStr names)) tc =
              (Ok (VTuple [VNone; VNone]),
               with_local_symbols
                 match found with
                 | Some (first :: others) => bind_from (first :: others) 0 names t1
                 | _ => t1
                 end tc)).
  { unfold extract_match. rewrite Hp, Hg. cbn [truthy negb andb].
    rewrite (bind_ok _ _ tc tt tc) by reflexivity.
    rewrite (bind_ok _ _ tc tt tc) by reflexivity.
    rewrite (bind_ok _ _ tc tt tc) by reflexivity.
    rewrite (bind_ok _ _ tc tt
               (with_local_symbols (sym_update VNone VNone (local_symbols tc)) tc))
      by reflexivity.
    rewrite (bind_ok _ _ _ tt (with_local_symbols t1 tc)).
    2:{ unfold bind at 1. unfold lift at 1. cbn [iter]. apply for_each_clear. }
    unfold bind at 1. unfold get at 1. cbn [last_call_output with_local_symbols].
    unfold bind at 1. unfold lift at 1. rewrite Hre.
    destruct found as [[|first others]|]; try reflexivity.
    rewrite (bind_ok _ _ _ tt (with_local_symbols t1 tc)) by reflexivity.
    rewrite (bind_ok _ _ _ tt
               (with_local_symbols (bind_from (first :: others) 0 names t1) tc)).
    2:{ unfold bind at 1. unfold lift at 1. cbn [iter].
        rewrite length_map. apply for_each_bind. }
    reflexivity. }
  eexists. split; [exact E|]. split; [|now simpl].
  intros i name Hi. cbn [local_symbols with_local_symbols].
  destruct found as [[|first others]|]; cbn [captures_of].
  - rewrite (Hclear i name Hi). now destruct i.
  - rewrite (sym_lookup_bind _ _ 0 i _ _ Hnd Hi). cbn [Nat.add].
    destruct (nth_error (first :: others) i); [reflexivity|].
    now rewrite (Hclear i name Hi).
  - rewrite (Hclear i name Hi). now destruct i.
Qed.

(** ** Containment checks that compare case *)

(** X24. Called from embedded code with [case_sensitive=True], a
    containment check compares case: it passes, changing nothing, exactly
    when the values that are parts of the last output as they are written
    meet the requirement of the check; otherwise it records one "FAILED
    ASSERTION" failure and no error, and raises. *)
Theorem containment_checks_compare_case_on_request (which : aggregator)
    (contains : bool) (values : list string) (tc : TestCase) :
  let kwargs := [("case_sensitive", VBool true)] in
  let met :=
    requirement (fun v => part_of v (last_call_output tc)) which contains values in
  (met ->
   contain_checker check_assert_that which contains (map VStr values) kwargs tc =
   (Ok tt, tc)) /\
  (~ met ->
   exists e tc' message,
     contain_checker check_assert_that which contains (map VStr values) kwargs tc =
       (Raise e, tc') /\
     failures tc' = List.app (failures tc) [("FAILED ASSERTION", message, [])] /\
     errors tc' = errors tc).
Proof.
  intros kwargs met.
  set (results := map (fun s => let b := str_in s (last_call_output tc) in
                                if contains then b else negb b) values).
  assert (R : met <-> apply_which which results = true).
  { apply requirement_apply_which. intros v. symmetry. apply str_in_spec. }
  assert (C : comprehension
                (if contains
                 then fun substr =>
                        last_output_contains substr (remove_key KEY_CONTAINS_MESSAGE kwargs)
                 else fun substr =>
                        b <- last_output_contains substr
                               (remove_key KEY_CONTAINS_MESSAGE kwargs) ;;
                        ret (negb b))
                (map VStr values) tc = (Ok results, tc)).
  { unfold results. apply comprehension_map_pure. intros s.
    destruct contains; reflexivity. }
  assert (E : exists message : string,
             contain_checker check_assert_that which contains (map VStr values) kwargs tc =
             assert_that (VBool (apply_which which results)) (VStr message) [] tc).
  { unfold contain_checker. unfold _check_several.
    unfold bind at 1. unfold lift. cbn [assoc kwargs KEY_CONTAINS_MESSAGE String.eqb
      Ascii.eqb Bool.eqb len String.length Nat.eqb]. cbv iota beta.
    eexists. rewrite (bind_ok _ _ _ _ _ C). reflexivity. }
  destruct E as [message E]. rewrite E. split.
  - intros Hm. apply R in Hm.
    now rewrite assert_that_passes by (cbn [truthy]; exact Hm).
  - intros Hm. rewrite R in Hm. apply not_true_is_false in Hm.
    destruct (assert_that_fails (VBool (apply_which which results)) (VStr message) [] tc)
      as [e [tc' [F [Hf He]]]]; [cbn [truthy]; exact Hm|].
    now exists e, tc', (VStr message).
Qed.

End Proofs.

(** ** Concrete cases *)

Import Demo.

(** ** The embedded code of the examples *)


Lemma swallowed_assertion_append_only :
  stmt_append_only (SPython swallowed_assertion).
Proof.
  intros call H tc. unfold swallowed_assertion.
  destruct (sym_lookup (VStr "assert_that") (local_symbols tc)) as [[| | | | | | |fn]|];
    try apply extends_refl.
  specialize (H fn [VBool false; VStr "boom"] [] tc).
  destruct (call fn [VBool false; VStr "boom"] [] tc) as [[v|[]] tc']; exact H.
Qed.


Lemma demo_code_append_only : code_append_only.
Proof.
  intros source program H. unfold compile_code in H. cbn in H.
  repeat (destruct (String.eqb source _);
          [inversion H; subst;
           constructor; [first [exact I | exact swallowed_assertion_append_only] | constructor] |]).
  discriminate.
Qed.


(** The condition on the embedded code is needed. On the platform whose
    compiler knows [assert_that.__self__.failures.clear()], the assertion of
    TEST in [forgetful_case] fails and is recorded, the code of TEARDOWN
    empties the list of failures, and [run] returns 0. *)
Lemma embedded_code_can_remove_failures :
  ~ @code_keeps_failures forgetful_platform /\
  (let tc1 := snd (@run_stage environment forgetful_platform "TEST" []
                     (snd (@run_stage environment forgetful_platform "SETUP" []
                             forgetful_case))) in
   exists tc2,
     @run_segment environment forgetful_platform
       [("code", VStr "assert_that(False, 'boom')")] tc1 = (Raise TestFailure, tc2) /\
     failures tc2 = [("FAILED ASSERTION", VStr "boom", [])]) /\
  fst (@run environment forgetful_platform forgetful_case) = Ok 0 /\
  failures (snd (@run environment forgetful_platform forgetful_case)) = [].
Proof.
  split; [|split; [|split]].
  - intros H.
    assert (P : Forall stmt_keeps_failures [SPython (fun _ => modify (with_failures []))])
      by (apply (H "assert_that.__self__.failures.clear()"); reflexivity).
    inversion P as [|s l K _]; subst. cbn in K.
    specialize (K (fun _ _ _ => ret VNone) (fun _ _ _ tc => le_n _)
                  (with_failures [("FAILED ASSERTION", VStr "boom", [])] forgetful_case)).
    vm_compute in K. lia.
  - cbv zeta. eexists. split; vm_compute; reflexivity.
  - vm_compute. reflexivity.
  - vm_compute. reflexivity.
Qed.


(** On [brace_case] all stages complete, and [run] raises while it formats
    the recorded message for the summary: it returns no count. *)
Lemma run_raises_after_stages_complete :
  run_try brace_case = (Ok tt, snd (run_try brace_case)) /\
  List.length (failures (snd (run_try brace_case))) +
  List.length (errors (snd (run_try brace_case))) = 1 /\
  fst (run brace_case) = Raise (ValueError "Single '}' encountered in format string") /\
  ~ (exists tc3,
        run brace_case =
        (Ok (List.length (failures (snd (run_try brace_case))) +
             List.length (errors (snd (run_try brace_case)))), tc3)).
Proof.
  split; [|split; [|split]]; try (vm_compute; reflexivity).
  intros [tc3 H]. apply (f_equal fst) in H. vm_compute in H. discriminate.
Qed.

(** On [assertion_case] all stages complete, the message of the failure can
    be formatted, and [run] returns the one failure it recorded. *)
Lemma run_count_on_assertion_case :
  run_try assertion_case = (Ok tt, snd (run_try assertion_case)) /\
  Forall formats (reported (snd (run_try assertion_case))) /\
  exists tc3,
    run assertion_case =
    (Ok (List.length (failures (snd (run_try assertion_case))) +
         List.length (errors (snd (run_try assertion_case)))), tc3).
Proof.
  assert (T : run_try assertion_case = (Ok tt, snd (run_try assertion_case)))
    by (vm_compute; reflexivity).
  assert (F : Forall formats (reported (snd (run_try assertion_case)))).
  { assert (E : reported (snd (run_try assertion_case)) =
                [("FAILED ASSERTION", VStr "boom", [])]) by (vm_compute; reflexivity).
    rewrite E. repeat constructor. exists "boom". reflexivity. }
  split; [exact T | split; [exact F|]].
  exact (proj1 (proj2 (proj1 run_returns_problem_count
                          assertion_case (snd (run_try assertion_case)) T)) F).
Defined.

(** On [interrupted_case] the interrupt of SETUP is recorded, TEST is
    skipped, and the directive of TEARDOWN runs before the interrupt leaves
    [run]: its line is in the transcript. *)
Lemma teardown_runs_after_interrupt :
  raised_in_stage KeyboardInterrupt "SETUP" interrupted_case (after_setup interrupted_case) /\
  fst (run interrupted_case) = Raise KeyboardInterrupt /\
  output (snd (run interrupted_case)) =
    output (interrupt_recorded "SETUP" (after_setup interrupted_case)) ++
    nl ++ "### Test case TEARDOWN" ++ nl ++ "cleanup" ++ nl /\
  snd (run interrupted_case) <> interrupt_recorded "SETUP" (after_setup interrupted_case).
Proof.
  split; [|split; [|split]].
  - left. split; [reflexivity|]. vm_compute. reflexivity.
  - vm_compute. reflexivity.
  - vm_compute. reflexivity.
  - intros H. apply (f_equal output) in H. vm_compute in H. discriminate.
Qed.

(** On [interrupted_case] the interrupt of SETUP is recorded and raised
    again by the [except] clause. *)
Lemma interrupt_on_interrupted_case :
  raised_in_stage KeyboardInterrupt "SETUP" interrupted_case (after_setup interrupted_case) /\
  run_stages [("SETUP", setup interrupted_case); ("TEST", case interrupted_case)]
    interrupted_case =
    (Raise KeyboardInterrupt, interrupt_recorded "SETUP" (after_setup interrupted_case)).
Proof.
  assert (R : raised_in_stage KeyboardInterrupt "SETUP" interrupted_case
                (after_setup interrupted_case)).
  { left. split; [reflexivity|]. vm_compute. reflexivity. }
  split; [exact R|].
  exact (proj1 (interrupt_is_recorded_and_teardown_still_runs
                  interrupted_case (after_setup interrupted_case) "SETUP" R)).
Defined.

(** After a successful call of [hello], a call whose target cannot be
    resolved raises [CallError] and the last captured output is still that
    of [hello]. *)
Lemma failed_resolution_leaves_stale_state :
  last_return_code after_hello = 0%Z /\
  last_call_output after_hello = "hello" ++ nl /\
  fst (call_allow_error [VStr "nope"] [] after_hello) =
    Raise (CallError "could not resolve call: no such target") /\
  last_call_output (snd (call_allow_error [VStr "nope"] [] after_hello)) = "hello" ++ nl /\
  last_call_output (snd (call_allow_error [VStr "nope"] [] after_hello)) <> EmptyString.
Proof.
  split; [|split; [|split; [|split]]]; try (vm_compute; reflexivity).
  vm_compute. discriminate.
Qed.

(** After [hello]: a target that cannot be resolved changes nothing, and a
    command that is interrupted leaves the reset state. *)
Lemma reset_on_interrupted_command :
  get_call [VStr "nope"] [] = Raise (OtherException "Exception" "no such target") /\
  call_allow_error [VStr "nope"] [] after_hello =
    (Raise (CallError "could not resolve call: no such target"), after_hello) /\
  last_return_code (snd (_call_external "sleep" None after_hello)) = 0%Z /\
  last_call_output (snd (_call_external "sleep" None after_hello)) = EmptyString.
Proof.
  split; [reflexivity | split].
  - exact (proj2 (proj2 call_external_resets_last_call) [VStr "nope"] [] after_hello
             (OtherException "Exception" "no such target") eq_refl eq_refl).
  - apply (proj1 call_external_resets_last_call "sleep" None after_hello KeyboardInterrupt).
    vm_compute. reflexivity.
Defined.

(** The entry [two_directives] raises [TypeError] and changes nothing. *)
Lemma two_directives_raise_TypeError :
  1 < List.length two_directives /\
  run_segment two_directives assertion_case =
    (Raise (TypeError "__init__() missing 1 required positional argument: 'msg'"),
     assertion_case).
Proof.
  assert (H : 1 < List.length two_directives) by (simpl; lia).
  split; [exact H|].
  exact (run_segment_several_directives two_directives assertion_case H).
Defined.

(** ["{}-{}"] with one argument: nothing is appended, and formatting raises. *)
Lemma two_placeholders_one_argument_raises :
  count_placeholders "{}-{}" = 2 /\
  format_string (VStr "{}-{}") [VStr "a"] =
    Raise (IndexError "Replacement index 1 out of range for positional args tuple") /\
  ~ (exists text, format_string (VStr "{}-{}") [VStr "a"] = Ok text).
Proof.
  split; [reflexivity | split; [reflexivity|]].
  intros [text H]. vm_compute in H. discriminate.
Qed.

(** ["hello {name}"] with two arguments has no placeholder after the
    interpolation of [name] and gets two. *)
Lemma padding_on_hello_name :
  interpolate_symbols (VStr "hello {name}") get_symbol = Ok "hello world" /\
  format_string (VStr "hello {name}") [VInt 1; VInt 2] =
    format ("hello world" ++ ": " ++ str_mul "{} " 2) [VInt 1; VInt 2] /\
  count_placeholders ("hello world" ++ ": " ++ str_mul "{} " 2) = 2.
Proof.
  assert (I : interpolate_symbols (VStr "hello {name}") get_symbol = Ok "hello world")
    by reflexivity.
  split; [exact I|].
  assert (L : count_placeholders "hello world" < List.length [VInt 1; VInt 2])
    by (vm_compute; lia).
  assert (N : [VInt 1; VInt 2] <> []) by discriminate.
  exact (proj1 (proj1 format_string_padding_rule "hello {name}" "hello world"
                  [VInt 1; VInt 2] N I) L).
Defined.

(** After "count: 42", [extract_match] binds [n] to ["42"]. *)
Lemma extract_match_on_count_output :
  re_search (VStr "(\d+)") "count: 42" = Ok (Some [Some "42"]) /\
  last_call_output after_count = "count: 42" /\
  exists tc',
    extract_match (VStr "(\d+)") (VStr "n") VNone after_count =
      (Ok (VTuple [VNone; VNone]), tc') /\
    sym_lookup (VStr "n") (local_symbols tc') = Some (VStr "42").
Proof.
  assert (O : last_call_output after_count = "count: 42") by (vm_compute; reflexivity).
  split; [reflexivity | split; [exact O|]].
  exact (proj1 (extract_match_binds_or_rejects after_count) eq_refl O).
Defined.



(** On [critical_interrupted_case] the call of SETUP has no target: the
    adapter logs a critical message and raises. The interrupt of TEARDOWN
    then leaves [run]; the log holds that message and no summary. *)
Lemma critical_message_logged_before_interrupt :
  fst (run critical_interrupted_case) = Raise KeyboardInterrupt /\
  logging (snd (run critical_interrupted_case)) =
    [(CRITICAL,
      "when calling artifacts, the first parameter must be " ++ dq ++
      "- target: TARGET" ++ dq)] /\
  logging (snd (run critical_interrupted_case)) =
    logging (snd (run_try critical_interrupted_case)).
Proof. split; [|split]; vm_compute; reflexivity. Qed.

(** On [interrupted_case] no summary and no transcript is logged; on
    [brace_case] the summary line is logged and the transcript is not. *)
Lemma transcript_not_logged :
  fst (run interrupted_case) = Raise KeyboardInterrupt /\
  logging (snd (run interrupted_case)) = [] /\
  ~ (exists lines,
        logging (snd (run interrupted_case)) =
        List.app lines (transcript_lines (snd (run interrupted_case)))) /\
  ~ (exists lines,
        logging (snd (run brace_case)) =
        List.app lines (transcript_lines (snd (run brace_case)))).
Proof.
  split; [|split; [|split]]; try (vm_compute; reflexivity).
  - intros [lines H]. vm_compute in H. destruct lines; discriminate.
  - intros [lines H]. vm_compute in H.
    destruct lines as [|x [|y lines]]; discriminate.
Qed.

(** On [assertion_case], which fails, [run] returns and the transcript is
    logged. *)
Lemma transcript_logged_on_assertion_case :
  run assertion_case = (Ok 1, snd (run assertion_case)) /\
  exists lines,
    logging (snd (run assertion_case)) =
    List.app lines (transcript_lines (snd (run assertion_case))).
Proof.
  assert (R : run assertion_case = (Ok 1, snd (run assertion_case)))
    by (vm_compute; reflexivity).
  split; [exact R|].
  exact (proj1 run_logs_transcript_whenever_it_returns
           assertion_case 1 (snd (run assertion_case)) R).
Defined.

(** ** Concrete cases of the further properties *)

(** The variable [zz] is not bound when the second directive of TEST in
    [late_unbound_case] is reached, after a first directive and behind a
    literal: [KeyError] leaves the directive and is recorded as an error of
    TEST; [run] returns 1 for it, as it does on [unbound_case], where the
    reference is the first value of the first directive of SETUP. A call
    whose arguments refer to [zz], after the target and the parameters,
    raises the same. *)
Lemma unbound_variable_on_late_unbound_case :
  hashable (VStr "zz") = true /\
  sym_lookup (VStr "zz") (local_symbols before_unbound) = None /\
  get_variable_or_literal (reference (VStr "zz")) before_unbound =
    (Raise (KeyError (VStr "zz")), before_unbound) /\
  run_segment
    [("assert_contains", VList [literal (VStr "count"); reference (VStr "zz")])]
    before_unbound =
    (Raise (KeyError (VStr "zz")), before_unbound) /\
  run_segment
    [("call",
      VDict [("target", VStr "hello");
             ("params", VDict [("a", literal (VStr "1"))]);
             ("args", VList [literal (VStr "2"); reference (VStr "zz")])])]
    before_unbound =
    (Raise (KeyError (VStr "zz")), before_unbound) /\
  (exists r tc',
      run_stages [("SETUP", setup late_unbound_case); ("TEST", case late_unbound_case)]
        late_unbound_case = (r, tc') /\
      errors tc' =
        List.app (errors before_unbound)
          [("UNHANDLED EXCEPTION in stage TEST ",
            VStr (exn_repr (KeyError (VStr "zz")) ++ nl ++ format_tb (KeyError (VStr "zz"))),
            [])] /\
      failures tc' = failures before_unbound) /\
  exn_repr (KeyError (VStr "zz")) = "KeyError('zz')" /\
  fst (run late_unbound_case) = Ok 1 /\
  fst (run unbound_case) = Ok 1.
Proof.
  assert (L : sym_lookup (VStr "zz") (local_symbols before_unbound) = None)
    by (vm_compute; reflexivity).
  pose proof (unbound_variable_is_unhandled_KeyError (VStr "zz") before_unbound eq_refl L)
    as [G [C [P [S _]]]].
  assert (R : run_segment
                [("assert_contains", VList [literal (VStr "count"); reference (VStr "zz")])]
                before_unbound =
              (Raise (KeyError (VStr "zz")), before_unbound)).
  { apply (proj1 (C "assert_contains" [literal (VStr "count")] []
                    (or_intror (or_intror (or_intror (or_introl eq_refl))))
                    (Forall_cons _ (ex_intro _ (VStr "count") (resolved_literal _ _))
                       (Forall_nil _)))). }
  split; [reflexivity | split; [exact L | split; [exact G | split; [exact R|]]]].
  split.
  { apply (P "call"
             [("target", VStr "hello"); ("params", VDict [("a", literal (VStr "1"))])]
             ("args", VList [literal (VStr "2"); reference (VStr "zz")]) []).
    - now left.
    - now exists (VStr "hello").
    - constructor; [now left | constructor; [|constructor]].
      right. left. split; [reflexivity|].
      exists [("a", literal (VStr "1"))]. split; [reflexivity|].
      constructor; [|constructor]. exists (VStr "1"). constructor.
    - split; [discriminate|]. right. split; [reflexivity|].
      exists [literal (VStr "2")], []. split; [reflexivity|].
      constructor; [|constructor]. exists (VStr "2"). constructor. }
  split.
  - apply (S "TEST"
             [("assert_contains", VList [literal (VStr "count"); reference (VStr "zz")])]).
    exists [[("shell", VList [VStr "echo count"])]], [[("log", VList [VStr "never"])]].
    split; [right | exact R].
    split; [reflexivity | split; [reflexivity|]].
    exists (after_setup late_unbound_case). split; vm_compute; reflexivity.
  - split; [|split]; vm_compute; reflexivity.
Defined.

(** ["cleanup"] with two arguments. *)
Lemma braceless_message_on_cleanup :
  braceless "cleanup" /\
  format_string (VStr "cleanup") [VInt 1; VStr "a"] = Ok "cleanup: 1 a " /\
  print_out (VStr "cleanup") [VInt 1; VStr "a"] after_hello =
    (Ok tt, with_output (output after_hello ++ "cleanup: 1 a " ++ nl) after_hello).
Proof.
  assert (H : braceless "cleanup") by (split; reflexivity).
  split; [exact H|].
  exact (braceless_message_always_formats "cleanup" [VInt 1; VStr "a"] after_hello H).
Defined.

(** A false assertion with the message ["boom"]. *)
Lemma failed_assertion_on_boom :
  truthy (VBool false) = false /\
  braceless "boom" /\
  assert_that (VBool false) (VStr "boom") [] after_hello =
    (Raise TestFailure,
     with_output (output after_hello ++ "# FAILED ASSERTION: boom" ++ nl)
       (with_failures
          (List.app (failures after_hello) [("FAILED ASSERTION", VStr "boom", [])])
          after_hello)).
Proof.
  assert (H : braceless "boom") by (split; reflexivity).
  split; [reflexivity | split; [exact H|]].
  exact (assert_that_raises_TestFailure (VBool false) "boom" [] after_hello eq_refl H).
Defined.

(** The target [hello] exits with 0: [call_no_error] returns its output. *)
Lemma call_no_error_on_hello :
  call_allow_error [VStr "hello"] [] (init 5 "calls" [] [] []) =
    (Ok (0%Z, "hello" ++ nl), after_hello) /\
  call_no_error [VStr "hello"] [] (init 5 "calls" [] [] []) =
    (Ok ("hello" ++ nl), after_hello).
Proof.
  assert (H : call_allow_error [VStr "hello"] [] (init 5 "calls" [] [] []) =
              (Ok (0%Z, "hello" ++ nl), after_hello)) by (vm_compute; reflexivity).
  split; [exact H|].
  exact (call_no_error_asserts_exit_code [VStr "hello"] [] (init 5 "calls" [] [] [])
           after_hello 0%Z ("hello" ++ nl) H).
Defined.

(** The command [false] after [hello]: the exit code 1 and the empty
    output replace those of [hello]. *)
Lemma call_external_on_false :
  _call_external "false" None after_hello = (Ok (1%Z, EmptyString), after_false) /\
  last_return_code after_false = 1%Z /\
  last_call_output after_false = EmptyString /\
  sym_lookup (VStr "_last_call_output") (local_symbols after_false) =
    Some (VStr EmptyString) /\
  (exists text, output after_false = output after_hello ++ text ++ EmptyString) /\
  failures after_false = failures after_hello /\
  errors after_false = errors after_hello.
Proof.
  assert (H : _call_external "false" None after_hello =
              (Ok (1%Z, EmptyString), after_false)) by (vm_compute; reflexivity).
  split; [exact H|].
  exact (call_external_refreshes_last_output "false" None after_hello after_false
           1%Z EmptyString H).
Defined.

(** [log] with an empty list. *)
Lemma log_without_argument_raises :
  ("log" = "log" \/ "log" = "shell") /\
  (VList [] = VNone \/ len (VList []) = Ok 0) /\
  run_segment [("log", VList [])] after_hello =
    (Raise (TypeError "wrong number of positional arguments"), after_hello).
Proof.
  assert (D : "log" = "log" \/ "log" = "shell") by (left; reflexivity).
  assert (P : VList [] = VNone \/ len (VList []) = Ok 0) by (right; reflexivity).
  split; [exact D | split; [exact P|]].
  exact (log_and_shell_need_an_argument "log" (VList []) after_hello D P).
Defined.

(** On [teardown_assertion_case] the failed assertion of TEARDOWN counts
    twice: as a failure and as an error. *)
Lemma teardown_failure_on_teardown_assertion_case :
  run_stage "TEARDOWN" (teardown teardown_assertion_case) teardown_assertion_case =
    (Raise TestFailure,
     snd (run_stage "TEARDOWN" (teardown teardown_assertion_case)
            teardown_assertion_case)) /\
  fst (run_teardown teardown_assertion_case) = Ok tt /\
  fst (run teardown_assertion_case) = Ok 2.
Proof.
  assert (H : run_stage "TEARDOWN" (teardown teardown_assertion_case)
                teardown_assertion_case =
              (Raise TestFailure,
               snd (run_stage "TEARDOWN" (teardown teardown_assertion_case)
                      teardown_assertion_case))) by (vm_compute; reflexivity).
  split; [exact H | split; [|vm_compute; reflexivity]].
  exact (f_equal fst
           (teardown_failure_is_recorded_as_error teardown_assertion_case _ H)).
Defined.

(** On [teardown_interrupted_case] SETUP and TEST complete, TEARDOWN is
    interrupted and [run] raises without a summary. *)
Lemma teardown_interrupt_on_teardown_interrupted_case :
  run_stages [("SETUP", setup teardown_interrupted_case);
              ("TEST", case teardown_interrupted_case)] teardown_interrupted_case =
    (Ok tt, snd (run_stages [("SETUP", setup teardown_interrupted_case);
                             ("TEST", case teardown_interrupted_case)]
                   teardown_interrupted_case)) /\
  fst (run teardown_interrupted_case) = Raise KeyboardInterrupt /\
  logging (snd (run teardown_interrupted_case)) = [].
Proof.
  set (c := teardown_interrupted_case).
  set (tc1 := snd (run_stages [("SETUP", setup c); ("TEST", case c)] c)).
  set (tc2 := snd (run_stage "TEARDOWN" (teardown tc1) tc1)).
  assert (S : run_stages [("SETUP", setup c); ("TEST", case c)] c = (Ok tt, tc1))
    by (vm_compute; reflexivity).
  assert (T : run_stage "TEARDOWN" (teardown tc1) tc1 = (Raise KeyboardInterrupt, tc2))
    by (vm_compute; reflexivity).
  split; [exact S|].
  rewrite (teardown_interrupt_leaves_run c tc1 tc2 (Ok tt) S T).
  split; [reflexivity | vm_compute; reflexivity].
Defined.

(** On [unresolved_case] the call of SETUP cannot be resolved: one error,
    no failure, and the stages end normally. *)
Lemma call_error_on_unresolved_case :
  raised_in_stage (CallError "could not resolve call: no such target") "SETUP"
    unresolved_case (after_setup unresolved_case) /\
  braceless "could not resolve call: no such target" /\
  run_stages [("SETUP", setup unresolved_case); ("TEST", case unresolved_case)]
    unresolved_case =
    (Ok tt,
     with_output
       (output (after_setup unresolved_case) ++
        (("CALL ERROR in stage " ++ "SETUP" ++ " ") ++ ": " ++
         "could not resolve call: no such target") ++ nl)
       (with_errors
          (List.app (errors (after_setup unresolved_case))
             [("CALL ERROR in stage " ++ "SETUP" ++ " ",
               VStr "could not resolve call: no such target", [])])
          (after_setup unresolved_case))).
Proof.
  assert (R : raised_in_stage (CallError "could not resolve call: no such target")
                "SETUP" unresolved_case (after_setup unresolved_case)).
  { left. split; [reflexivity|]. vm_compute. reflexivity. }
  assert (B : braceless "could not resolve call: no such target")
    by (split; reflexivity).
  split; [exact R | split; [exact B|]].
  exact (proj2 (call_error_is_recorded unresolved_case (after_setup unresolved_case)
                  "SETUP" "could not resolve call: no such target" R) B).
Defined.

(** ["hello {name}!"]: the symbol [name] is [world]. *)
Lemma interpolation_on_hello_name :
  mem_char lbrace "hello " = false /\
  mem_char rbrace "name" = false /\
  mem_char lbrace "!" = false /\
  format_string (VStr "hello {name}!") [] = Ok "hello world!".
Proof.
  split; [reflexivity | split; [reflexivity | split; [reflexivity|]]].
  exact (format_string_interpolates_symbol "hello " "name" "!" eq_refl eq_refl eq_refl).
Defined.

(** Two lines, indented by four blanks and a bar. *)
Lemma reindent_on_two_lines :
  ["a"; "b"] <> [] /\
  Forall (fun line => mem_char newline line = false) ["a"; "b"] /\
  reindent ("a" ++ nl ++ "b") 4 "| " = "    | a" ++ nl ++ "    | b".
Proof.
  assert (N : ["a"; "b"] <> []) by discriminate.
  assert (F : Forall (fun line => mem_char newline line = false) ["a"; "b"])
    by (repeat constructor).
  split; [exact N | split; [exact F|]].
  exact (reindent_prefixes_every_line ["a"; "b"] 4 "| " N F).
Defined.

(** [shell] of ["echo"] with the argument ["count"] runs [echo count]. *)
Lemma shell_on_echo_count :
  braceless "echo" /\
  "echo" ++ blanked [VStr "count"] = "echo count" /\
  shell (VStr "echo") [VStr "count"] after_hello =
    _call_external "echo count" None after_hello.
Proof.
  assert (H : braceless "echo") by (split; reflexivity).
  split; [exact H | split; [reflexivity|]].
  exact (shell_command_line "echo" [VStr "count"] after_hello H).
Defined.

(** [log] of ["value"] with a bound and an unbound name. *)
Lemma log_on_bound_and_unbound_name :
  braceless "value" /\
  map (value_or_quoted (local_symbols after_hello)) ["testcase_num"; "zz"] =
    [VInt 5; VStr (dq ++ "zz" ++ dq)] /\
  run_segment [("log", VList (VStr "value" :: map VStr ["testcase_num"; "zz"]))]
    after_hello =
    (Ok tt,
     with_output
       (output after_hello ++ ("value: 5 " ++ dq ++ "zz" ++ dq ++ " ") ++ nl)
       after_hello).
Proof.
  assert (H : braceless "value") by (split; reflexivity).
  split; [exact H | split; [vm_compute; reflexivity|]].
  exact (log_directive_prints_values "value" ["testcase_num"; "zz"] after_hello H).
Defined.

(** [call] with parameters and no target. *)
Lemma call_without_target_raises :
  ("call" = "call" \/ "call" = "call_may_fail") /\
  assoc key_cmd [("params", VDict [])] = None /\
  fst (run_segment [("call", VDict [("params", VDict [])])] after_hello) =
    Raise (ValueError ("when calling artifacts, the first parameter must be " ++ dq ++
                       "- target: TARGET" ++ dq)) /\
  ticks (snd (run_segment [("call", VDict [("params", VDict [])])] after_hello)) =
    ticks after_hello.
Proof.
  assert (D : "call" = "call" \/ "call" = "call_may_fail") by (left; reflexivity).
  assert (K : assoc key_cmd [("params", VDict [])] = None) by reflexivity.
  split; [exact D | split; [exact K|]].
  rewrite (call_directive_needs_target "call" [("params", VDict [])] after_hello D K).
  split; reflexivity.
Defined.

(** [env] binds [home] to the value of [HOME]. *)
Lemma env_on_home :
  2 <= List.length [("name", VStr "HOME"); ("variable", VStr "home")] /\
  assoc "variable" [("name", VStr "HOME"); ("variable", VStr "home")] =
    Some (VStr "home") /\
  assoc "name" [("name", VStr "HOME"); ("variable", VStr "home")] =
    Some (VStr "HOME") /\
  run_segment [("env", VDict [("name", VStr "HOME"); ("variable", VStr "home")])]
    after_hello =
    (Ok tt,
     with_local_symbols
       (sym_update (VStr "home") (VStr "/root") (local_symbols after_hello))
       after_hello).
Proof.
  assert (L : 2 <= List.length [("name", VStr "HOME"); ("variable", VStr "home")])
    by (simpl; lia).
  split; [exact L | split; [reflexivity | split; [reflexivity|]]].
  exact (env_directive_binds_or_raises
           [("name", VStr "HOME"); ("variable", VStr "home")] "home" "HOME"
           after_hello L eq_refl eq_refl).
Defined.

(** The failed expectation of [after_expectation] was recorded with the
    argument 3; [get_failures] returns the message without it. *)
Lemma get_failures_on_expectation :
  Forall (fun e : string * string * list value => braceless (snd (fst e)))
    [("FAILED EXPECTATION", "value was", [VInt 3])] /\
  failures after_expectation =
    map entry_of [("FAILED EXPECTATION", "value was", [VInt 3])] /\
  get_failures after_expectation = Ok [("FAILED EXPECTATION", "value was")].
Proof.
  assert (F : Forall (fun e : string * string * list value => braceless (snd (fst e)))
                [("FAILED EXPECTATION", "value was", [VInt 3])]).
  { constructor; [split; reflexivity | constructor]. }
  assert (E : failures after_expectation =
              map entry_of [("FAILED EXPECTATION", "value was", [VInt 3])])
    by (vm_compute; reflexivity).
  split; [exact F | split; [exact E|]].
  exact (proj1 (get_failures_drops_arguments after_expectation
                  [("FAILED EXPECTATION", "value was", [VInt 3])] F) E).
Defined.

(** After "count: 42", the groups [n] and [m]: [n] is bound to ["42"] and
    [m], for which the match has no capture, to [None]. *)
Lemma extract_match_groups_on_count_output :
  truthy (VStr "(\d+)") = true /\
  ["n"; "m"] <> [] /\
  NoDup ["n"; "m"] /\
  re_search (VStr "(\d+)") (last_call_output after_count) = Ok (Some [Some "42"]) /\
  exists tc',
    extract_match (VStr "(\d+)") VNone (VList (map VStr ["n"; "m"])) after_count =
      (Ok (VTuple [VNone; VNone]), tc') /\
    sym_lookup (VStr "n") (local_symbols tc') = Some (VStr "42") /\
    sym_lookup (VStr "m") (local_symbols tc') = Some VNone.
Proof.
  assert (N : ["n"; "m"] <> []) by discriminate.
  assert (D : NoDup ["n"; "m"]).
  { constructor; [|constructor; [intros [] | constructor]].
    intros [H | []]. discriminate H. }
  assert (R : re_search (VStr "(\d+)") (last_call_output after_count) =
              Ok (Some [Some "42"])) by (vm_compute; reflexivity).
  split; [reflexivity | split; [exact N | split; [exact D | split; [exact R|]]]].
  destruct (extract_match_binds_groups (VStr "(\d+)") ["n"; "m"] (Some [Some "42"])
              after_count eq_refl N D R) as [tc' [E [B _]]].
  exists tc'. split; [exact E | split].
  - exact (B 0 "n" eq_refl).
  - exact (B 1 "m" eq_refl).
Defined.

(** On [swallowed_case] the embedded code swallows the exception of a
    failed assertion: the failure stays recorded, TEST goes on, [run]
    returns 1 and has only extended the instance. *)
Lemma run_extends_swallowed_case :
  code_append_only /\
  extends swallowed_case (snd (run swallowed_case)) /\
  fst (run swallowed_case) = Ok 1 /\
  failures (snd (run swallowed_case)) = [("FAILED ASSERTION", VStr "boom", [])] /\
  output (snd (run swallowed_case)) =
    nl ++ "### Test case SETUP" ++ nl ++
    nl ++ "### Test case TEST" ++ nl ++
    "# FAILED ASSERTION: boom" ++ nl ++
    "after" ++ nl ++
    nl ++ "### Test case TEARDOWN" ++ nl.
Proof.
  split; [exact demo_code_append_only|].
  split; [exact (run_only_extends swallowed_case demo_code_append_only)|].
  split; [vm_compute; reflexivity|].
  split; vm_compute; reflexivity.
Defined.

(** After "count: 42", [assert_contains] of the literals ["COUNT"] and
    ["42"] passes; of the literals ["COUNT"] and [42] it raises. *)
Lemma assert_contains_on_count_output :
  lookup_builtin "assert_contains" (builtins (idx after_count) (label after_count)) =
    Some (VFun (F_checker All true), Some A_params_for_contains) /\
  map VStr ["COUNT"; "42"] <> [] /\
  meets All true ["COUNT"; "42"] (last_call_output after_count) /\
  run_segment [("assert_contains", VList (map literal (map VStr ["COUNT"; "42"])))]
    after_count =
    (Ok tt, after_count) /\
  run_segment [("assert_contains", VList (map literal [VStr "COUNT"; VInt 42]))]
    after_count =
    (Raise (AttributeError "'int' object has no attribute 'lower'"), after_count).
Proof.
  assert (L : lookup_builtin "assert_contains"
                (builtins (idx after_count) (label after_count)) =
              Some (VFun (F_checker All true), Some A_params_for_contains))
    by reflexivity.
  assert (N : map VStr ["COUNT"; "42"] <> []) by discriminate.
  assert (N' : [VStr "COUNT"; VInt 42] <> []) by discriminate.
  assert (M : meets All true ["COUNT"; "42"] (last_call_output after_count)).
  { unfold meets, requirement.
    constructor; [|constructor; [|constructor]]; apply occurs_str_in;
      vm_compute; reflexivity. }
  split; [exact L | split; [exact N | split; [exact M | split]]].
  - exact (proj1 (proj1 (containment_directive_on_literals "assert_contains" All true
                           (map VStr ["COUNT"; "42"]) after_count L N)
                    ["COUNT"; "42"] eq_refl) M).
  - refine (proj2 (containment_directive_on_literals "assert_contains" All true
                     [VStr "COUNT"; VInt 42] after_count L N')
              ["COUNT"] (VInt 42) [] eq_refl _).
    intros s. discriminate.
Defined.
